(** * line4up: board model, win detector, search engine and game controller

    A shallow embedding of [src/game/Board.js], [src/game/GameLogic.js],
    [src/game/AI.js] and the game controller (the class [Game]).

    - JavaScript numbers that hold rows, columns, cell values and scores
      are integers ([Z]); the two infinities used by the search are added
      by the type [num].
    - A [Board] object is a reference into a store of grids.  Methods that
      only read [this.grid] are functions of the grid; methods that write
      ([setCell], [dropToken]) and [clone], which allocates, pass the
      store explicitly.
    - [while] loops whose termination depends on their arguments take
      fuel and return [None] when it runs out.
    - A [Game] object is a record that holds the reference of its board;
      its methods return the new record, the store and the calls they
      make to the listeners. *)

From stdpp Require Import base option list sets strings.
From Stdlib Require Import ZArith Lia Orders OrdersTac.
From Stdlib Require Import Sorting.Sorted.

Local Open Scope Z_scope.

(** ** Board.js *)

Module Board.

Definition ROWS : Z := 6.
Definition COLS : Z := 7.
Definition EMPTY : Z := 0.
Definition PLAYER_1 : Z := 1.
Definition PLAYER_2 : Z := 2.

(** [this.grid]: an array of rows, each an array of cell values;
    [grid[0]] is the bottom row. *)
Abbreviation Grid := (list (list Z)) (only parsing).

(** [arr[i]] for an integer [i]; [None] stands for [undefined], which an
    array gives at an index it does not have. *)
Definition index {A : Type} (arr : list A) (i : Z) : option A :=
  if 0 <=? i then arr !! Z.to_nat i else None.

(** [grid[row][col]] as an expression. *)
Definition read (grid : Grid) (row col : Z) : option Z :=
  row_arr ← index grid row; index row_arr col.

(** [grid[row][col] = value], used by the source only with a row and a
    column inside the array bounds. *)
Definition write (grid : Grid) (row col value : Z) : Grid :=
  alter (λ row_arr, <[Z.to_nat col := value]> row_arr) (Z.to_nat row) grid.

(** The grid built by [reset]: [ROWS] rows of [COLS] empty cells. *)
Definition reset : Grid :=
  replicate (Z.to_nat ROWS) (replicate (Z.to_nat COLS) EMPTY).

(** Every grid the constructor and the methods produce has this shape;
    on it every read inside the bounds yields a cell value. *)
Definition wf_grid (grid : Grid) : Prop :=
  length grid = Z.to_nat ROWS ∧
  Forall (λ row_arr : list Z, length row_arr = Z.to_nat COLS) grid.

(** [getCell]: [None] is the [null] returned out of bounds. *)
Definition getCell (grid : Grid) (row col : Z) : option Z :=
  if (row <? 0) || (row >=? ROWS) || (col <? 0) || (col >=? COLS)
  then None
  else read grid row col.

(** The [for] loop of [findLowestRow] over the rows still to visit. *)
Fixpoint findLowestRow_loop (grid : Grid) (col : Z) (rows : list Z) : Z :=
  match rows with
  | [] => -1
  | row :: rows' =>
      if bool_decide (read grid row col = Some EMPTY) then row
      else findLowestRow_loop grid col rows'
  end.

Definition findLowestRow (grid : Grid) (col : Z) : Z :=
  if (col <? 0) || (col >=? COLS) then -1
  else findLowestRow_loop grid col (seqZ 0 ROWS).

Definition isColumnFull (grid : Grid) (col : Z) : bool :=
  findLowestRow grid col =? -1.

Fixpoint isFull_loop (grid : Grid) (cols : list Z) : bool :=
  match cols with
  | [] => true
  | col :: cols' =>
      if negb (isColumnFull grid col) then false else isFull_loop grid cols'
  end.

Definition isFull (grid : Grid) : bool := isFull_loop grid (seqZ 0 COLS).

Fixpoint getValidMoves_loop (grid : Grid) (cols : list Z) (validMoves : list Z)
  : list Z :=
  match cols with
  | [] => validMoves
  | col :: cols' =>
      getValidMoves_loop grid cols'
        (if negb (isColumnFull grid col) then validMoves ++ [col] else validMoves)
  end.

Definition getValidMoves (grid : Grid) : list Z :=
  getValidMoves_loop grid (seqZ 0 COLS) [].

(** *** The store of board objects *)

(** A [Board] object is a reference; the store maps it to its grid.
    [reset] builds the rows afresh and no method hands a row out, so a
    grid is reachable from one board only. *)
Abbreviation ref := nat (only parsing).
Abbreviation Store := (list (list (list Z))) (only parsing).

Definition grid_of (σ : Store) (this : ref) : Grid := default [] (σ !! this).

(** [new Board()]. *)
Definition new (σ : Store) : ref * Store := (length σ, σ ++ [reset]).

(** The method [reset]: [this.grid] becomes a grid built afresh. *)
Definition resetBoard (this : ref) (σ : Store) : Store := <[this := reset]> σ.

Definition setCell (this : ref) (row col value : Z) (σ : Store) : Store :=
  if (row >=? 0) && (row <? ROWS) && (col >=? 0) && (col <? COLS)
  then <[this := write (grid_of σ this) row col value]> σ
  else σ.

Definition dropToken (this : ref) (col player : Z) (σ : Store) : Z * Store :=
  let row := findLowestRow (grid_of σ this) col in
  if row =? -1 then (-1, σ)
  else (row, <[this := write (grid_of σ this) row col player]> σ).

(** One assignment of [clone]'s inner loop:
    [newBoard.grid[row][col] = this.grid[row][col]]. *)
Definition clone_cell (this newBoard : ref) (row col : Z) (σ : Store) : Store :=
  match read (grid_of σ this) row col with
  | Some value => <[newBoard := write (grid_of σ newBoard) row col value]> σ
  | None => σ
  end.

Definition clone (this : ref) (σ : Store) : ref * Store :=
  let '(newBoard, σ1) := new σ in
  (newBoard,
   foldl (λ σr row,
            foldl (λ σc col, clone_cell this newBoard row col σc) σr (seqZ 0 COLS))
         σ1 (seqZ 0 ROWS)).

End Board.

(** ** GameLogic.js *)

Module GameLogic.
Import Board.

(** [[deltaRow, deltaCol]] pairs, in the order [checkWin] tries them. *)
Definition DIRECTIONS : list (Z * Z) := [(0, 1); (1, 0); (1, 1); (1, -1)].

Abbreviation Position := (Z * Z)%type (only parsing).

(** The object [{player, positions}] returned on a win. *)
Record WinInfo : Type := mkWinInfo {
  player : Z;
  positions : list Position
}.

Definition isValidPosition (row col : Z) : bool :=
  (row >=? 0) && (row <? ROWS) && (col >=? 0) && (col <? COLS).

(** The guard of both [while] loops. *)
Definition matches (grid : Grid) (r c player : Z) : bool :=
  isValidPosition r c && bool_decide (getCell grid r c = Some player).

(** First loop of [getConnectedPositions]: [positions.push([r, c])]. *)
Fixpoint walk_push (fuel : nat) (grid : Grid) (dRow dCol player : Z)
    (r c : Z) (positions : list Position) : option (list Position) :=
  match fuel with
  | O => None
  | S fuel' =>
      if matches grid r c player
      then walk_push fuel' grid dRow dCol player (r + dRow) (c + dCol)
             (positions ++ [(r, c)])
      else Some positions
  end.

(** Second loop: [positions.unshift([r, c])]. *)
Fixpoint walk_unshift (fuel : nat) (grid : Grid) (dRow dCol player : Z)
    (r c : Z) (positions : list Position) : option (list Position) :=
  match fuel with
  | O => None
  | S fuel' =>
      if matches grid r c player
      then walk_unshift fuel' grid dRow dCol player (r - dRow) (c - dCol)
             ((r, c) :: positions)
      else Some positions
  end.

Definition getConnectedPositions (fuel : nat) (grid : Grid)
    (row col dRow dCol player : Z) : option (list Position) :=
  positions ← walk_push fuel grid dRow dCol player (row + dRow) (col + dCol)
                [(row, col)];
  walk_unshift fuel grid dRow dCol player (row - dRow) (col - dCol) positions.

(** The [for ... of DIRECTIONS] loop; the outer [None] is lack of fuel,
    the inner [None] is the [null] result. *)
Fixpoint checkWin_loop (fuel : nat) (grid : Grid) (row col player : Z)
    (dirs : list (Z * Z)) : option (option WinInfo) :=
  match dirs with
  | [] => Some None
  | (dRow, dCol) :: dirs' =>
      positions ← getConnectedPositions fuel grid row col dRow dCol player;
      if (4 <=? length positions)%nat
      then Some (Some (mkWinInfo player (take 4 positions)))
      else checkWin_loop fuel grid row col player dirs'
  end.

Definition checkWin (fuel : nat) (grid : Grid) (row col player : Z)
  : option (option WinInfo) :=
  checkWin_loop fuel grid row col player DIRECTIONS.

(** The [while] loop of [countInDirection]. *)
Fixpoint countInDirection_loop (fuel : nat) (grid : Grid)
    (dRow dCol player : Z) (r c count : Z) : option Z :=
  match fuel with
  | O => None
  | S fuel' =>
      if matches grid r c player
      then countInDirection_loop fuel' grid dRow dCol player
             (r + dRow) (c + dCol) (count + 1)
      else Some count
  end.

Definition countInDirection (fuel : nat) (grid : Grid)
    (row col dRow dCol player : Z) : option Z :=
  countInDirection_loop fuel grid dRow dCol player row col 0.

(** [isWinningMove] writes the token into the board it is given and takes
    it out again, so it passes the store. *)
Definition isWinningMove (fuel : nat) (board : ref) (col player : Z)
    (σ : Store) : option (bool * Store) :=
  let row := findLowestRow (grid_of σ board) col in
  if row =? -1 then Some (false, σ)
  else
    let σ1 := setCell board row col player σ in
    win ← checkWin fuel (grid_of σ1 board) row col player;
    let σ2 := setCell board row col EMPTY σ1 in
    Some (bool_decide (win ≠ None), σ2).

(** The [for] loop of [getWinningMoves]; [&&] does not call
    [isWinningMove] on a full column. *)
Fixpoint getWinningMoves_loop (fuel : nat) (board : ref) (player : Z)
    (cols : list Z) (winningMoves : list Z) (σ : Store)
  : option (list Z * Store) :=
  match cols with
  | [] => Some (winningMoves, σ)
  | col :: cols' =>
      if negb (isColumnFull (grid_of σ board) col)
      then
        '(wins, σ1) ← isWinningMove fuel board col player σ;
        getWinningMoves_loop fuel board player cols'
          (if wins : bool then winningMoves ++ [col] else winningMoves) σ1
      else getWinningMoves_loop fuel board player cols' winningMoves σ
  end.

Definition getWinningMoves (fuel : nat) (board : ref) (player : Z)
    (σ : Store) : option (list Z * Store) :=
  getWinningMoves_loop fuel board player (seqZ 0 COLS) [] σ.

End GameLogic.

(** ** Scores: integers with the two infinities *)

Inductive num : Type :=
  | NegInf
  | Fin (z : Z)
  | PosInf.

(** [a <= b] *)
Definition num_leb (a b : num) : bool :=
  match a, b with
  | NegInf, _ => true
  | _, PosInf => true
  | Fin x, Fin y => x <=? y
  | _, _ => false
  end.

(** [a < b]; [b > a] is [num_ltb a b]. *)
Definition num_ltb (a b : num) : bool := negb (num_leb b a).

(** [Math.max(a, b)] and [Math.min(a, b)] *)
Definition num_max (a b : num) : num := if num_leb a b then b else a.
Definition num_min (a b : num) : num := if num_leb a b then a else b.

(** The order the comparisons decide. *)
Definition num_le (a b : num) : Prop := num_leb a b = true.
Definition num_lt (a b : num) : Prop := num_leb b a = false.

Module NumRel.
Definition t : Type := num.
Definition eq : num → num → Prop := @eq num.
Definition lt : num → num → Prop := num_lt.
Definition le : num → num → Prop := num_le.
End NumRel.

(** ** AI.js *)

Module AI.
Import Board.

Definition AI_PLAYER : Z := PLAYER_2.
Definition HUMAN_PLAYER : Z := PLAYER_1.

Inductive DIFFICULTY : Type := EASY | MEDIUM | HARD.

#[global] Instance DIFFICULTY_eq_dec : EqDecision DIFFICULTY.
Proof. solve_decision. Defined.

Definition DEPTH_CONFIG (difficulty : DIFFICULTY) : nat :=
  match difficulty with
  | EASY => 2
  | MEDIUM => 4
  | HARD => 6
  end.

Module SCORE.
Definition WIN : Z := 100000.
Definition THREE_IN_ROW : Z := 100.
Definition TWO_IN_ROW : Z := 10.
Definition CENTER_BONUS : Z := 3.
Definition BLOCK_THREE : Z := 80.
Definition BLOCK_TWO : Z := 8.
End SCORE.

(** The fields of an [AI] object. *)
Record AI : Type := mkAI {
  difficulty : DIFFICULTY;
  aiPlayer : Z;
  humanPlayer : Z
}.

(** [new AI(difficulty)] *)
Definition new (difficulty : DIFFICULTY) : AI :=
  mkAI difficulty AI_PLAYER HUMAN_PLAYER.

Definition setDifficulty (this : AI) (difficulty : DIFFICULTY) : AI :=
  mkAI difficulty (aiPlayer this) (humanPlayer this).

(** What one call of [getBestMove] draws from [Math.random]:
    whether the first draw is below 0.6, and the second draw [u] as a
    number [pick] with [Math.floor(u * n) = pick mod n]. *)
Record Random : Type := mkRandom {
  below_06 : bool;
  pick : nat
}.

(** *** Helpers that only read the board *)

Fixpoint getValidMoves_loop (grid : Grid) (cols : list Z) (moves : list Z)
  : list Z :=
  match cols with
  | [] => moves
  | col :: cols' =>
      getValidMoves_loop grid cols'
        (if negb (isColumnFull grid col) then moves ++ [col] else moves)
  end.

Definition getValidMoves (grid : Grid) : list Z :=
  getValidMoves_loop grid (seqZ 0 COLS) [].

Fixpoint isBoardFull_loop (grid : Grid) (cols : list Z) : bool :=
  match cols with
  | [] => true
  | col :: cols' =>
      if negb (isColumnFull grid col) then false
      else isBoardFull_loop grid cols'
  end.

Definition isBoardFull (grid : Grid) : bool :=
  isBoardFull_loop grid (seqZ 0 COLS).

(** The comparator handed to [sort]. *)
Definition center : Z := COLS `div` 2.
Definition compareMoves (a b : Z) : Z := Z.abs (center - a) - Z.abs (center - b).

(** [Array.prototype.sort] is a stable sort: elements the comparator
    does not separate keep their order.  [sort_insert] puts [a] in front
    of the first element it does not have to follow. *)
Fixpoint sort_insert (cmp : Z → Z → Z) (a : Z) (sorted : list Z) : list Z :=
  match sorted with
  | [] => [a]
  | b :: sorted' =>
      if cmp a b <=? 0 then a :: b :: sorted'
      else b :: sort_insert cmp a sorted'
  end.

Definition sort (cmp : Z → Z → Z) (arr : list Z) : list Z :=
  foldr (sort_insert cmp) [] arr.

Definition orderMoves (moves : list Z) : list Z := sort compareMoves moves.

(** The test repeated in the four scans of [checkWinner], on the window
    that starts at [(row, col)] and advances by [(dRow, dCol)]; it yields
    the [cell] the scan returns. *)
Definition window_winner (grid : Grid) (row col dRow dCol : Z) : option Z :=
  let cell := getCell grid row col in
  if bool_decide (cell ≠ Some EMPTY)
     && bool_decide (cell = getCell grid (row + dRow) (col + dCol))
     && bool_decide (cell = getCell grid (row + 2 * dRow) (col + 2 * dCol))
     && bool_decide (cell = getCell grid (row + 3 * dRow) (col + 3 * dCol))
  then cell else None.

(** A [for] loop that returns from the function at the first hit. *)
Fixpoint first_hit (body : Z → option Z) (range : list Z) : option Z :=
  match range with
  | [] => None
  | i :: range' =>
      match body i with
      | Some cell => Some cell
      | None => first_hit body range'
      end
  end.

Definition checkWinner (grid : Grid) : option Z :=
  match first_hit (λ row, first_hit (λ col, window_winner grid row col 0 1)
                                    (seqZ 0 (COLS - 3)))
                  (seqZ 0 ROWS) with
  | Some cell => Some cell
  | None =>
  match first_hit (λ col, first_hit (λ row, window_winner grid row col 1 0)
                                    (seqZ 0 (ROWS - 3)))
                  (seqZ 0 COLS) with
  | Some cell => Some cell
  | None =>
  match first_hit (λ row, first_hit (λ col, window_winner grid row col 1 1)
                                    (seqZ 0 (COLS - 3)))
                  (seqZ 0 (ROWS - 3)) with
  | Some cell => Some cell
  | None =>
    first_hit (λ row, first_hit (λ col, window_winner grid row col (-1) 1)
                                (seqZ 0 (COLS - 3)))
              (seqZ 3 (ROWS - 3))
  end end end.

(** *** Static evaluation *)

Definition count (value : option Z) (window : list (option Z)) : Z :=
  Z.of_nat (length (filter (λ cell, cell = value) window)).

Definition evaluateWindow (this : AI) (window : list (option Z)) : Z :=
  let aiCount := count (Some (aiPlayer this)) window in
  let humanCount := count (Some (humanPlayer this)) window in
  let emptyCount := count (Some EMPTY) window in
  let score :=
    if aiCount =? 4 then SCORE.WIN
    else if (aiCount =? 3) && (emptyCount =? 1) then SCORE.THREE_IN_ROW
    else if (aiCount =? 2) && (emptyCount =? 2) then SCORE.TWO_IN_ROW
    else 0 in
  if humanCount =? 4 then score - SCORE.WIN
  else if (humanCount =? 3) && (emptyCount =? 1) then score - SCORE.BLOCK_THREE
  else if (humanCount =? 2) && (emptyCount =? 2) then score - SCORE.BLOCK_TWO
  else score.

Definition window (grid : Grid) (row col dRow dCol : Z) : list (option Z) :=
  [ getCell grid row col;
    getCell grid (row + dRow) (col + dCol);
    getCell grid (row + 2 * dRow) (col + 2 * dCol);
    getCell grid (row + 3 * dRow) (col + 3 * dCol) ].

(** Two nested [for] loops adding to [score]. *)
Definition add_windows (this : AI) (outer inner : list Z)
    (win : Z → Z → list (option Z)) (score : Z) : Z :=
  foldl (λ score i,
           foldl (λ score j, score + evaluateWindow this (win i j)) score inner)
        score outer.

Definition evaluateAllWindows (this : AI) (grid : Grid) : Z :=
  let score := 0 in
  let score := add_windows this (seqZ 0 ROWS) (seqZ 0 (COLS - 3))
                 (λ row col, window grid row col 0 1) score in
  let score := add_windows this (seqZ 0 COLS) (seqZ 0 (ROWS - 3))
                 (λ col row, window grid row col 1 0) score in
  let score := add_windows this (seqZ 0 (ROWS - 3)) (seqZ 0 (COLS - 3))
                 (λ row col, window grid row col 1 1) score in
  let score := add_windows this (seqZ 3 (ROWS - 3)) (seqZ 0 (COLS - 3))
                 (λ row col, window grid row col (-1) 1) score in
  score.

Definition evaluateBoard (this : AI) (grid : Grid) : Z :=
  let centerCol := COLS `div` 2 in
  let score :=
    foldl (λ score row,
             if bool_decide (getCell grid row centerCol = Some (aiPlayer this))
             then score + SCORE.CENTER_BONUS
             else if bool_decide (getCell grid row centerCol
                                  = Some (humanPlayer this))
             then score - SCORE.CENTER_BONUS
             else score)
          0 (seqZ 0 ROWS) in
  score + evaluateAllWindows this grid.

(** *** Search *)

(** The loop of the maximizing branch of [minimax]; [child] is the
    recursive call [this.minimax(boardCopy, depth - 1, alpha, beta, false)]. *)
Fixpoint max_loop (this : AI) (child : ref → num → num → Store → num * Store)
    (board : ref) (beta : num) (moves : list Z) (maxScore alpha : num)
    (σ : Store) : num * Store :=
  match moves with
  | [] => (maxScore, σ)
  | col :: moves' =>
      let '(boardCopy, σ1) := clone board σ in
      let '(_, σ2) := dropToken boardCopy col (aiPlayer this) σ1 in
      let '(score, σ3) := child boardCopy alpha beta σ2 in
      let maxScore := num_max maxScore score in
      let alpha := num_max alpha score in
      if num_leb beta alpha then (maxScore, σ3)
      else max_loop this child board beta moves' maxScore alpha σ3
  end.

(** The loop of the minimizing branch. *)
Fixpoint min_loop (this : AI) (child : ref → num → num → Store → num * Store)
    (board : ref) (alpha : num) (moves : list Z) (minScore beta : num)
    (σ : Store) : num * Store :=
  match moves with
  | [] => (minScore, σ)
  | col :: moves' =>
      let '(boardCopy, σ1) := clone board σ in
      let '(_, σ2) := dropToken boardCopy col (humanPlayer this) σ1 in
      let '(score, σ3) := child boardCopy alpha beta σ2 in
      let minScore := num_min minScore score in
      let beta := num_min beta score in
      if num_leb beta alpha then (minScore, σ3)
      else min_loop this child board alpha moves' minScore beta σ3
  end.

(** [depth] is a count of plies: [getBestMove] starts from
    [DEPTH_CONFIG], and [depth - 1] is taken only after [depth === 0]
    failed. *)
Fixpoint minimax (this : AI) (depth : nat) (board : ref) (alpha beta : num)
    (isMaximizing : bool) (σ : Store) {struct depth} : num * Store :=
  let grid := grid_of σ board in
  let winner := checkWinner grid in
  if bool_decide (winner = Some (aiPlayer this))
  then (Fin (SCORE.WIN + Z.of_nat depth), σ)
  else if bool_decide (winner = Some (humanPlayer this))
  then (Fin (- SCORE.WIN - Z.of_nat depth), σ)
  else if isBoardFull grid then (Fin 0, σ)
  else
    match depth with
    | O => (Fin (evaluateBoard this grid), σ)
    | S depth' =>
        let validMoves := getValidMoves grid in
        let orderedMoves := orderMoves validMoves in
        if isMaximizing then
          max_loop this
            (λ boardCopy alpha beta σ,
               minimax this depth' boardCopy alpha beta false σ)
            board beta orderedMoves NegInf alpha σ
        else
          min_loop this
            (λ boardCopy alpha beta σ,
               minimax this depth' boardCopy alpha beta true σ)
            board alpha orderedMoves PosInf beta σ
    end.

(** The [for] loop of [getBestMove]; [score_of] is the call of the
    search on the copy. *)
Fixpoint best_loop (this : AI) (score_of : ref → Store → num * Store)
    (board : ref) (moves : list Z) (bestScore : num) (bestMove : Z)
    (σ : Store) : Z * Store :=
  match moves with
  | [] => (bestMove, σ)
  | col :: moves' =>
      let '(boardCopy, σ1) := clone board σ in
      let '(_, σ2) := dropToken boardCopy col (aiPlayer this) σ1 in
      let '(score, σ3) := score_of boardCopy σ2 in
      if num_ltb bestScore score
      then best_loop this score_of board moves' score col σ3
      else best_loop this score_of board moves' bestScore bestMove σ3
  end.

(** [DEPTH_CONFIG[this.difficulty] || 4] *)
Definition search_depth (this : AI) : nat :=
  let depth := DEPTH_CONFIG (difficulty this) in
  if (depth =? 0)%nat then 4%nat else depth.

(** [validMoves[i]] *)
Definition nth_move (validMoves : list Z) (i : nat) : Z := validMoves !!! i.

(** [getBestMove] from [const depth = ...] on, for a given [depth]. *)
Definition search (this : AI) (depth : nat) (board : ref)
    (validMoves : list Z) (σ : Store) : Z * Store :=
  let bestScore := NegInf in
  let bestMove := nth_move validMoves 0 in
  let orderedMoves := orderMoves validMoves in
  best_loop this
    (λ boardCopy σ,
       minimax this (depth - 1) boardCopy NegInf PosInf false σ)
    board orderedMoves bestScore bestMove σ.

Definition getBestMove (this : AI) (random : Random) (board : ref)
    (σ : Store) : Z * Store :=
  let validMoves := getValidMoves (grid_of σ board) in
  if (length validMoves =? 0)%nat then (-1, σ)
  else if (length validMoves =? 1)%nat then (nth_move validMoves 0, σ)
  else if bool_decide (difficulty this = EASY) && below_06 random
  then (nth_move validMoves (pick random `mod` length validMoves), σ)
  else search this (search_depth this) board validMoves σ.

(** *** The search without the cut-off

    [minimax] with the two [if (beta <= alpha) break] removed; [alpha]
    and [beta] are then never read and are left out. *)

Fixpoint max_loop_unpruned (this : AI) (child : ref → Store → num * Store)
    (board : ref) (moves : list Z) (maxScore : num) (σ : Store)
  : num * Store :=
  match moves with
  | [] => (maxScore, σ)
  | col :: moves' =>
      let '(boardCopy, σ1) := clone board σ in
      let '(_, σ2) := dropToken boardCopy col (aiPlayer this) σ1 in
      let '(score, σ3) := child boardCopy σ2 in
      max_loop_unpruned this child board moves' (num_max maxScore score) σ3
  end.

Fixpoint min_loop_unpruned (this : AI) (child : ref → Store → num * Store)
    (board : ref) (moves : list Z) (minScore : num) (σ : Store)
  : num * Store :=
  match moves with
  | [] => (minScore, σ)
  | col :: moves' =>
      let '(boardCopy, σ1) := clone board σ in
      let '(_, σ2) := dropToken boardCopy col (humanPlayer this) σ1 in
      let '(score, σ3) := child boardCopy σ2 in
      min_loop_unpruned this child board moves' (num_min minScore score) σ3
  end.

Fixpoint minimax_unpruned (this : AI) (depth : nat) (board : ref)
    (isMaximizing : bool) (σ : Store) {struct depth} : num * Store :=
  let grid := grid_of σ board in
  let winner := checkWinner grid in
  if bool_decide (winner = Some (aiPlayer this))
  then (Fin (SCORE.WIN + Z.of_nat depth), σ)
  else if bool_decide (winner = Some (humanPlayer this))
  then (Fin (- SCORE.WIN - Z.of_nat depth), σ)
  else if isBoardFull grid then (Fin 0, σ)
  else
    match depth with
    | O => (Fin (evaluateBoard this grid), σ)
    | S depth' =>
        let orderedMoves := orderMoves (getValidMoves grid) in
        if isMaximizing then
          max_loop_unpruned this
            (λ boardCopy σ, minimax_unpruned this depth' boardCopy false σ)
            board orderedMoves NegInf σ
        else
          min_loop_unpruned this
            (λ boardCopy σ, minimax_unpruned this depth' boardCopy true σ)
            board orderedMoves PosInf σ
    end.

Definition search_unpruned (this : AI) (depth : nat) (board : ref)
    (validMoves : list Z) (σ : Store) : Z * Store :=
  best_loop this
    (λ boardCopy σ, minimax_unpruned this (depth - 1) boardCopy false σ)
    board (orderMoves validMoves) NegInf (nth_move validMoves 0) σ.

Definition getBestMove_unpruned (this : AI) (random : Random) (board : ref)
    (σ : Store) : Z * Store :=
  let validMoves := getValidMoves (grid_of σ board) in
  if (length validMoves =? 0)%nat then (-1, σ)
  else if (length validMoves =? 1)%nat then (nth_move validMoves 0, σ)
  else if bool_decide (difficulty this = EASY) && below_06 random
  then (nth_move validMoves (pick random `mod` length validMoves), σ)
  else search_unpruned this (search_depth this) board validMoves σ.

End AI.

(** ** Game.js: the game controller *)

Module Game.
Import Board GameLogic.

Inductive GAME_STATE : Type := WAITING | PLAYING | WIN | DRAW | ANIMATING.
Inductive GAME_MODE : Type := PVP | CPU.

#[global] Instance GAME_STATE_eq_dec : EqDecision GAME_STATE.
Proof. solve_decision. Defined.

#[global] Instance GAME_MODE_eq_dec : EqDecision GAME_MODE.
Proof. solve_decision. Defined.

(** The object [{row, col, player}] recorded for a move. *)
Record Move : Type := mkMove {
  row : Z;
  col : Z;
  player : Z
}.

(** The fields of a [Game] object.  [winner] and [winningPositions] are
    [None] for [null].  The two listener fields say whether a listener is
    attached: the listeners the application attaches draw and schedule,
    and do not write the game or its board before the method returns, so
    a method returns the calls it makes beside its result. *)
Record Game : Type := mkGame {
  board : ref;
  currentPlayer : Z;
  gameState : GAME_STATE;
  gameMode : GAME_MODE;
  winner : option Z;
  winningPositions : option (list Position);
  moveHistory : list Move;
  onStateChange : bool;
  onTokenPlaced : bool
}.

Definition getPlayerName (this : Game) (p : Z) : string :=
  if p =? PLAYER_1 then "Player 1 (Red)"
  else if p =? PLAYER_2
  then (if bool_decide (gameMode this = CPU) then "CPU (Yellow)"
        else "Player 2 (Yellow)")
  else "Unknown".

(** The object built by [getStateInfo]. *)
Record StateInfo : Type := mkStateInfo {
  state : GAME_STATE;
  info_currentPlayer : Z;
  currentPlayerName : string;
  info_winner : option Z;
  winnerName : option string;
  info_winningPositions : option (list Position);
  moveCount : nat;
  info_gameMode : GAME_MODE
}.

(** A call of a listener. *)
Inductive Call : Type :=
  | TokenPlaced (move : Move)
  | StateChange (info : StateInfo).

Definition getStateInfo (this : Game) : StateInfo :=
  mkStateInfo (gameState this) (currentPlayer this)
    (getPlayerName this (currentPlayer this))
    (winner this)
    (match winner this with
     | Some w => if w =? 0 then None else Some (getPlayerName this w)
     | None => None
     end)
    (winningPositions this)
    (length (moveHistory this))
    (gameMode this).

Definition notifyStateChange (this : Game) : list Call :=
  if onStateChange this then [StateChange (getStateInfo this)] else [].

(** [new Game()] *)
Definition new (σ : Store) : Game * Store :=
  let '(b, σ1) := Board.new σ in
  (mkGame b PLAYER_1 WAITING PVP None None [] false false, σ1).

Definition startGame (this : Game) (mode : GAME_MODE) (σ : Store)
  : Game * Store * list Call :=
  let σ1 := resetBoard (board this) σ in
  let this1 :=
    mkGame (board this) PLAYER_1 PLAYING mode None None []
      (onStateChange this) (onTokenPlaced this) in
  (this1, σ1, notifyStateChange this1).

Definition reset (this : Game) (σ : Store) : Game * Store * list Call :=
  let σ1 := resetBoard (board this) σ in
  let this1 :=
    mkGame (board this) PLAYER_1 WAITING (gameMode this) None None []
      (onStateChange this) (onTokenPlaced this) in
  (this1, σ1, notifyStateChange this1).

Definition switchPlayer (this : Game) : Game :=
  mkGame (board this)
    (if currentPlayer this =? PLAYER_1 then PLAYER_2 else PLAYER_1)
    (gameState this) (gameMode this) (winner this) (winningPositions this)
    (moveHistory this) (onStateChange this) (onTokenPlaced this).

(** [makeMove]; the outer [None] is lack of fuel in [checkWin], the
    inner [None] the [null] of a refused move. *)
Definition makeMove (fuel : nat) (this : Game) (c : Z) (σ : Store)
  : option (option Move * Game * Store * list Call) :=
  if bool_decide (gameState this ≠ PLAYING) then Some (None, this, σ, [])
  else if isColumnFull (grid_of σ (board this)) c
  then Some (None, this, σ, [])
  else
    let '(r, σ1) := dropToken (board this) c (currentPlayer this) σ in
    if r =? -1 then Some (None, this, σ1, [])
    else
      let move := mkMove r c (currentPlayer this) in
      let this1 :=
        mkGame (board this) (currentPlayer this) (gameState this)
          (gameMode this) (winner this) (winningPositions this)
          (moveHistory this ++ [move])
          (onStateChange this) (onTokenPlaced this) in
      let placed := if onTokenPlaced this then [TokenPlaced move] else [] in
      winResult ← checkWin fuel (grid_of σ1 (board this)) r c
                    (currentPlayer this);
      match winResult with
      | Some win =>
          let this2 :=
            mkGame (board this1) (currentPlayer this1) WIN (gameMode this1)
              (Some (currentPlayer this1)) (Some (positions win))
              (moveHistory this1) (onStateChange this1) (onTokenPlaced this1)
          in
          Some (Some move, this2, σ1, placed ++ notifyStateChange this2)
      | None =>
          if isFull (grid_of σ1 (board this))
          then
            let this2 :=
              mkGame (board this1) (currentPlayer this1) DRAW
                (gameMode this1) (winner this1) (winningPositions this1)
                (moveHistory this1) (onStateChange this1)
                (onTokenPlaced this1) in
            Some (Some move, this2, σ1, placed ++ notifyStateChange this2)
          else
            let this2 := switchPlayer this1 in
            Some (Some move, this2, σ1, placed ++ notifyStateChange this2)
      end.

Definition getCurrentPlayer (this : Game) : Z := currentPlayer this.

Definition isCPUTurn (this : Game) : bool :=
  bool_decide (gameMode this = CPU)
  && (currentPlayer this =? PLAYER_2)
  && bool_decide (gameState this = PLAYING).

Definition getValidMoves (this : Game) (σ : Store) : list Z :=
  Board.getValidMoves (grid_of σ (board this)).

Definition isValidMove (this : Game) (c : Z) (σ : Store) : bool :=
  bool_decide (gameState this = PLAYING)
  && negb (isColumnFull (grid_of σ (board this)) c).

Definition setAnimating (this : Game) (animating : bool) : Game :=
  let set st :=
    mkGame (board this) (currentPlayer this) st (gameMode this)
      (winner this) (winningPositions this) (moveHistory this)
      (onStateChange this) (onTokenPlaced this) in
  if animating && bool_decide (gameState this = PLAYING) then set ANIMATING
  else if negb animating && bool_decide (gameState this = ANIMATING)
  then set PLAYING
  else this.

End Game.

(** * Specification predicates *)

Module Spec.
Import Board GameLogic.

(** A cell that holds a token. *)
Definition occupied (grid : Grid) (row col : Z) : Prop :=
  ∃ value, getCell grid row col = Some value ∧ value ≠ EMPTY.

(** Gravity: under a token every cell of the column holds a token. *)
Definition gravity (grid : Grid) : Prop :=
  ∀ row col, occupied grid row col →
    ∀ r, 0 ≤ r < row → occupied grid r col.

(** The board object [this] exists and has the shape [reset] gives. *)
Definition valid_board (σ : Store) (this : ref) : Prop :=
  ∃ grid, σ !! this = Some grid ∧ wf_grid grid.

(** The copy loops of [clone], as they act on the new board's grid. *)
Definition copy_into (source target : Grid) : Grid :=
  foldl (λ gr row,
           foldl (λ gc col,
                    match read source row col with
                    | Some value => write gc row col value
                    | None => gc
                    end) gr (seqZ 0 COLS))
        target (seqZ 0 ROWS).

(** [run grid row col dRow dCol player n]: the [n] cells that follow
    [(row, col)] in direction [(dRow, dCol)] are on the board and hold
    [player], and the cell after them is off the board or holds something
    else. *)
Definition run (grid : Grid) (row col dRow dCol player : Z) (n : nat) : Prop :=
  (∀ k, 1 ≤ k ≤ Z.of_nat n →
     getCell grid (row + k * dRow) (col + k * dCol) = Some player)
  ∧ getCell grid (row + (Z.of_nat n + 1) * dRow) (col + (Z.of_nat n + 1) * dCol)
    ≠ Some player.

(** The coordinates from [before] steps behind [(row, col)] onwards,
    [len] of them, in the order of the direction. *)
Definition line (row col dRow dCol : Z) (before len : nat) : list Position :=
  (λ k, (row + k * dRow, col + k * dCol))
    <$> seqZ (- Z.of_nat before) (Z.of_nat len).

(** What an axis collects around [(row, col)]: [before] cells against the
    direction, the origin, [after] cells along it. *)
Definition axis (grid : Grid) (row col player : Z) (d : Z * Z)
    (before after : nat) : Prop :=
  run grid row col (- d.1) (- d.2) player before
  ∧ run grid row col d.1 d.2 player after.

(** An axis that collects fewer than four coordinates. *)
Definition short_axis (grid : Grid) (row col player : Z) (d : Z * Z) : Prop :=
  ∃ before after : nat,
    axis grid row col player d before after ∧ (before + 1 + after < 4)%nat.

(** What [checkWin] answers when it tries the directions [dirs] in
    order: [null] when every axis is short; otherwise the first axis that
    collects four or more, with its first four coordinates counted from
    the far end behind the origin. *)
Definition checkWin_result (grid : Grid) (row col player : Z)
    (dirs : list (Z * Z)) (result : option WinInfo) : Prop :=
  match result with
  | None => Forall (short_axis grid row col player) dirs
  | Some win =>
      GameLogic.player win = player
      ∧ ∃ skipped d rest (before after : nat),
          dirs = skipped ++ d :: rest
          ∧ Forall (short_axis grid row col player) skipped
          ∧ axis grid row col player d before after
          ∧ (4 ≤ before + 1 + after)%nat
          ∧ positions win = line row col d.1 d.2 before 4
  end.

(** A bottom row with tokens of [PLAYER_1] in columns 0, 1 and 2. *)
Definition three_in_row : Grid :=
  write (write (write reset 0 0 PLAYER_1) 0 1 PLAYER_1) 0 2 PLAYER_1.

End Spec.

(** ** The search as a function of the grid

    The store-passing search of [AI] only ever reads the grids it is
    given or has just allocated; [SearchValue] states what it computes
    from a grid alone.  The lemmas of [AIFacts] tie the two together. *)

Module SearchValue.
Import Board AI.

(** The grid of [boardCopy] after [clone] and [dropToken]. *)
Definition child_grid (grid : Grid) (player col : Z) : Grid :=
  if isColumnFull grid col then grid
  else write grid (findLowestRow grid col) col player.

(** The grids one ply down, in the order the loops visit them. *)
Definition children (grid : Grid) (player : Z) : list Grid :=
  child_grid grid player <$> orderMoves (getValidMoves grid).

(** The score of the three checks that do not look at [depth]. *)
Definition decided (this : AI) (depth : nat) (grid : Grid) : option num :=
  let winner := checkWinner grid in
  if bool_decide (winner = Some (aiPlayer this))
  then Some (Fin (SCORE.WIN + Z.of_nat depth))
  else if bool_decide (winner = Some (humanPlayer this))
  then Some (Fin (- SCORE.WIN - Z.of_nat depth))
  else if isBoardFull grid then Some (Fin 0)
  else None.

Fixpoint max_cut (child : Grid → num → num → num) (beta : num)
    (grids : list Grid) (maxScore alpha : num) : num :=
  match grids with
  | [] => maxScore
  | grid :: grids' =>
      let score := child grid alpha beta in
      let maxScore := num_max maxScore score in
      let alpha := num_max alpha score in
      if num_leb beta alpha then maxScore
      else max_cut child beta grids' maxScore alpha
  end.

Fixpoint min_cut (child : Grid → num → num → num) (alpha : num)
    (grids : list Grid) (minScore beta : num) : num :=
  match grids with
  | [] => minScore
  | grid :: grids' =>
      let score := child grid alpha beta in
      let minScore := num_min minScore score in
      let beta := num_min beta score in
      if num_leb beta alpha then minScore
      else min_cut child alpha grids' minScore beta
  end.

(** The value [minimax] returns. *)
Fixpoint alphabeta (this : AI) (depth : nat) (grid : Grid) (alpha beta : num)
    (isMaximizing : bool) : num :=
  match decided this depth grid with
  | Some score => score
  | None =>
      match depth with
      | O => Fin (evaluateBoard this grid)
      | S depth' =>
          if isMaximizing then
            max_cut (λ g a b, alphabeta this depth' g a b false) beta
              (children grid (aiPlayer this)) NegInf alpha
          else
            min_cut (λ g a b, alphabeta this depth' g a b true) alpha
              (children grid (humanPlayer this)) PosInf beta
      end
  end.

(** The value [minimax_unpruned] returns: the plain maximum and minimum
    over all children. *)
Fixpoint plain (this : AI) (depth : nat) (grid : Grid) (isMaximizing : bool)
  : num :=
  match decided this depth grid with
  | Some score => score
  | None =>
      match depth with
      | O => Fin (evaluateBoard this grid)
      | S depth' =>
          if isMaximizing then
            foldl (λ best g, num_max best (plain this depth' g false)) NegInf
              (children grid (aiPlayer this))
          else
            foldl (λ best g, num_min best (plain this depth' g true)) PosInf
              (children grid (humanPlayer this))
      end
  end.

(** The loop of [getBestMove] over the scores of the moves. *)
Fixpoint best_of (score : Z → num) (moves : list Z) (bestScore : num)
    (bestMove : Z) : Z :=
  match moves with
  | [] => bestMove
  | col :: moves' =>
      if num_ltb bestScore (score col)
      then best_of score moves' (score col) col
      else best_of score moves' bestScore bestMove
  end.

(** The score [getBestMove] gives to [col] when it searches [depth]
    plies from [grid]. *)
Definition root_score (this : AI) (depth : nat) (grid : Grid) (col : Z) : num :=
  alphabeta this (depth - 1) (child_grid grid (aiPlayer this) col)
    NegInf PosInf false.

(** The same score, as one round of the loop of [getBestMove] computes
    it from the store. *)
Definition move_score (this : AI) (depth : nat) (board : ref) (σ : Store)
    (col : Z) : num :=
  let '(boardCopy, σ1) := clone board σ in
  let '(_, σ2) := dropToken boardCopy col (aiPlayer this) σ1 in
  (minimax this (depth - 1) boardCopy NegInf PosInf false σ2).1.

(** [run σ] returns [value] and only adds boards to the store. *)
Definition computes {A : Type} (run : Store → A * Store) (σ : Store)
    (value : A) : Prop :=
  ∃ fresh : Store, run σ = (value, σ ++ fresh).

(** [r] is what a search with window [(alpha, beta)] may return when the
    exact value is [v]: exact inside the window, a bound on the side
    where it falls outside. *)
Definition bracket (alpha beta r v : num) : Prop :=
  (num_le r alpha → num_le v r)
  ∧ (num_le beta r → num_le r v)
  ∧ (num_lt alpha r → num_lt r beta → r = v).

(** The directions of the four scans of [checkWinner]. *)
Definition SCANS : list (Z * Z) := [(0, 1); (1, 0); (1, 1); (-1, 1)].

(** Four cells in a row from [(row, col)] along [d] that hold [value]. *)
Definition four_in_line (grid : Grid) (row col : Z) (d : Z * Z) (value : Z)
  : Prop :=
  ∀ k, 0 ≤ k ≤ 3 → getCell grid (row + k * d.1) (col + k * d.2) = Some value.

(** [a] comes before [b] in center-out order: it is nearer to the center
    column, or as near and to the left. *)
Definition center_out (a b : Z) : Prop :=
  Z.abs (center - a) < Z.abs (center - b)
  ∨ (Z.abs (center - a) = Z.abs (center - b) ∧ a < b).

(** A winning row for [player], a full board without a winner, and the
    same board with the top of columns 3 and 5 free. *)
Definition four_in_row (player : Z) : Grid :=
  write (write (write (write reset 0 0 player) 0 1 player) 0 2 player)
    0 3 player.

Definition drawn : Grid :=
  [ [1; 1; 2; 2; 1; 1; 2];
    [2; 2; 1; 1; 2; 2; 1];
    [1; 1; 2; 2; 1; 1; 2];
    [2; 2; 1; 1; 2; 2; 1];
    [1; 1; 2; 2; 1; 1; 2];
    [2; 2; 1; 1; 2; 2; 1] ].

Definition two_left : Grid := write (write drawn 5 3 EMPTY) 5 5 EMPTY.

(** A score that is a number. *)
Definition is_fin (x : num) : Prop := ∃ z, x = Fin z.

(** The board after the tokens [(col, player)] were dropped in turn on
    the empty board. *)
Definition played (drops : list (Z * Z)) : Grid :=
  grid_of (foldl (λ σ d, (dropToken 0%nat d.1 d.2 σ).2) [reset] drops) 0%nat.

End SearchValue.

(** ** Lines of four *)

Module LineSpec.
Import Board GameLogic SearchValue.

(** Some four cells in a row along [d] that hold [value] cover
    [(row, col)]. *)
Definition line_through (grid : Grid) (row col : Z) (d : Z * Z) (value : Z)
  : Prop :=
  ∃ s, 0 ≤ s ≤ 3
    ∧ four_in_line grid (row - s * d.1) (col - s * d.2) d value.

(** A line of four of [value] passes through [(row, col)]. *)
Definition wins_at (grid : Grid) (row col value : Z) : Prop :=
  ∃ d, d ∈ DIRECTIONS ∧ line_through grid row col d value.

(** Nowhere on the board do four cells in a row hold the same token. *)
Definition no_winner (grid : Grid) : Prop :=
  ∀ row col d value,
    d ∈ SCANS → value ≠ EMPTY → ¬ four_in_line grid row col d value.

(** The four coordinates from [(row, col)] along [d]. *)
Definition four_from (row col : Z) (d : Z * Z) : list Position :=
  (λ k, (row + k * d.1, col + k * d.2)) <$> seqZ 0 4.

(** A step to a neighbouring cell. *)
Definition unit_step (dRow dCol : Z) : Prop :=
  -1 ≤ dRow ≤ 1 ∧ -1 ≤ dCol ≤ 1 ∧ (dRow, dCol) ≠ (0, 0).

End LineSpec.

(** ** Boards of a game *)

Module SearchSpec.
Import Board AI SearchValue.

(** The two sides are tokens, and different ones. *)
Definition sides_ok (this : AI) : Prop :=
  aiPlayer this ≠ EMPTY ∧ humanPlayer this ≠ EMPTY
  ∧ aiPlayer this ≠ humanPlayer this.

(** Every cell is empty or holds a token of one of the two sides. *)
Definition tokens_ok (this : AI) (grid : Grid) : Prop :=
  ∀ row col value, getCell grid row col = Some value →
    value = EMPTY ∨ value = aiPlayer this ∨ value = humanPlayer this.

(** A score that is a number between [lo] and [hi]. *)
Definition in_range (lo hi : Z) (x : num) : Prop :=
  ∃ z, x = Fin z ∧ lo ≤ z ≤ hi.

(** The largest static evaluation of a board without four in a row:
    the center column and 69 windows. *)
Definition EVAL_BOUND : Z := 6 * SCORE.CENTER_BONUS + 69 * SCORE.THREE_IN_ROW.

End SearchSpec.

(** ** Games *)

Module GameSpec.
Import Board GameLogic Game Spec SearchValue LineSpec.

(** The assignments to [onStateChange] and [onTokenPlaced]: a listener
    or [null] for each. *)
Definition listen (this : Game) (stateChange tokenPlaced : bool) : Game :=
  mkGame (board this) (currentPlayer this) (gameState this) (gameMode this)
    (winner this) (winningPositions this) (moveHistory this)
    stateChange tokenPlaced.

(** What the application does with a game: a call of a public method, or
    an assignment to the listener fields. *)
Inductive Action : Type :=
  | StartGame (mode : GAME_MODE)
  | Reset
  | MakeMove (c : Z)
  | SetAnimating (animating : bool)
  | Listen (stateChange tokenPlaced : bool).

(** The game and the store after [action]; [None] is lack of fuel. *)
Definition act (fuel : nat) (action : Action) (this : Game) (σ : Store)
  : option (Game * Store) :=
  match action with
  | StartGame mode => Some (startGame this mode σ).1
  | Reset => Some (Game.reset this σ).1
  | MakeMove c => out ← makeMove fuel this c σ; Some (out.1.1.2, out.1.2)
  | SetAnimating animating => Some (setAnimating this animating, σ)
  | Listen stateChange tokenPlaced =>
      Some (listen this stateChange tokenPlaced, σ)
  end.

Fixpoint acts (fuel : nat) (actions : list Action) (this : Game) (σ : Store)
  : option (Game * Store) :=
  match actions with
  | [] => Some (this, σ)
  | action :: rest => st ← act fuel action this σ; acts fuel rest st.1 st.2
  end.

(** The number of tokens on a board. *)
Definition tokens (grid : Grid) : nat :=
  length (filter (λ value, value ≠ EMPTY) (concat grid)).

(** The side that makes the move after [n] moves. *)
Definition mover (n : nat) : Z := if Nat.even n then PLAYER_1 else PLAYER_2.

(** The columns and sides of the recorded moves, oldest first. *)
Definition drops (this : Game) : list (Z * Z) :=
  (λ move, (Game.col move, Game.player move)) <$> moveHistory this.

(** A 6x7 grid of tokens of the two sides, none of them floating. *)
Definition board_ok (grid : Grid) : Prop :=
  wf_grid grid ∧ gravity grid
  ∧ ∀ row col value, getCell grid row col = Some value →
      value = EMPTY ∨ value = PLAYER_1 ∨ value = PLAYER_2.

(** The board is what the recorded moves build from the empty board:
    one token for each, where the move says, of the side that says, the
    sides taking turns from [PLAYER_1]. *)
Definition history_ok (this : Game) (grid : Grid) : Prop :=
  grid = played (drops this)
  ∧ tokens grid = length (moveHistory this)
  ∧ ∀ (i : nat) move, moveHistory this !! i = Some move →
      Game.player move = mover i
      ∧ getCell grid (Game.row move) (Game.col move)
        = Some (Game.player move).

(** What the state of the game says about the board. *)
Definition state_ok (this : Game) (grid : Grid) : Prop :=
  match gameState this with
  | WAITING =>
      grid = Board.reset ∧ moveHistory this = []
      ∧ currentPlayer this = PLAYER_1
      ∧ winner this = None ∧ winningPositions this = None
  | PLAYING | ANIMATING =>
      no_winner grid ∧ isFull grid = false
      ∧ currentPlayer this = mover (length (moveHistory this))
      ∧ winner this = None ∧ winningPositions this = None
  | WIN =>
      winner this = Some (currentPlayer this)
      ∧ (∃ move, last (moveHistory this) = Some move
           ∧ Game.player move = currentPlayer this)
      ∧ ∃ d r0 c0, d ∈ DIRECTIONS
          ∧ winningPositions this = Some (four_from r0 c0 d)
          ∧ four_in_line grid r0 c0 d (currentPlayer this)
  | DRAW =>
      no_winner grid ∧ isFull grid = true
      ∧ (∃ move, last (moveHistory this) = Some move
           ∧ Game.player move = currentPlayer this)
      ∧ winner this = None ∧ winningPositions this = None
  end.

(** The game [this] with its board in the store [σ]. *)
Definition game_inv (this : Game) (σ : Store) : Prop :=
  ∃ grid, σ !! board this = Some grid
    ∧ board_ok grid ∧ history_ok this grid ∧ state_ok this grid.

End GameSpec.

(** * Properties *)

(** ** Board *)

Module BoardFacts.
Import Board Spec.

Lemma index_Some {A : Type} (arr : list A) (i : Z) (x : A) :
  index arr i = Some x ↔ 0 ≤ i ∧ arr !! Z.to_nat i = Some x.
Proof.
  unfold index. destruct (Z.leb_spec 0 i); split; intros H'.
  - by split.
  - by destruct H'.
  - discriminate.
  - lia.
Qed.

Lemma wf_grid_reset : wf_grid reset.
Proof. split; [reflexivity | repeat constructor]. Qed.

Lemma wf_grid_write (grid : Grid) (row col value : Z) :
  wf_grid grid → wf_grid (write grid row col value).
Proof.
  intros [Hlen Hrows]. split.
  - unfold write. by rewrite length_alter.
  - unfold write. apply Forall_alter; [done|].
    intros row_arr Hrow Hlen'. by rewrite length_insert.
Qed.

Lemma read_wf (grid : Grid) (row col : Z) :
  wf_grid grid → 0 ≤ row < ROWS → 0 ≤ col < COLS →
  ∃ value, read grid row col = Some value.
Proof.
  intros [Hlen Hrows] Hr Hc. unfold read, index.
  destruct (Z.leb_spec 0 row); [|lia]. destruct (Z.leb_spec 0 col); [|lia].
  destruct (lookup_lt_is_Some_2 grid (Z.to_nat row)) as [row_arr Hrow].
  { rewrite Hlen. unfold ROWS in *. lia. }
  rewrite Hrow. simpl.
  apply (lookup_lt_is_Some_2 row_arr (Z.to_nat col)).
  rewrite Forall_lookup in Hrows. rewrite (Hrows _ _ Hrow).
  unfold COLS in *. lia.
Qed.

Lemma read_write_eq (grid : Grid) (row col value : Z) :
  wf_grid grid → 0 ≤ row < ROWS → 0 ≤ col < COLS →
  read (write grid row col value) row col = Some value.
Proof.
  intros [Hlen Hrows] Hr Hc. unfold read, index, write.
  destruct (Z.leb_spec 0 row); [|lia]. destruct (Z.leb_spec 0 col); [|lia].
  destruct (lookup_lt_is_Some_2 grid (Z.to_nat row)) as [row_arr Hrow].
  { rewrite Hlen. unfold ROWS in *. lia. }
  rewrite list_lookup_alter_eq, Hrow. simpl.
  apply list_lookup_insert_eq.
  rewrite Forall_lookup in Hrows. rewrite (Hrows _ _ Hrow).
  unfold COLS in *. lia.
Qed.

Lemma read_write_ne (grid : Grid) (row col value r c : Z) :
  0 ≤ row → 0 ≤ col → (r, c) ≠ (row, col) →
  read (write grid row col value) r c = read grid r c.
Proof.
  intros Hr Hc Hne. unfold read, index, write.
  destruct (Z.leb_spec 0 r); [|done].
  destruct (decide (r = row)) as [->|Hrne].
  - rewrite list_lookup_alter_eq. destruct (grid !! Z.to_nat row); [simpl|done].
    destruct (Z.leb_spec 0 c); [|done].
    apply list_lookup_insert_ne. intros Heq. apply Hne.
    f_equal. lia.
  - rewrite list_lookup_alter_ne; [done|]. lia.
Qed.

Lemma getCell_read (grid : Grid) (row col : Z) :
  0 ≤ row < ROWS → 0 ≤ col < COLS → getCell grid row col = read grid row col.
Proof.
  intros Hr Hc. unfold getCell.
  destruct (Z.ltb_spec row 0); [lia|].
  destruct (Z.geb_spec row ROWS); [lia|].
  destruct (Z.ltb_spec col 0); [lia|].
  destruct (Z.geb_spec col COLS); [lia|]. done.
Qed.

Lemma getCell_Some_bounds (grid : Grid) (row col value : Z) :
  getCell grid row col = Some value → 0 ≤ row < ROWS ∧ 0 ≤ col < COLS.
Proof.
  unfold getCell.
  destruct (Z.ltb_spec row 0); [done|].
  destruct (Z.geb_spec row ROWS); [done|].
  destruct (Z.ltb_spec col 0); [done|].
  destruct (Z.geb_spec col COLS); [done|]. lia.
Qed.

Lemma getCell_write_ne (grid : Grid) (row col value r c : Z) :
  0 ≤ row → 0 ≤ col → (r, c) ≠ (row, col) →
  getCell (write grid row col value) r c = getCell grid r c.
Proof.
  intros Hr Hc Hne. unfold getCell.
  destruct (_ || _); [done|]. by apply read_write_ne.
Qed.

Lemma getCell_write_eq (grid : Grid) (row col value : Z) :
  wf_grid grid → 0 ≤ row < ROWS → 0 ≤ col < COLS →
  getCell (write grid row col value) row col = Some value.
Proof.
  intros Hwf Hr Hc. rewrite getCell_read by done. by apply read_write_eq.
Qed.

Lemma findLowestRow_loop_spec (grid : Grid) (col : Z) (rows : list Z) :
  let r := findLowestRow_loop grid col rows in
  (r = -1 ∧ Forall (λ row, read grid row col ≠ Some EMPTY) rows) ∨
  (∃ pre post, rows = pre ++ r :: post
     ∧ Forall (λ row, read grid row col ≠ Some EMPTY) pre
     ∧ read grid r col = Some EMPTY).
Proof.
  induction rows as [|row rows IH]; simpl.
  - left. by split.
  - case_bool_decide as Hcell.
    + right. exists [], rows. by repeat split.
    + destruct IH as [[Hr Hall]|(pre & post & Hrows & Hpre & Hcell')].
      * left. split; [done|]. by constructor.
      * right. exists (row :: pre), post. split; [by rewrite Hrows at 1|].
        split; [by constructor|done].
Qed.

Lemma seqZ_split_prefix (n : Z) (pre post : list Z) (r : Z) :
  seqZ 0 n = pre ++ r :: post →
  0 ≤ r < n ∧ ∀ row, 0 ≤ row < r → row ∈ pre.
Proof.
  intros Hsplit.
  assert (Hr : seqZ 0 n !! length pre = Some r).
  { rewrite Hsplit. by rewrite list_lookup_middle. }
  apply lookup_seqZ in Hr as [Hr Hlen]. split; [lia|].
  intros row Hrow.
  assert (Hlook : seqZ 0 n !! Z.to_nat row = Some row).
  { apply lookup_seqZ. lia. }
  rewrite Hsplit, lookup_app_l in Hlook by lia.
  by apply list_elem_of_lookup_2 in Hlook.
Qed.

(** [findLowestRow] returns the lowest row of [col] that reads [EMPTY],
    or [-1] when the column is out of range or has no such row. *)
Lemma findLowestRow_spec (grid : Grid) (col : Z) :
  let r := findLowestRow grid col in
  (r = -1 ∧
   (0 ≤ col < COLS → ∀ row, 0 ≤ row < ROWS → read grid row col ≠ Some EMPTY))
  ∨ (0 ≤ col < COLS ∧ 0 ≤ r < ROWS ∧ read grid r col = Some EMPTY
     ∧ ∀ row, 0 ≤ row < r → read grid row col ≠ Some EMPTY).
Proof.
  unfold findLowestRow.
  destruct (Z.ltb_spec col 0); [left; split; [done|lia]|].
  destruct (Z.geb_spec col COLS); [left; split; [done|lia]|]. cbn [orb].
  destruct (findLowestRow_loop_spec grid col (seqZ 0 ROWS))
    as [[Hr Hall]|(pre & post & Hrows & Hpre & Hcell)].
  - left. split; [done|]. intros _ row Hrow.
    rewrite Forall_forall in Hall. apply Hall. apply elem_of_seqZ. lia.
  - right. apply seqZ_split_prefix in Hrows as [Hr Hin].
    split; [lia|]. split; [lia|]. split; [done|].
    intros row Hrow. rewrite Forall_forall in Hpre. by apply Hpre, Hin.
Qed.

Lemma isColumnFull_false (grid : Grid) (col : Z) :
  isColumnFull grid col = false →
  0 ≤ col < COLS ∧ 0 ≤ findLowestRow grid col < ROWS
  ∧ read grid (findLowestRow grid col) col = Some EMPTY
  ∧ ∀ row, 0 ≤ row < findLowestRow grid col → read grid row col ≠ Some EMPTY.
Proof.
  unfold isColumnFull. intros Hfull. apply Z.eqb_neq in Hfull.
  by destruct (findLowestRow_spec grid col) as [[Hr _]|Hspec].
Qed.

Lemma grid_of_lookup (σ : Store) (this : ref) (grid : Grid) :
  σ !! this = Some grid → grid_of σ this = grid.
Proof. unfold grid_of. by intros ->. Qed.

Lemma grid_of_insert_eq (σ : Store) (this : ref) (grid : Grid) :
  (this < length σ)%nat → grid_of (<[this := grid]> σ) this = grid.
Proof. intros Hlt. unfold grid_of. by rewrite list_lookup_insert_eq. Qed.

Lemma grid_of_insert_ne (σ : Store) (this other : ref) (grid : Grid) :
  this ≠ other → grid_of (<[this := grid]> σ) other = grid_of σ other.
Proof. intros Hne. unfold grid_of. by rewrite list_lookup_insert_ne. Qed.

(** What [dropToken] does to the store, in one equation. *)
Lemma dropToken_unfold (σ : Store) (this : ref) (col player : Z) :
  dropToken this col player σ =
  if isColumnFull (grid_of σ this) col then (-1, σ)
  else (findLowestRow (grid_of σ this) col,
        <[this := write (grid_of σ this)
                    (findLowestRow (grid_of σ this) col) col player]> σ).
Proof. reflexivity. Qed.

(** *** [clone] *)

Lemma clone_cols (σ : Store) (this : ref) (source : Grid) (row : Z)
    (cols : list Z) (target : Grid) :
  σ !! this = Some source →
  foldl (λ σc col, clone_cell this (length σ) row col σc) (σ ++ [target]) cols
  = σ ++ [foldl (λ gc col,
                   match read source row col with
                   | Some value => write gc row col value
                   | None => gc
                   end) target cols].
Proof.
  intros Hthis. revert target.
  induction cols as [|col cols IH]; intros target; simpl; [done|].
  rewrite <- IH. f_equal. unfold clone_cell.
  assert (Hlt : (this < length σ)%nat) by by eapply lookup_lt_Some.
  unfold grid_of at 1. rewrite lookup_app_l, Hthis by done. simpl.
  destruct (read source row col) as [value|]; [|done].
  unfold grid_of. rewrite list_lookup_middle by done. simpl.
  by rewrite insert_app_r_alt, Nat.sub_diag by done.
Qed.

Lemma clone_rows (σ : Store) (this : ref) (source : Grid)
    (rows : list Z) (target : Grid) :
  σ !! this = Some source →
  foldl (λ σr row,
           foldl (λ σc col, clone_cell this (length σ) row col σc) σr
                 (seqZ 0 COLS))
        (σ ++ [target]) rows
  = σ ++ [foldl (λ gr row,
                   foldl (λ gc col,
                            match read source row col with
                            | Some value => write gc row col value
                            | None => gc
                            end) gr (seqZ 0 COLS))
                target rows].
Proof.
  intros Hthis. revert target.
  induction rows as [|row rows IH]; intros target; cbn [foldl]; [done|].
  rewrite <- IH. f_equal. by apply clone_cols.
Qed.

Lemma wf_grid_cells (grid : Grid) :
  wf_grid grid →
  ∃ r0 r1 r2 r3 r4 r5, grid = [r0; r1; r2; r3; r4; r5]
    ∧ Forall (λ row_arr : list Z, ∃ a b c d e f g,
                row_arr = [a; b; c; d; e; f; g]) grid.
Proof.
  intros [Hlen Hrows].
  do 7 (destruct grid as [|? grid]; try discriminate Hlen).
  eexists _, _, _, _, _, _. split; [done|].
  eapply Forall_impl; [exact Hrows|]. intros row_arr Hl. simpl in Hl.
  do 8 (destruct row_arr as [|? row_arr]; try discriminate Hl).
  by eexists _, _, _, _, _, _, _.
Qed.

Lemma copy_into_reset (grid : Grid) :
  wf_grid grid → copy_into grid reset = grid.
Proof.
  intros Hwf. destruct (wf_grid_cells grid Hwf) as (r0&r1&r2&r3&r4&r5&->&Hrows).
  repeat match goal with
         | H : Forall _ (_ :: _) |- _ =>
             apply Forall_cons in H as [(?&?&?&?&?&?&?&->) H]
         end.
  reflexivity.
Qed.

(** [clone] allocates one board whose grid is that of [this]; the
    boards that existed keep their references and their grids. *)
Lemma clone_spec (σ : Store) (this : ref) (grid : Grid) :
  σ !! this = Some grid → wf_grid grid →
  clone this σ = (length σ, σ ++ [grid]).
Proof.
  intros Hthis Hwf. unfold clone, new. f_equal.
  rewrite (clone_rows σ this grid) by done.
  fold (copy_into grid reset). by rewrite copy_into_reset.
Qed.

(** *** [dropToken] *)



(** C9. A successful [dropToken] on a board that obeys gravity gives a
    board that obeys gravity, and every cell that held a token holds the
    same token afterwards. *)
Theorem dropToken_preserves_gravity (σ : Store) (this : ref) (grid : Grid)
    (col player : Z) :
  σ !! this = Some grid → wf_grid grid → gravity grid →
  (dropToken this col player σ).1 ≠ -1 →
  let grid' := grid_of (dropToken this col player σ).2 this in
  gravity grid'
  ∧ ∀ r c, occupied grid r c → getCell grid' r c = getCell grid r c.
Proof.
  intros Hthis Hwf Hgrav. rewrite dropToken_unfold, (grid_of_lookup _ _ _ Hthis).
  destruct (isColumnFull grid col) eqn:Hfull; simpl; [done|]. intros _.
  destruct (isColumnFull_false _ _ Hfull) as (Hc & Hr & Hcell & Hbelow).
  set (row := findLowestRow grid col) in *.
  rewrite grid_of_insert_eq by by eapply lookup_lt_Some.
  assert (Hkeep : ∀ r c, occupied grid r c →
            getCell (write grid row col player) r c = getCell grid r c).
  { intros r c (value & Hval & Hne). apply getCell_write_ne; [lia..|].
    intros [= -> ->]. rewrite getCell_read, Hcell in Hval by done. congruence. }
  assert (Hocc : ∀ r c, occupied grid r c →
            occupied (write grid row col player) r c).
  { intros r c Hoc. destruct (Hoc) as (value & Hval & Hne).
    exists value. by rewrite Hkeep. }
  split; [|done].
  intros r c (value & Hval & Hne) r' Hr'.
  destruct (decide ((r, c) = (row, col))) as [[= -> ->]|Hother].
  - (* the new token: the cells under it were not empty *)
    apply Hocc. destruct (read_wf grid r' col Hwf) as [v Hv]; [lia..|].
    exists v. rewrite getCell_read by lia. split; [done|].
    intros ->. by apply (Hbelow r').
  - apply Hocc. apply (Hgrav r c); [|done].
    exists value. split; [|done]. rewrite <- Hval. symmetry.
    apply getCell_write_ne; [lia..|done].
Qed.

(** C9, at a concrete board. *)
Lemma dropToken_preserves_gravity_witness :
  let grid := write reset 0 3 PLAYER_1 in
  let grid' := grid_of (dropToken 0%nat 3 PLAYER_2 [grid]).2 0%nat in
  gravity grid'
  ∧ ∀ r c, occupied grid r c → getCell grid' r c = getCell grid r c.
Proof.
  apply (dropToken_preserves_gravity [write reset 0 3 PLAYER_1] 0%nat
           (write reset 0 3 PLAYER_1) 3 PLAYER_2).
  - reflexivity.
  - apply wf_grid_write, wf_grid_reset.
  - intros row col (value & Hval & Hne) r Hr.
    destruct (getCell_Some_bounds _ _ _ _ Hval) as [Hrow Hcol].
    unfold ROWS, COLS in *.
    assert (Hrc : row = 1 ∨ row = 2 ∨ row = 3 ∨ row = 4 ∨ row = 5) by lia.
    assert (Hcc : col = 0 ∨ col = 1 ∨ col = 2 ∨ col = 3 ∨ col = 4 ∨ col = 5
                  ∨ col = 6) by lia.
    exfalso. unfold EMPTY in Hne.
    destruct Hrc as [->|[->|[->|[->| ->]]]];
      destruct Hcc as [->|[->|[->|[->|[->|[->| ->]]]]]];
      vm_compute in Hval; congruence.
  - vm_compute. discriminate.
Defined.

Lemma dropToken_other (σ : Store) (this other : ref) (col player : Z) :
  this ≠ other → (dropToken this col player σ).2 !! other = σ !! other.
Proof.
  intros Hne. rewrite dropToken_unfold.
  destruct (isColumnFull _ _); simpl; [done|].
  by apply list_lookup_insert_ne.
Qed.

Lemma setCell_other (σ : Store) (this other : ref) (row col value : Z) :
  this ≠ other → setCell this row col value σ !! other = σ !! other.
Proof.
  intros Hne. unfold setCell.
  destruct (_ && _); [|done]. by apply list_lookup_insert_ne.
Qed.

End BoardFacts.

(** ** GameLogic *)

Module GameLogicFacts.
Import Board GameLogic Spec BoardFacts.

Local Arguments Nat.leb : simpl never.

Lemma matches_getCell (grid : Grid) (r c player : Z) :
  matches grid r c player = true ↔ getCell grid r c = Some player.
Proof.
  unfold matches. rewrite andb_true_iff, bool_decide_eq_true. split.
  - by intros [_ H].
  - intros H. split; [|done].
    destruct (getCell_Some_bounds _ _ _ _ H) as [Hr Hc].
    unfold isValidPosition. unfold ROWS, COLS in *.
    repeat (apply andb_true_intro; split); lia.
Qed.

Lemma matches_false (grid : Grid) (r c player : Z) :
  matches grid r c player = false ↔ getCell grid r c ≠ Some player.
Proof.
  rewrite <- matches_getCell. by destruct (matches grid r c player).
Qed.

Lemma isValidPosition_bounds (r c : Z) :
  isValidPosition r c = true ↔ 0 ≤ r < ROWS ∧ 0 ≤ c < COLS.
Proof. unfold isValidPosition. rewrite !andb_true_iff. lia. Qed.

(** *** What the two loops collect *)

Lemma walk_push_spec (fuel : nat) (grid : Grid) (dRow dCol player r c : Z)
    (positions result : list Position) :
  walk_push fuel grid dRow dCol player r c positions = Some result →
  ∃ n : nat,
    result = positions
             ++ ((λ k, (r + k * dRow, c + k * dCol)) <$> seqZ 0 (Z.of_nat n))
    ∧ (∀ k, 0 ≤ k < Z.of_nat n →
         getCell grid (r + k * dRow) (c + k * dCol) = Some player)
    ∧ getCell grid (r + Z.of_nat n * dRow) (c + Z.of_nat n * dCol)
      ≠ Some player.
Proof.
  revert r c positions.
  induction fuel as [|fuel IH]; intros r c positions; simpl; [done|].
  destruct (matches grid r c player) eqn:Hm.
  - intros Hrec. apply IH in Hrec as (n & -> & Hrun & Hstop).
    apply matches_getCell in Hm. exists (S n). split; [|split].
    + rewrite <- (assoc_L (++)). f_equal.
      rewrite Nat2Z.inj_succ, (seqZ_cons 0 (Z.succ (Z.of_nat n))) by lia. simpl.
      rewrite Z.mul_0_l, !Z.add_0_r. f_equal.
      rewrite Z.pred_succ, <- (fmap_add_seqZ 1 0), <- list_fmap_compose.
      apply list_fmap_ext. intros _ k _. simpl. f_equal; lia.
    + intros k Hk. destruct (decide (k = 0)) as [->|Hk0].
      * by rewrite Z.mul_0_l, !Z.add_0_r.
      * specialize (Hrun (k - 1)).
        replace (r + dRow + (k - 1) * dRow) with (r + k * dRow) in Hrun by lia.
        replace (c + dCol + (k - 1) * dCol) with (c + k * dCol) in Hrun by lia.
        apply Hrun. lia.
    + replace (r + Z.of_nat (S n) * dRow) with (r + dRow + Z.of_nat n * dRow)
        by lia.
      by replace (c + Z.of_nat (S n) * dCol)
        with (c + dCol + Z.of_nat n * dCol) by lia.
  - intros [= <-]. apply matches_false in Hm. exists 0%nat. split; [|split].
    + by rewrite app_nil_r.
    + intros k Hk. lia.
    + by rewrite Z.mul_0_l, !Z.add_0_r.
Qed.

Lemma walk_unshift_spec (fuel : nat) (grid : Grid) (dRow dCol player r c : Z)
    (positions result : list Position) :
  walk_unshift fuel grid dRow dCol player r c positions = Some result →
  ∃ n : nat,
    result = ((λ k, (r + k * dRow, c + k * dCol))
                <$> seqZ (- (Z.of_nat n - 1)) (Z.of_nat n))
             ++ positions
    ∧ (∀ k, 0 ≤ k < Z.of_nat n →
         getCell grid (r - k * dRow) (c - k * dCol) = Some player)
    ∧ getCell grid (r - Z.of_nat n * dRow) (c - Z.of_nat n * dCol)
      ≠ Some player.
Proof.
  revert r c positions.
  induction fuel as [|fuel IH]; intros r c positions; simpl; [done|].
  destruct (matches grid r c player) eqn:Hm.
  - intros Hrec. apply IH in Hrec as (n & -> & Hrun & Hstop).
    apply matches_getCell in Hm. exists (S n). split; [|split].
    + rewrite Nat2Z.inj_succ.
      replace (Z.succ (Z.of_nat n)) with (Z.of_nat n + 1) by lia.
      rewrite seqZ_app by lia. rewrite fmap_app, <- (assoc_L (++)). f_equal.
      * replace (- (Z.of_nat n + 1 - 1)) with (-1 + - (Z.of_nat n - 1)) by lia.
        rewrite <- (fmap_add_seqZ (-1)), <- list_fmap_compose.
        apply list_fmap_ext. intros _ k _. simpl. f_equal; lia.
      * replace (- (Z.of_nat n + 1 - 1) + Z.of_nat n) with 0 by lia.
        simpl. by rewrite Z.mul_0_l, !Z.add_0_r.
    + intros k Hk. destruct (decide (k = 0)) as [->|Hk0].
      * by rewrite Z.mul_0_l, !Z.sub_0_r.
      * specialize (Hrun (k - 1)).
        replace (r - dRow - (k - 1) * dRow) with (r - k * dRow) in Hrun by lia.
        replace (c - dCol - (k - 1) * dCol) with (c - k * dCol) in Hrun by lia.
        apply Hrun. lia.
    + replace (r - Z.of_nat (S n) * dRow) with (r - dRow - Z.of_nat n * dRow)
        by lia.
      by replace (c - Z.of_nat (S n) * dCol)
        with (c - dCol - Z.of_nat n * dCol) by lia.
  - intros [= <-]. apply matches_false in Hm. exists 0%nat. split; [|split].
    + done.
    + intros k Hk. lia.
    + by rewrite Z.mul_0_l, !Z.sub_0_r.
Qed.

(** *** The loops stop *)

(** A walk stops within its fuel when some potential is non-negative on
    the board and drops with every step that stays on the board. *)
Lemma walk_push_fuel (φ : Z → Z → Z) (grid : Grid) (dRow dCol player : Z) :
  (∀ r c, isValidPosition r c = true →
     0 ≤ φ r c ∧ (isValidPosition (r + dRow) (c + dCol) = true →
                  φ (r + dRow) (c + dCol) < φ r c)) →
  ∀ (fuel : nat) r c positions,
    (isValidPosition r c = true → φ r c + 1 < Z.of_nat fuel) →
    (0 < fuel)%nat →
    is_Some (walk_push fuel grid dRow dCol player r c positions).
Proof.
  intros Hφ. induction fuel as [|fuel IH]; intros r c positions Hfuel Hpos.
  - lia.
  - simpl. unfold matches.
    destruct (isValidPosition r c) eqn:Hvalid; simpl; [|by eexists].
    destruct (bool_decide _); [|by eexists].
    destruct (Hφ r c Hvalid) as [H0 Hdrop]. specialize (Hfuel eq_refl).
    apply IH; [|lia]. intros Hvalid'. specialize (Hdrop Hvalid'). lia.
Qed.

Lemma walk_unshift_fuel (φ : Z → Z → Z) (grid : Grid) (dRow dCol player : Z) :
  (∀ r c, isValidPosition r c = true →
     0 ≤ φ r c ∧ (isValidPosition (r - dRow) (c - dCol) = true →
                  φ (r - dRow) (c - dCol) < φ r c)) →
  ∀ (fuel : nat) r c positions,
    (isValidPosition r c = true → φ r c + 1 < Z.of_nat fuel) →
    (0 < fuel)%nat →
    is_Some (walk_unshift fuel grid dRow dCol player r c positions).
Proof.
  intros Hφ. induction fuel as [|fuel IH]; intros r c positions Hfuel Hpos.
  - lia.
  - simpl. unfold matches.
    destruct (isValidPosition r c) eqn:Hvalid; simpl; [|by eexists].
    destruct (bool_decide _); [|by eexists].
    destruct (Hφ r c Hvalid) as [H0 Hdrop]. specialize (Hfuel eq_refl).
    apply IH; [|lia]. intros Hvalid'. specialize (Hdrop Hvalid'). lia.
Qed.

Lemma elem_of_DIRECTIONS (d : Z * Z) :
  d ∈ DIRECTIONS → d = (0, 1) ∨ d = (1, 0) ∨ d = (1, 1) ∨ d = (1, -1).
Proof.
  unfold DIRECTIONS. rewrite !elem_of_cons, elem_of_nil. tauto.
Qed.

Ltac bounds_potential :=
  intros r c Hv; apply isValidPosition_bounds in Hv;
  split; [unfold ROWS, COLS in *; lia|];
  intros Hv'; apply isValidPosition_bounds in Hv';
  unfold ROWS, COLS in *; lia.

Ltac fuel_side :=
  first [ lia
        | intros Hv; apply isValidPosition_bounds in Hv;
          unfold ROWS, COLS in *; lia ].

(** Eight rounds are enough for each loop of [getConnectedPositions] in
    each of the four directions, wherever the walk starts. *)
Lemma getConnectedPositions_returns (fuel : nat) (grid : Grid)
    (row col player : Z) (d : Z * Z) :
  (8 ≤ fuel)%nat → d ∈ DIRECTIONS →
  is_Some (getConnectedPositions fuel grid row col d.1 d.2 player).
Proof.
  intros Hfuel Hd. unfold getConnectedPositions.
  apply elem_of_DIRECTIONS in Hd as [->|[->|[->| ->]]]; simpl.
  - destruct (walk_push_fuel (λ _ c, 6 - c) grid 0 1 player)
      with (fuel := fuel) (r := row + 0) (c := col + 1)
           (positions := [(row, col)]) as [ps ->];
      [bounds_potential | fuel_side..|]. simpl.
    apply (walk_unshift_fuel (λ _ c, c)); [bounds_potential | fuel_side..].
  - destruct (walk_push_fuel (λ r _, 5 - r) grid 1 0 player)
      with (fuel := fuel) (r := row + 1) (c := col + 0)
           (positions := [(row, col)]) as [ps ->];
      [bounds_potential | fuel_side..|]. simpl.
    apply (walk_unshift_fuel (λ r _, r)); [bounds_potential | fuel_side..].
  - destruct (walk_push_fuel (λ _ c, 6 - c) grid 1 1 player)
      with (fuel := fuel) (r := row + 1) (c := col + 1)
           (positions := [(row, col)]) as [ps ->];
      [bounds_potential | fuel_side..|]. simpl.
    apply (walk_unshift_fuel (λ _ c, c)); [bounds_potential | fuel_side..].
  - destruct (walk_push_fuel (λ _ c, c) grid 1 (-1) player)
      with (fuel := fuel) (r := row + 1) (c := col + -1)
           (positions := [(row, col)]) as [ps ->];
      [bounds_potential | fuel_side..|]. simpl.
    apply (walk_unshift_fuel (λ _ c, 6 - c)); [bounds_potential | fuel_side..].
Qed.

(** The list [getConnectedPositions] returns is the line from the far
    end of the run behind the origin to the far end of the run ahead. *)
Lemma getConnectedPositions_spec (fuel : nat) (grid : Grid)
    (row col player : Z) (d : Z * Z) (positions : list Position) :
  getConnectedPositions fuel grid row col d.1 d.2 player = Some positions →
  ∃ before after : nat,
    axis grid row col player d before after
    ∧ positions = line row col d.1 d.2 before (before + 1 + after).
Proof.
  destruct d as [dRow dCol]. unfold getConnectedPositions. simpl.
  destruct (walk_push _ _ _ _ _ _ _ _) as [ps|] eqn:Hpush; [simpl|done].
  intros Hunshift.
  apply walk_push_spec in Hpush as (after & -> & Hafter & Hstop).
  apply walk_unshift_spec in Hunshift as (before & -> & Hbefore & Hstop').
  exists before, after. split; [split; split|].
  - intros k Hk. specialize (Hbefore (k - 1)). simpl.
    replace (row - dRow - (k - 1) * dRow) with (row + k * - dRow) in Hbefore
      by lia.
    replace (col - dCol - (k - 1) * dCol) with (col + k * - dCol) in Hbefore
      by lia.
    apply Hbefore. lia.
  - simpl.
    replace (row + (Z.of_nat before + 1) * - dRow)
      with (row - dRow - Z.of_nat before * dRow) by lia.
    by replace (col + (Z.of_nat before + 1) * - dCol)
      with (col - dCol - Z.of_nat before * dCol) by lia.
  - intros k Hk. specialize (Hafter (k - 1)). simpl.
    replace (row + dRow + (k - 1) * dRow) with (row + k * dRow) in Hafter
      by lia.
    replace (col + dCol + (k - 1) * dCol) with (col + k * dCol) in Hafter
      by lia.
    apply Hafter. lia.
  - simpl.
    replace (row + (Z.of_nat after + 1) * dRow)
      with (row + dRow + Z.of_nat after * dRow) by lia.
    by replace (col + (Z.of_nat after + 1) * dCol)
      with (col + dCol + Z.of_nat after * dCol) by lia.
  - unfold line. rewrite !Nat2Z.inj_add.
    rewrite <- (assoc_L Z.add), seqZ_app by lia.
    rewrite fmap_app. f_equal.
    + replace (- (Z.of_nat before - 1)) with (1 + - Z.of_nat before) by lia.
      rewrite <- (fmap_add_seqZ 1), <- list_fmap_compose.
      apply list_fmap_ext. intros _ k _. simpl. f_equal; lia.
    + replace (- Z.of_nat before + Z.of_nat before) with 0 by lia.
      rewrite (seqZ_cons 0 (Z.of_nat 1 + Z.of_nat after)) by lia.
      replace (Z.pred (Z.of_nat 1 + Z.of_nat after)) with (Z.of_nat after)
        by lia.
      simpl. rewrite !Z.add_0_r. f_equal.
      rewrite <- (fmap_add_seqZ 1 0), <- list_fmap_compose.
      apply list_fmap_ext. intros _ k _. simpl. f_equal; lia.
Qed.

Lemma take_line (row col dRow dCol : Z) (before len : nat) :
  (4 ≤ len)%nat →
  take 4 (line row col dRow dCol before len) = line row col dRow dCol before 4.
Proof.
  intros Hlen. unfold line. rewrite <- fmap_take. f_equal.
  replace (Z.of_nat len) with (Z.of_nat 4 + Z.of_nat (len - 4)) by lia.
  rewrite seqZ_app by lia. apply take_app_length'.
  by rewrite length_seqZ.
Qed.

Lemma length_line (row col dRow dCol : Z) (before len : nat) :
  length (line row col dRow dCol before len) = len.
Proof. unfold line. rewrite length_fmap, length_seqZ. lia. Qed.

(** *** [checkWin] *)

Lemma checkWin_loop_sound (fuel : nat) (grid : Grid) (row col player : Z)
    (dirs : list (Z * Z)) (result : option WinInfo) :
  checkWin_loop fuel grid row col player dirs = Some result →
  checkWin_result grid row col player dirs result.
Proof.
  revert result. induction dirs as [|[dRow dCol] dirs IH]; intros result; simpl.
  - intros [= <-]. by constructor.
  - destruct (getConnectedPositions _ _ _ _ _ _ _) as [ps|] eqn:Hps;
      [simpl|done].
    apply (getConnectedPositions_spec _ _ _ _ _ (dRow, dCol)) in Hps
      as (before & after & Haxis & ->).
    rewrite length_line.
    destruct (Nat.leb_spec 4 (before + 1 + after)) as [Hge|Hlt].
    + intros [= <-]. split; [done|].
      exists [], (dRow, dCol), dirs, before, after.
      split; [done|]. split; [by constructor|]. split; [done|].
      split; [done|]. simpl. by apply take_line.
    + intros Hrest. apply IH in Hrest.
      assert (Hshort : short_axis grid row col player (dRow, dCol))
        by by exists before, after.
      destruct result as [win|]; simpl in *.
      * destruct Hrest as
          (Hp & skipped & d & rest & b & a & -> & Hsk & Hax & Hlen & Hpos).
        split; [done|]. exists ((dRow, dCol) :: skipped), d, rest, b, a.
        split; [done|]. split; [by constructor|done].
      * by constructor.
Qed.

Lemma checkWin_loop_returns (fuel : nat) (grid : Grid) (row col player : Z)
    (dirs : list (Z * Z)) :
  (8 ≤ fuel)%nat → dirs ⊆ DIRECTIONS →
  is_Some (checkWin_loop fuel grid row col player dirs).
Proof.
  intros Hfuel. induction dirs as [|[dRow dCol] dirs IH]; intros Hsub; simpl.
  - by eexists.
  - destruct (getConnectedPositions_returns fuel grid row col player
                (dRow, dCol) Hfuel) as [ps Hps]; [apply Hsub; by left|].
    simpl in Hps. rewrite Hps. simpl.
    destruct (4 <=? length ps)%nat; [by eexists|].
    apply IH. intros d Hd. apply Hsub. by right.
Qed.

(** C3. With fuel for eight rounds of each loop, [checkWin] returns, and
    what it returns is fixed by the runs of [player] on the two sides of
    [(row, col)] along the directions (0,1), (1,0), (1,1), (1,-1) taken
    in that order: [null] if every axis collects fewer than four
    coordinates (the origin included); otherwise the player and, for the
    first axis that collects at least four, the first four coordinates
    starting at the far end against the direction. *)
Theorem checkWin_spec (fuel : nat) (grid : Grid) (row col player : Z) :
  (8 ≤ fuel)%nat →
  DIRECTIONS = [(0, 1); (1, 0); (1, 1); (1, -1)]
  ∧ ∃ result, checkWin fuel grid row col player = Some result
      ∧ checkWin_result grid row col player DIRECTIONS result.
Proof.
  intros Hfuel. split; [done|].
  destruct (checkWin_loop_returns fuel grid row col player DIRECTIONS Hfuel)
    as [result Hres]; [done|].
  exists result. split; [done|]. by eapply checkWin_loop_sound.
Qed.

(** C3, on the row of the horizontal scenario. *)
Lemma checkWin_spec_witness :
  DIRECTIONS = [(0, 1); (1, 0); (1, 1); (1, -1)]
  ∧ ∃ result, checkWin 8 three_in_row 0 3 PLAYER_1 = Some result
      ∧ checkWin_result three_in_row 0 3 PLAYER_1 DIRECTIONS result.
Proof.
  apply (checkWin_spec 8 three_in_row 0 3 PLAYER_1). lia.
Defined.

(** Every coordinate of a returned line, the origin apart, was collected
    by a walk: it is on the board and holds [player]. *)
Lemma checkWin_result_cells (grid : Grid) (row col player : Z)
    (dirs : list (Z * Z)) (win : WinInfo) :
  checkWin_result grid row col player dirs (Some win) →
  ∀ p, p ∈ positions win → p ≠ (row, col) →
    getCell grid p.1 p.2 = Some player.
Proof.
  intros (_ & skipped & [dRow dCol] & rest & before & after & _ & _
          & [[Hbefore _] [Hafter _]] & Hlen & ->) p Hp Hne.
  unfold line in Hp. apply list_elem_of_fmap in Hp as (k & -> & Hk).
  apply elem_of_seqZ in Hk. simpl in *.
  destruct (Z.lt_trichotomy k 0) as [Hneg|[->|Hpos]].
  - specialize (Hbefore (- k)).
    replace (row + - k * - dRow) with (row + k * dRow) in Hbefore by lia.
    replace (col + - k * - dCol) with (col + k * dCol) in Hbefore by lia.
    apply Hbefore. lia.
  - destruct Hne. f_equal; lia.
  - apply Hafter. lia.
Qed.

(** The walks never come back to the cell they start from, so its
    content does not matter. *)
Lemma walk_push_ext (fuel : nat) (g1 g2 : Grid) (dRow dCol player r c : Z)
    (positions : list Position) :
  (∀ k, 0 ≤ k →
     getCell g1 (r + k * dRow) (c + k * dCol)
     = getCell g2 (r + k * dRow) (c + k * dCol)) →
  walk_push fuel g1 dRow dCol player r c positions
  = walk_push fuel g2 dRow dCol player r c positions.
Proof.
  revert r c positions.
  induction fuel as [|fuel IH]; intros r c positions Hsame; simpl; [done|].
  unfold matches. specialize (Hsame 0) as Hhere.
  rewrite Z.mul_0_l, !Z.add_0_r in Hhere. rewrite Hhere by lia.
  destruct (_ && _); [|done]. apply IH. intros k Hk.
  specialize (Hsame (k + 1)).
  replace (r + (k + 1) * dRow) with (r + dRow + k * dRow) in Hsame by lia.
  replace (c + (k + 1) * dCol) with (c + dCol + k * dCol) in Hsame by lia.
  apply Hsame. lia.
Qed.

Lemma walk_unshift_ext (fuel : nat) (g1 g2 : Grid) (dRow dCol player r c : Z)
    (positions : list Position) :
  (∀ k, 0 ≤ k →
     getCell g1 (r - k * dRow) (c - k * dCol)
     = getCell g2 (r - k * dRow) (c - k * dCol)) →
  walk_unshift fuel g1 dRow dCol player r c positions
  = walk_unshift fuel g2 dRow dCol player r c positions.
Proof.
  revert r c positions.
  induction fuel as [|fuel IH]; intros r c positions Hsame; simpl; [done|].
  unfold matches. specialize (Hsame 0) as Hhere.
  rewrite Z.mul_0_l, !Z.sub_0_r in Hhere. rewrite Hhere by lia.
  destruct (_ && _); [|done]. apply IH. intros k Hk.
  specialize (Hsame (k + 1)).
  replace (r - (k + 1) * dRow) with (r - dRow - k * dRow) in Hsame by lia.
  replace (c - (k + 1) * dCol) with (c - dCol - k * dCol) in Hsame by lia.
  apply Hsame. lia.
Qed.

Lemma checkWin_loop_write_origin (fuel : nat) (grid : Grid)
    (row col player value : Z) (dirs : list (Z * Z)) :
  0 ≤ row → 0 ≤ col → dirs ⊆ DIRECTIONS →
  checkWin_loop fuel (write grid row col value) row col player dirs
  = checkWin_loop fuel grid row col player dirs.
Proof.
  intros Hrow Hcol. induction dirs as [|[dRow dCol] dirs IH]; intros Hsub;
    simpl; [done|].
  assert (Hd : (dRow, dCol) ∈ DIRECTIONS) by (apply Hsub; by left).
  assert (Hnz : ∀ k, k ≠ 0 → (row + k * dRow, col + k * dCol) ≠ (row, col)).
  { intros k Hk [= Hr Hc].
    apply elem_of_DIRECTIONS in Hd as [[= -> ->]|[[= -> ->]|[[= -> ->]|
      [= -> ->]]]]; lia. }
  assert (Hps : getConnectedPositions fuel (write grid row col value)
                  row col dRow dCol player
                = getConnectedPositions fuel grid row col dRow dCol player).
  { unfold getConnectedPositions.
    rewrite (walk_push_ext fuel (write grid row col value) grid).
    - destruct (walk_push _ _ _ _ _ _ _ _); [simpl|done].
      apply walk_unshift_ext. intros k Hk.
      apply getCell_write_ne; [done..|].
      replace (row - dRow - k * dRow) with (row + (- k - 1) * dRow) by lia.
      replace (col - dCol - k * dCol) with (col + (- k - 1) * dCol) by lia.
      apply Hnz. lia.
    - intros k Hk. apply getCell_write_ne; [done..|].
      replace (row + dRow + k * dRow) with (row + (k + 1) * dRow) by lia.
      replace (col + dCol + k * dCol) with (col + (k + 1) * dCol) by lia.
      apply Hnz. lia. }
  rewrite Hps. clear Hps.
  destruct (getConnectedPositions _ _ _ _ _ _ _) as [ps|]; [simpl|done].
  destruct (4 <=? length ps)%nat; [done|].
  apply IH. intros d Hin. apply Hsub. by right.
Qed.

(** C10. [checkWin] does not read the cell at [(row, col)]: overwriting
    that cell does not change the answer.  It counts the cell for
    [player] whatever it holds: on a bottom row with [PLAYER_1] in
    columns 0 to 2, the query at the empty cell (0, 3) returns the line
    through that cell.  Every other coordinate of a returned line holds
    [player]. *)
Theorem checkWin_origin_unchecked :
  (∀ (fuel : nat) (grid : Grid) (row col player value : Z),
     isValidPosition row col = true →
     checkWin fuel (write grid row col value) row col player
     = checkWin fuel grid row col player)
  ∧ (getCell three_in_row 0 3 = Some EMPTY
     ∧ checkWin 8 three_in_row 0 3 PLAYER_1
       = Some (Some (mkWinInfo PLAYER_1 [(0, 0); (0, 1); (0, 2); (0, 3)])))
  ∧ (∀ (fuel : nat) (grid : Grid) (row col player : Z) (win : WinInfo),
       checkWin fuel grid row col player = Some (Some win) →
       ∀ p, p ∈ positions win → p ≠ (row, col) →
         getCell grid p.1 p.2 = Some player).
Proof.
  split; [|split].
  - intros fuel grid row col player value Hvalid.
    apply isValidPosition_bounds in Hvalid.
    apply checkWin_loop_write_origin; [lia..|done].
  - split; reflexivity.
  - intros fuel grid row col player win Hwin.
    apply checkWin_loop_sound in Hwin. by eapply checkWin_result_cells.
Qed.

(** C10, at the line of the example: the origin (0, 3) is empty, the
    three other coordinates hold [PLAYER_1], and a token of the other
    side written at the origin leaves the answer as it was. *)
Lemma checkWin_origin_unchecked_witness :
  checkWin 8 (write three_in_row 0 3 PLAYER_2) 0 3 PLAYER_1
  = checkWin 8 three_in_row 0 3 PLAYER_1
  ∧ getCell three_in_row 0 1 = Some PLAYER_1.
Proof.
  destruct checkWin_origin_unchecked as (Hwrite & [_ Hline] & Hcells).
  split.
  - apply Hwrite. reflexivity.
  - apply (Hcells 8%nat three_in_row 0 3 PLAYER_1 _ Hline (0, 1)).
    + vm_compute. apply list_elem_of_In. simpl. tauto.
    + discriminate.
Defined.

(** C4, as stated, fails: queried one step left of the board, [checkWin]
    returns a line whose first coordinate is that step off the board. *)
Lemma checkWin_out_of_bounds_origin_counted :
  isValidPosition 0 (-1) = false
  ∧ checkWin 8 three_in_row 0 (-1) PLAYER_1
    = Some (Some (mkWinInfo PLAYER_1 [(0, -1); (0, 0); (0, 1); (0, 2)])).
Proof. split; reflexivity. Qed.

(** C4, amended. For any coordinates, on or off the board, [checkWin]
    returns with fuel for eight rounds: no read fails and each walk stops
    at the edge of the board.  In a returned line every coordinate other
    than the queried one is on the board and holds [player]; the queried
    coordinate itself is not checked. *)
Theorem checkWin_out_of_bounds (fuel : nat) (grid : Grid)
    (row col player : Z) :
  (8 ≤ fuel)%nat →
  ∃ result, checkWin fuel grid row col player = Some result
    ∧ ∀ win, result = Some win →
        ∀ p, p ∈ positions win → p ≠ (row, col) →
          isValidPosition p.1 p.2 = true
          ∧ getCell grid p.1 p.2 = Some player.
Proof.
  intros Hfuel.
  destruct (checkWin_loop_returns fuel grid row col player DIRECTIONS Hfuel)
    as [result Hres]; [done|].
  exists result. split; [done|]. intros win -> p Hp Hne.
  apply checkWin_loop_sound in Hres.
  pose proof (checkWin_result_cells _ _ _ _ _ _ Hres p Hp Hne) as Hcell.
  split; [|done]. apply isValidPosition_bounds.
  by eapply getCell_Some_bounds.
Qed.

(** C4 amended, at the query one step left of the board. *)
Lemma checkWin_out_of_bounds_witness :
  ∃ result, checkWin 8 three_in_row 0 (-1) PLAYER_1 = Some result
    ∧ ∀ win, result = Some win →
        ∀ p, p ∈ positions win → p ≠ (0, -1) →
          isValidPosition p.1 p.2 = true
          ∧ getCell three_in_row p.1 p.2 = Some PLAYER_1.
Proof. apply (checkWin_out_of_bounds 8 three_in_row 0 (-1) PLAYER_1). lia. Defined.

End GameLogicFacts.

(** ** Scores *)

Module NumFacts.

#[global] Instance eq_equiv : Equivalence NumRel.eq.
Proof. apply eq_equivalence. Qed.

#[global] Instance lt_strorder : StrictOrder NumRel.lt.
Proof.
  split.
  - intros [|x|]; unfold complement, NumRel.lt, num_lt; simpl; try done.
    rewrite Z.leb_gt. lia.
  - intros [|x|] [|y|] [|z|]; unfold NumRel.lt, num_lt; simpl; try done.
    rewrite !Z.leb_gt. lia.
Qed.

#[global] Instance lt_compat :
  Proper (NumRel.eq ==> NumRel.eq ==> iff) NumRel.lt.
Proof. by intros ? ? -> ? ? ->. Qed.

Lemma le_lteq (x y : num) :
  NumRel.le x y ↔ NumRel.lt x y ∨ NumRel.eq x y.
Proof.
  destruct x as [|x|], y as [|y|];
    unfold NumRel.le, NumRel.lt, NumRel.eq, num_le, num_lt; simpl;
    try (split; [auto|intros [|]; done]).
  rewrite Z.leb_le, Z.leb_gt. split.
  - intros H. destruct (decide (x = y)) as [->|]; [by right|left; lia].
  - intros [|[= ->]]; lia.
Qed.

Lemma lt_total (x y : num) :
  NumRel.lt x y ∨ NumRel.eq x y ∨ NumRel.lt y x.
Proof.
  destruct x as [|x|], y as [|y|]; unfold NumRel.lt, NumRel.eq, num_lt;
    simpl; auto.
  rewrite !Z.leb_gt. destruct (Z.lt_trichotomy x y) as [|[->|]]; auto.
Qed.

End NumFacts.

Module NumTac := MakeOrderTac NumRel NumFacts.

Module NumOrder.

Lemma num_max_case (a b : num) :
  (num_le a b ∧ num_max a b = b) ∨ (num_lt b a ∧ num_max a b = a).
Proof. unfold num_max, num_le, num_lt. destruct (num_leb a b); auto. Qed.

Lemma num_min_case (a b : num) :
  (num_le a b ∧ num_min a b = a) ∨ (num_lt b a ∧ num_min a b = b).
Proof. unfold num_min, num_le, num_lt. destruct (num_leb a b); auto. Qed.

Lemma num_le_or_lt (a b : num) : num_le a b ∨ num_lt b a.
Proof. unfold num_le, num_lt. destruct (num_leb a b); auto. Qed.

Lemma num_le_NegInf (a : num) : num_le NegInf a.
Proof. done. Qed.

Lemma num_le_PosInf (a : num) : num_le a PosInf.
Proof. by destruct a. Qed.

Lemma num_ltb_lt (a b : num) : num_ltb a b = true ↔ num_lt a b.
Proof. unfold num_ltb, num_lt. by destruct (num_leb b a). Qed.

(** Chains of [num_le], [num_lt] and [=]. *)
Ltac num_order :=
  change num_le with NumRel.le in *; change num_lt with NumRel.lt in *;
  NumTac.order.

(** Decide every [num_max] and [num_min] in sight. *)
Ltac num_split :=
  repeat match goal with
  | |- context [num_max ?a ?b] =>
      let H := fresh in let E := fresh in
      destruct (num_max_case a b) as [[H E]|[H E]]; rewrite !E in *; clear E
  | H0 : context [num_max ?a ?b] |- _ =>
      let H := fresh in let E := fresh in
      destruct (num_max_case a b) as [[H E]|[H E]]; rewrite !E in *; clear E
  | |- context [num_min ?a ?b] =>
      let H := fresh in let E := fresh in
      destruct (num_min_case a b) as [[H E]|[H E]]; rewrite !E in *; clear E
  | H0 : context [num_min ?a ?b] |- _ =>
      let H := fresh in let E := fresh in
      destruct (num_min_case a b) as [[H E]|[H E]]; rewrite !E in *; clear E
  end.

(** Decide the premise of every implication between comparisons. *)
Ltac num_use :=
  repeat match goal with
  | H : num_le ?x ?y → _ |- _ =>
      let C := fresh in
      destruct (num_le_or_lt x y) as [C|C]; [specialize (H C)|clear H]
  | H : num_lt ?x ?y → _ |- _ =>
      let C := fresh in
      destruct (num_le_or_lt y x) as [C|C]; [clear H|specialize (H C)]
  end.

Ltac num_solve :=
  unfold SearchValue.bracket in *;
  repeat match goal with H : _ ∧ _ |- _ => destruct H end;
  num_split; num_use; repeat split; intros; num_order.

End NumOrder.

(** ** AI *)

Module AIFacts.
Import Board AI Spec SearchValue BoardFacts NumOrder.

(** *** The store during the search *)

Lemma valid_board_grid_of (σ : Store) (this : ref) :
  valid_board σ this →
  σ !! this = Some (grid_of σ this) ∧ wf_grid (grid_of σ this).
Proof. intros (grid & Hthis & Hwf). by rewrite (grid_of_lookup _ _ _ Hthis). Qed.

Lemma grid_of_app (σ fresh : Store) (this : ref) :
  valid_board σ this → grid_of (σ ++ fresh) this = grid_of σ this.
Proof.
  intros (grid & Hthis & _). unfold grid_of.
  by rewrite (lookup_app_l_Some _ _ _ _ Hthis), Hthis.
Qed.

Lemma valid_board_app (σ fresh : Store) (this : ref) :
  valid_board σ this → valid_board (σ ++ fresh) this.
Proof.
  intros (grid & Hthis & Hwf). exists grid.
  by rewrite (lookup_app_l_Some _ _ _ _ Hthis).
Qed.

Lemma wf_grid_child (grid : Grid) (player col : Z) :
  wf_grid grid → wf_grid (child_grid grid player col).
Proof.
  intros Hwf. unfold child_grid.
  destruct (isColumnFull grid col); [done|]. by apply wf_grid_write.
Qed.

(** One round of a loop up to the recursive call: the copy is a new
    board, it holds the grid with the token dropped, and nothing else
    moved. *)
Lemma clone_dropToken (σ : Store) (board : ref) (col player : Z) :
  valid_board σ board →
  ∃ row,
    clone board σ = (length σ, σ ++ [grid_of σ board])
    ∧ dropToken (length σ) col player (σ ++ [grid_of σ board])
      = (row, σ ++ [child_grid (grid_of σ board) player col])
    ∧ valid_board (σ ++ [child_grid (grid_of σ board) player col]) (length σ)
    ∧ grid_of (σ ++ [child_grid (grid_of σ board) player col]) (length σ)
      = child_grid (grid_of σ board) player col.
Proof.
  intros Hvalid. destruct (valid_board_grid_of _ _ Hvalid) as [Hthis Hwf].
  set (grid := grid_of σ board) in *.
  assert (Hnew : ∀ g : Grid, grid_of (σ ++ [g]) (length σ) = g).
  { intros g. unfold grid_of. by rewrite list_lookup_middle. }
  exists (if isColumnFull grid col then -1 else findLowestRow grid col).
  split; [by apply clone_spec|]. split; [|split].
  - rewrite dropToken_unfold, Hnew. unfold child_grid.
    destruct (isColumnFull grid col); [done|].
    by rewrite insert_app_r_alt, Nat.sub_diag by done.
  - exists (child_grid grid player col). split.
    + by rewrite list_lookup_middle.
    + by apply wf_grid_child.
  - apply Hnew.
Qed.

Lemma computes_app {A : Type} (run : Store → A * Store) (σ mid : Store)
    (value : A) :
  computes run (σ ++ mid) value → ∃ fresh, run (σ ++ mid) = (value, σ ++ fresh).
Proof.
  intros [fresh Hrun]. exists (mid ++ fresh). by rewrite Hrun, (assoc_L (++)).
Qed.

(** *** The loops compute their grid-level counterparts *)

Section loops.
Context (this : AI).

Lemma max_loop_computes (child : ref → num → num → Store → num * Store)
    (cv : Grid → num → num → num) (board : ref) (beta : num) :
  (∀ b α β σ, valid_board σ b →
     computes (child b α β) σ (cv (grid_of σ b) α β)) →
  ∀ moves maxScore alpha σ,
    valid_board σ board →
    computes (max_loop this child board beta moves maxScore alpha) σ
      (max_cut cv beta (child_grid (grid_of σ board) (aiPlayer this) <$> moves)
         maxScore alpha).
Proof.
  intros Hchild.
  induction moves as [|col moves IH]; intros maxScore alpha σ Hvalid.
  - exists []. simpl. by rewrite app_nil_r.
  - destruct (clone_dropToken σ board col (aiPlayer this) Hvalid)
      as (row & Hclone & Hdrop & Hcopy & Hgrid).
    unfold computes. cbn [max_loop fmap list_fmap max_cut].
    rewrite Hclone, Hdrop.
    destruct (computes_app _ _ _ _ (Hchild (length σ) alpha beta _ Hcopy))
      as [fresh Hrun].
    rewrite Hrun, Hgrid.
    destruct (num_leb beta _); [by eexists|].
    destruct (IH (num_max maxScore
                    (cv (child_grid (grid_of σ board) (aiPlayer this) col)
                        alpha beta))
                 (num_max alpha
                    (cv (child_grid (grid_of σ board) (aiPlayer this) col)
                        alpha beta))
                 (σ ++ fresh) (valid_board_app _ _ _ Hvalid))
      as [fresh' Hrest].
    rewrite (grid_of_app _ _ _ Hvalid) in Hrest.
    exists (fresh ++ fresh'). by rewrite Hrest, (assoc_L (++)).
Qed.

Lemma min_loop_computes (child : ref → num → num → Store → num * Store)
    (cv : Grid → num → num → num) (board : ref) (alpha : num) :
  (∀ b α β σ, valid_board σ b →
     computes (child b α β) σ (cv (grid_of σ b) α β)) →
  ∀ moves minScore beta σ,
    valid_board σ board →
    computes (min_loop this child board alpha moves minScore beta) σ
      (min_cut cv alpha
         (child_grid (grid_of σ board) (humanPlayer this) <$> moves)
         minScore beta).
Proof.
  intros Hchild.
  induction moves as [|col moves IH]; intros minScore beta σ Hvalid.
  - exists []. simpl. by rewrite app_nil_r.
  - destruct (clone_dropToken σ board col (humanPlayer this) Hvalid)
      as (row & Hclone & Hdrop & Hcopy & Hgrid).
    unfold computes. cbn [min_loop fmap list_fmap min_cut].
    rewrite Hclone, Hdrop.
    destruct (computes_app _ _ _ _ (Hchild (length σ) alpha beta _ Hcopy))
      as [fresh Hrun].
    rewrite Hrun, Hgrid.
    destruct (num_leb _ alpha); [by eexists|].
    destruct (IH (num_min minScore
                    (cv (child_grid (grid_of σ board) (humanPlayer this) col)
                        alpha beta))
                 (num_min beta
                    (cv (child_grid (grid_of σ board) (humanPlayer this) col)
                        alpha beta))
                 (σ ++ fresh) (valid_board_app _ _ _ Hvalid))
      as [fresh' Hrest].
    rewrite (grid_of_app _ _ _ Hvalid) in Hrest.
    exists (fresh ++ fresh'). by rewrite Hrest, (assoc_L (++)).
Qed.

Lemma loop_unpruned_computes (player : Z)
    (loop : (ref → Store → num * Store) → ref → list Z → num → Store
            → num * Store)
    (pick : num → num → num)
    (child : ref → Store → num * Store) (cv : Grid → num) (board : ref) :
  (∀ child board col moves best σ,
     loop child board (col :: moves) best σ =
     let '(boardCopy, σ1) := clone board σ in
     let '(_, σ2) := dropToken boardCopy col player σ1 in
     let '(score, σ3) := child boardCopy σ2 in
     loop child board moves (pick best score) σ3) →
  (∀ child board best σ, loop child board [] best σ = (best, σ)) →
  (∀ b σ, valid_board σ b → computes (child b) σ (cv (grid_of σ b))) →
  ∀ moves best σ,
    valid_board σ board →
    computes (loop child board moves best) σ
      (foldl (λ best g, pick best (cv g)) best
         (child_grid (grid_of σ board) player <$> moves)).
Proof.
  intros Hcons Hnil Hchild.
  induction moves as [|col moves IH]; intros best σ Hvalid.
  - exists []. rewrite Hnil. simpl. by rewrite app_nil_r.
  - destruct (clone_dropToken σ board col player Hvalid)
      as (row & Hclone & Hdrop & Hcopy & Hgrid).
    unfold computes. rewrite Hcons, Hclone, Hdrop. cbn [fmap list_fmap foldl].
    destruct (computes_app _ _ _ _ (Hchild (length σ) _ Hcopy))
      as [fresh Hrun].
    rewrite Hrun, Hgrid.
    destruct (IH (pick best (cv (child_grid (grid_of σ board) player col)))
                 (σ ++ fresh) (valid_board_app _ _ _ Hvalid))
      as [fresh' Hrest].
    rewrite (grid_of_app _ _ _ Hvalid) in Hrest.
    exists (fresh ++ fresh'). by rewrite Hrest, (assoc_L (++)).
Qed.

Lemma minimax_unfold (depth : nat) (board : ref) (alpha beta : num)
    (isMaximizing : bool) (σ : Store) :
  minimax this depth board alpha beta isMaximizing σ =
  match decided this depth (grid_of σ board) with
  | Some score => (score, σ)
  | None =>
      match depth with
      | O => (Fin (evaluateBoard this (grid_of σ board)), σ)
      | S depth' =>
          if isMaximizing then
            max_loop this
              (λ b α β σ', minimax this depth' b α β false σ')
              board beta (orderMoves (getValidMoves (grid_of σ board)))
              NegInf alpha σ
          else
            min_loop this
              (λ b α β σ', minimax this depth' b α β true σ')
              board alpha (orderMoves (getValidMoves (grid_of σ board)))
              PosInf beta σ
      end
  end.
Proof.
  destruct depth; cbn [minimax]; unfold decided;
    repeat (case_bool_decide; [done|]); by destruct (isBoardFull _).
Qed.

Lemma minimax_unpruned_unfold (depth : nat) (board : ref)
    (isMaximizing : bool) (σ : Store) :
  minimax_unpruned this depth board isMaximizing σ =
  match decided this depth (grid_of σ board) with
  | Some score => (score, σ)
  | None =>
      match depth with
      | O => (Fin (evaluateBoard this (grid_of σ board)), σ)
      | S depth' =>
          if isMaximizing then
            max_loop_unpruned this
              (λ b σ', minimax_unpruned this depth' b false σ')
              board (orderMoves (getValidMoves (grid_of σ board))) NegInf σ
          else
            min_loop_unpruned this
              (λ b σ', minimax_unpruned this depth' b true σ')
              board (orderMoves (getValidMoves (grid_of σ board))) PosInf σ
      end
  end.
Proof.
  destruct depth; cbn [minimax_unpruned]; unfold decided;
    repeat (case_bool_decide; [done|]); by destruct (isBoardFull _).
Qed.

Lemma computes_ret {A : Type} (value : A) (σ : Store) :
  computes (λ σ', (value, σ')) σ value.
Proof. exists []. by rewrite app_nil_r. Qed.

(** [minimax] returns [alphabeta] of the grid of its board. *)
Lemma minimax_computes (depth : nat) :
  ∀ board alpha beta isMaximizing σ,
    valid_board σ board →
    computes (minimax this depth board alpha beta isMaximizing) σ
      (alphabeta this depth (grid_of σ board) alpha beta isMaximizing).
Proof.
  induction depth as [|depth IH];
    intros board alpha beta isMaximizing σ Hvalid;
    unfold computes; rewrite minimax_unfold; cbn [alphabeta];
    (destruct (decided _ _ _); [apply computes_ret|]).
  - apply computes_ret.
  - destruct isMaximizing.
    + apply max_loop_computes; [|done]. intros b α β σ' Hb. by apply IH.
    + apply min_loop_computes; [|done]. intros b α β σ' Hb. by apply IH.
Qed.

(** [minimax_unpruned] returns [plain] of the grid of its board. *)
Lemma minimax_unpruned_computes (depth : nat) :
  ∀ board isMaximizing σ,
    valid_board σ board →
    computes (minimax_unpruned this depth board isMaximizing) σ
      (plain this depth (grid_of σ board) isMaximizing).
Proof.
  induction depth as [|depth IH]; intros board isMaximizing σ Hvalid;
    unfold computes; rewrite minimax_unpruned_unfold; cbn [plain];
    (destruct (decided _ _ _); [apply computes_ret|]).
  - apply computes_ret.
  - destruct isMaximizing.
    + apply (loop_unpruned_computes (aiPlayer this)
               (max_loop_unpruned this) num_max); [done..| |done].
      intros b σ' Hb. by apply IH.
    + apply (loop_unpruned_computes (humanPlayer this)
               (min_loop_unpruned this) num_min); [done..| |done].
      intros b σ' Hb. by apply IH.
Qed.

(** The loop of [getBestMove] picks as [best_of] does. *)
Lemma best_loop_computes (score_of : ref → Store → num * Store)
    (cv : Grid → num) (board : ref) :
  (∀ b σ, valid_board σ b → computes (score_of b) σ (cv (grid_of σ b))) →
  ∀ moves bestScore bestMove σ,
    valid_board σ board →
    computes (best_loop this score_of board moves bestScore bestMove) σ
      (best_of (λ col, cv (child_grid (grid_of σ board) (aiPlayer this) col))
         moves bestScore bestMove).
Proof.
  intros Hscore.
  induction moves as [|col moves IH]; intros bestScore bestMove σ Hvalid.
  - exists []. simpl. by rewrite app_nil_r.
  - destruct (clone_dropToken σ board col (aiPlayer this) Hvalid)
      as (row & Hclone & Hdrop & Hcopy & Hgrid).
    unfold computes. cbn [best_loop best_of]. rewrite Hclone, Hdrop.
    destruct (computes_app _ _ _ _ (Hscore (length σ) _ Hcopy))
      as [fresh Hrun].
    rewrite Hrun, Hgrid.
    destruct (num_ltb bestScore _).
    + destruct (IH (cv (child_grid (grid_of σ board) (aiPlayer this) col)) col
                   (σ ++ fresh) (valid_board_app _ _ _ Hvalid))
        as [fresh' Hrest].
      rewrite (grid_of_app _ _ _ Hvalid) in Hrest.
      exists (fresh ++ fresh'). by rewrite Hrest, (assoc_L (++)).
    + destruct (IH bestScore bestMove
                   (σ ++ fresh) (valid_board_app _ _ _ Hvalid))
        as [fresh' Hrest].
      rewrite (grid_of_app _ _ _ Hvalid) in Hrest.
      exists (fresh ++ fresh'). by rewrite Hrest, (assoc_L (++)).
Qed.

End loops.

(** *** The cut-off does not change the value *)

Lemma foldl_max_ge (f : Grid → num) (grids : list Grid) (acc : num) :
  num_le acc (foldl (λ best g, num_max best (f g)) acc grids).
Proof.
  revert acc. induction grids as [|g grids IH]; intros acc; simpl.
  - num_order.
  - specialize (IH (num_max acc (f g))). revert IH.
    generalize (foldl (λ best g0, num_max best (f g0)) (num_max acc (f g))
                  grids).
    generalize (f g). intros. num_solve.
Qed.

Lemma foldl_min_le (f : Grid → num) (grids : list Grid) (acc : num) :
  num_le (foldl (λ best g, num_min best (f g)) acc grids) acc.
Proof.
  revert acc. induction grids as [|g grids IH]; intros acc; simpl.
  - num_order.
  - specialize (IH (num_min acc (f g))). revert IH.
    generalize (foldl (λ best g0, num_min best (f g0)) (num_min acc (f g))
                  grids).
    generalize (f g). intros. num_solve.
Qed.

(** The maximizing loop, entered with window [(alpha0, beta)]. While it
    runs, [best] bounds the exact maximum [V] of the children seen from
    above and equals it once it exceeds [alpha0]. *)
Lemma max_cut_bracket (cv : Grid → num → num → num) (v : Grid → num)
    (alpha0 beta : num) (grids : list Grid) :
  (∀ g a b, g ∈ grids → num_lt a b → bracket a b (cv g a b) (v g)) →
  ∀ best alpha V,
    alpha = num_max alpha0 best →
    num_lt alpha beta →
    num_le V best →
    (num_lt alpha0 best → best = V) →
    bracket alpha0 beta (max_cut cv beta grids best alpha)
      (foldl (λ best g, num_max best (v g)) V grids).
Proof.
  induction grids as [|g grids IH]; intros Hchild best alpha V Ha Hlt HV Hbest.
  - simpl. subst alpha. num_solve.
  - cbn [max_cut foldl].
    pose proof (Hchild g alpha beta ltac:(by left) Hlt) as Hg.
    destruct (num_leb beta (num_max alpha (cv g alpha beta))) eqn:Hcut.
    + pose proof (foldl_max_ge v grids (num_max V (v g))) as Hge.
      revert Hge.
      generalize (foldl (λ best0 g0, num_max best0 (v g0)) (num_max V (v g))
                    grids).
      change (num_le beta (num_max alpha (cv g alpha beta))) in Hcut.
      revert Hg Hcut. generalize (cv g alpha beta). generalize (v g).
      intros vg s Hg Hcut W Hge. subst alpha. clear IH Hchild. num_solve.
    + change (num_lt (num_max alpha (cv g alpha beta)) beta) in Hcut.
      apply IH; [intros g' a b Hin; apply Hchild; by right|..|done| |];
        revert Hg Hcut; generalize (cv g alpha beta); generalize (v g);
        intros vg s Hg Hcut; subst alpha; clear IH Hchild; num_solve.
Qed.

(** The minimizing loop, entered with window [(alpha, beta0)]. *)
Lemma min_cut_bracket (cv : Grid → num → num → num) (v : Grid → num)
    (alpha beta0 : num) (grids : list Grid) :
  (∀ g a b, g ∈ grids → num_lt a b → bracket a b (cv g a b) (v g)) →
  ∀ best beta V,
    beta = num_min beta0 best →
    num_lt alpha beta →
    num_le best V →
    (num_lt best beta0 → best = V) →
    bracket alpha beta0 (min_cut cv alpha grids best beta)
      (foldl (λ best g, num_min best (v g)) V grids).
Proof.
  induction grids as [|g grids IH]; intros Hchild best beta V Hb Hlt HV Hbest.
  - simpl. subst beta. num_solve.
  - cbn [min_cut foldl].
    pose proof (Hchild g alpha beta ltac:(by left) Hlt) as Hg.
    destruct (num_leb (num_min beta (cv g alpha beta)) alpha) eqn:Hcut.
    + pose proof (foldl_min_le v grids (num_min V (v g))) as Hge.
      revert Hge.
      generalize (foldl (λ best0 g0, num_min best0 (v g0)) (num_min V (v g))
                    grids).
      change (num_le (num_min beta (cv g alpha beta)) alpha) in Hcut.
      revert Hg Hcut. generalize (cv g alpha beta). generalize (v g).
      intros vg s Hg Hcut W Hge. subst beta. clear IH Hchild. num_solve.
    + change (num_lt alpha (num_min beta (cv g alpha beta))) in Hcut.
      apply IH; [intros g' a b Hin; apply Hchild; by right|..|done| |];
        revert Hg Hcut; generalize (cv g alpha beta); generalize (v g);
        intros vg s Hg Hcut; subst beta; clear IH Hchild; num_solve.
Qed.

(** With a window that is not empty, the search with cut-offs returns
    the exact value when that lies inside the window, and otherwise a
    bound on the side where it lies outside. *)
Lemma alphabeta_bracket (this : AI) (depth : nat) :
  ∀ grid alpha beta isMaximizing,
    num_lt alpha beta →
    bracket alpha beta (alphabeta this depth grid alpha beta isMaximizing)
      (plain this depth grid isMaximizing).
Proof.
  induction depth as [|depth IH]; intros grid alpha beta isMaximizing Hlt;
    cbn [alphabeta plain]; (destruct (decided _ _ _); [num_solve|]).
  - num_solve.
  - destruct isMaximizing.
    + apply max_cut_bracket; [intros; by apply IH| |done|done|done].
      pose proof (num_le_NegInf alpha). num_solve.
    + apply min_cut_bracket; [intros; by apply IH| |done|..].
      * pose proof (num_le_PosInf beta). num_solve.
      * apply num_le_PosInf.
      * done.
Qed.

(** With the full window the two searches return the same value. *)
Lemma alphabeta_full_window (this : AI) (depth : nat) (grid : Grid)
    (isMaximizing : bool) :
  alphabeta this depth grid NegInf PosInf isMaximizing
  = plain this depth grid isMaximizing.
Proof.
  pose proof (alphabeta_bracket this depth grid NegInf PosInf isMaximizing
                eq_refl) as Hb.
  revert Hb. generalize (alphabeta this depth grid NegInf PosInf isMaximizing).
  generalize (plain this depth grid isMaximizing). intros v r Hb.
  pose proof (num_le_NegInf r). pose proof (num_le_PosInf r).
  pose proof (num_le_NegInf v). pose proof (num_le_PosInf v).
  num_solve.
Qed.

(** *** [getBestMove] *)

Lemma best_of_ext (f g : Z → num) (moves : list Z) (bestScore : num)
    (bestMove : Z) :
  (∀ col, f col = g col) →
  best_of f moves bestScore bestMove = best_of g moves bestScore bestMove.
Proof.
  intros Hfg. revert bestScore bestMove.
  induction moves as [|col moves IH]; intros bestScore bestMove; simpl; [done|].
  rewrite Hfg. destruct (num_ltb bestScore (g col)); apply IH.
Qed.

Lemma search_computes (this : AI) (depth : nat) (board : ref)
    (validMoves : list Z) (σ : Store) :
  valid_board σ board →
  computes (search this depth board validMoves) σ
    (best_of (root_score this depth (grid_of σ board))
       (orderMoves validMoves) NegInf (nth_move validMoves 0)).
Proof.
  intros Hvalid. unfold search.
  apply (best_loop_computes this _
           (λ g, alphabeta this (depth - 1) g NegInf PosInf false));
    [|done].
  intros b σ' Hb. by apply minimax_computes.
Qed.

Lemma search_unpruned_computes (this : AI) (depth : nat) (board : ref)
    (validMoves : list Z) (σ : Store) :
  valid_board σ board →
  computes (search_unpruned this depth board validMoves) σ
    (best_of (root_score this depth (grid_of σ board))
       (orderMoves validMoves) NegInf (nth_move validMoves 0)).
Proof.
  intros Hvalid. unfold search_unpruned.
  destruct (best_loop_computes this
              (λ b σ', minimax_unpruned this (depth - 1) b false σ')
              (λ g, plain this (depth - 1) g false) board)
    with (moves := orderMoves validMoves) (bestScore := NegInf)
         (bestMove := nth_move validMoves 0) (σ := σ) as [fresh Hrun];
    [|done|].
  { intros b σ' Hb. by apply minimax_unpruned_computes. }
  exists fresh. rewrite Hrun. f_equal. apply best_of_ext.
  intros col. unfold root_score. by rewrite alphabeta_full_window.
Qed.

(** C1. On a board of the store, the search with the two cut-offs and
    the search without them agree: [minimax] called with the full window
    returns the value of [minimax_unpruned] at every depth and for either
    player to move, the root loop picks the same column at every depth
    and for every list of moves, and [getBestMove] returns the same
    column as [getBestMove_unpruned], whatever the difficulty and the
    random draws. *)
Theorem pruning_preserves_best_move (this : AI) (random : Random)
    (board : ref) (σ : Store) :
  valid_board σ board →
  (∀ depth isMaximizing,
     (minimax this depth board NegInf PosInf isMaximizing σ).1
     = (minimax_unpruned this depth board isMaximizing σ).1)
  ∧ (∀ depth validMoves,
       (search this depth board validMoves σ).1
       = (search_unpruned this depth board validMoves σ).1)
  ∧ (getBestMove this random board σ).1
    = (getBestMove_unpruned this random board σ).1.
Proof.
  intros Hvalid.
  assert (Hsearch : ∀ depth validMoves,
            (search this depth board validMoves σ).1
            = (search_unpruned this depth board validMoves σ).1).
  { intros depth validMoves.
    destruct (search_computes this depth board validMoves σ Hvalid)
      as [fresh ->].
    by destruct (search_unpruned_computes this depth board validMoves σ Hvalid)
      as [fresh' ->]. }
  split; [|split; [done|]].
  - intros depth isMaximizing.
    destruct (minimax_computes this depth board NegInf PosInf isMaximizing σ
                Hvalid) as [fresh ->].
    destruct (minimax_unpruned_computes this depth board isMaximizing σ Hvalid)
      as [fresh' ->].
    simpl. apply alphabeta_full_window.
  - unfold getBestMove, getBestMove_unpruned.
    destruct (length _ =? 0)%nat; [done|].
    destruct (length _ =? 1)%nat; [done|].
    destruct (_ && _); [done|]. apply Hsearch.
Qed.

(** C1, on the empty board at the middle difficulty. *)
Lemma pruning_preserves_best_move_witness :
  (∀ depth isMaximizing,
     (minimax (new MEDIUM) depth 0%nat NegInf PosInf isMaximizing [reset]).1
     = (minimax_unpruned (new MEDIUM) depth 0%nat isMaximizing [reset]).1)
  ∧ (∀ depth validMoves,
       (search (new MEDIUM) depth 0%nat validMoves [reset]).1
       = (search_unpruned (new MEDIUM) depth 0%nat validMoves [reset]).1)
  ∧ (getBestMove (new MEDIUM) (mkRandom false 0) 0%nat [reset]).1
    = (getBestMove_unpruned (new MEDIUM) (mkRandom false 0) 0%nat [reset]).1.
Proof.
  apply (pruning_preserves_best_move (new MEDIUM) (mkRandom false 0) 0%nat
           [reset]).
  exists reset. split; [reflexivity|apply wf_grid_reset].
Defined.

Lemma getBestMove_computes (this : AI) (random : Random) (board : ref)
    (σ : Store) :
  valid_board σ board →
  ∃ fresh, (getBestMove this random board σ).2 = σ ++ fresh.
Proof.
  intros Hvalid. unfold getBestMove.
  destruct (length _ =? 0)%nat; [exists []; by rewrite app_nil_r|].
  destruct (length _ =? 1)%nat; [exists []; by rewrite app_nil_r|].
  destruct (_ && _); [exists []; by rewrite app_nil_r|].
  destruct (search_computes this (search_depth this) board
              (getValidMoves (grid_of σ board)) σ Hvalid) as [fresh ->].
  by exists fresh.
Qed.

(** C8. [getBestMove] only adds boards to the store: the board it is
    given, like every board that existed, has the grid it had.  [clone]
    returns a new reference whose grid equals that of the original and
    leaves the boards that existed as they were; a [dropToken] or
    [setCell] on the copy does not change the original, nor one on the
    original the copy. *)
Theorem getBestMove_leaves_board (this : AI) (random : Random) (board : ref)
    (σ : Store) (grid : Grid) :
  σ !! board = Some grid → wf_grid grid →
  (∀ b g, σ !! b = Some g → (getBestMove this random board σ).2 !! b = Some g)
  ∧ (let copy := (clone board σ).1 in
     let σ1 := (clone board σ).2 in
     copy ≠ board
     ∧ σ !! copy = None
     ∧ σ1 !! copy = Some grid
     ∧ (∀ b g, σ !! b = Some g → σ1 !! b = Some g)
     ∧ (∀ col player, (dropToken copy col player σ1).2 !! board = Some grid)
     ∧ (∀ col player, (dropToken board col player σ1).2 !! copy = Some grid)
     ∧ (∀ row col value, setCell copy row col value σ1 !! board = Some grid)
     ∧ (∀ row col value, setCell board row col value σ1 !! copy = Some grid)).
Proof.
  intros Hthis Hwf.
  assert (Hvalid : valid_board σ board) by by exists grid.
  assert (Hlt : (board < length σ)%nat) by by eapply lookup_lt_Some.
  split.
  - intros b g Hb. destruct (getBestMove_computes this random board σ Hvalid)
      as [fresh ->].
    by apply lookup_app_l_Some.
  - rewrite (clone_spec σ board grid) by done. simpl.
    assert (Hcopy : (σ ++ [grid]) !! length σ = Some grid)
      by by rewrite list_lookup_middle.
    assert (Horig : (σ ++ [grid]) !! board = Some grid)
      by by apply lookup_app_l_Some.
    split; [lia|]. split; [by apply lookup_ge_None_2|]. split; [done|].
    split; [intros b g Hb; by apply lookup_app_l_Some|].
    split; [intros; rewrite dropToken_other by lia; done|].
    split; [intros; rewrite dropToken_other by lia; done|].
    split; intros; rewrite setCell_other by lia; done.
Qed.

(** C8, on a store that holds the empty board. *)
Lemma getBestMove_leaves_board_witness :
  (∀ b g, [reset] !! b = Some g →
     (getBestMove (new HARD) (mkRandom false 0) 0%nat [reset]).2 !! b = Some g)
  ∧ (let copy := (clone 0%nat [reset]).1 in
     let σ1 := (clone 0%nat [reset]).2 in
     copy ≠ 0%nat
     ∧ [reset] !! copy = None
     ∧ σ1 !! copy = Some reset
     ∧ (∀ b g, [reset] !! b = Some g → σ1 !! b = Some g)
     ∧ (∀ col player, (dropToken copy col player σ1).2 !! 0%nat = Some reset)
     ∧ (∀ col player, (dropToken 0%nat col player σ1).2 !! copy = Some reset)
     ∧ (∀ row col value, setCell copy row col value σ1 !! 0%nat = Some reset)
     ∧ (∀ row col value, setCell 0%nat row col value σ1 !! copy = Some reset)).
Proof.
  apply (getBestMove_leaves_board (new HARD) (mkRandom false 0) 0%nat [reset]
           reset).
  - reflexivity.
  - apply wf_grid_reset.
Defined.

Lemma seqZ_COLS : seqZ 0 COLS = [0; 1; 2; 3; 4; 5; 6].
Proof. reflexivity. Qed.

(** C5. When every column is full [getBestMove] returns [-1]; when one
    column is not full and every other one is, it returns that column.
    In both cases the store is returned as it was: no copy was made and
    no search ran, whatever the difficulty and the random draws. *)
Theorem getBestMove_few_moves (this : AI) (random : Random) (board : ref)
    (σ : Store) :
  ((∀ col, isColumnFull (grid_of σ board) col = true) →
   getValidMoves (grid_of σ board) = []
   ∧ getBestMove this random board σ = (-1, σ))
  ∧ (∀ col,
       isColumnFull (grid_of σ board) col = false →
       (∀ c, c ≠ col → isColumnFull (grid_of σ board) c = true) →
       getValidMoves (grid_of σ board) = [col]
       ∧ getBestMove this random board σ = (col, σ)).
Proof.
  split.
  - intros Hfull.
    assert (Hmoves : getValidMoves (grid_of σ board) = []).
    { unfold getValidMoves. rewrite seqZ_COLS. cbn [getValidMoves_loop].
      by rewrite !Hfull. }
    split; [done|]. unfold getBestMove. by rewrite Hmoves.
  - intros col Hcol Hothers.
    assert (Hmoves : getValidMoves (grid_of σ board) = [col]).
    { destruct (isColumnFull_false _ _ Hcol) as (Hc & _).
      unfold getValidMoves. rewrite seqZ_COLS. cbn [getValidMoves_loop].
      unfold COLS in Hc.
      assert (Hcases : col = 0 ∨ col = 1 ∨ col = 2 ∨ col = 3 ∨ col = 4
                       ∨ col = 5 ∨ col = 6) by lia.
      destruct Hcases as [->|[->|[->|[->|[->|[->| ->]]]]]];
        rewrite Hcol; rewrite !Hothers by done; reflexivity. }
    split; [done|]. unfold getBestMove. by rewrite Hmoves.
Qed.

(** C5, on a board whose only free cell is the top of column 4. *)
Lemma getBestMove_few_moves_witness :
  let grid := write (replicate 6 (replicate 7 PLAYER_1)) 5 4 EMPTY in
  getValidMoves (grid_of [grid] 0%nat) = [4]
  ∧ getBestMove (new EASY) (mkRandom true 5) 0%nat [grid] = (4, [grid]).
Proof.
  apply (getBestMove_few_moves (new EASY) (mkRandom true 5) 0%nat
           [write (replicate 6 (replicate 7 PLAYER_1)) 5 4 EMPTY]).
  - reflexivity.
  - intros c Hc. unfold isColumnFull.
    destruct (findLowestRow_spec
                (grid_of [write (replicate 6 (replicate 7 PLAYER_1)) 5 4 EMPTY]
                   0%nat) c) as [[-> _]|(Hcb & Hr & Hcell & _)]; [done|].
    exfalso. unfold ROWS, COLS in *.
    set (r := findLowestRow _ c) in *.
    assert (Hrc : r = 0 ∨ r = 1 ∨ r = 2 ∨ r = 3 ∨ r = 4 ∨ r = 5) by lia.
    assert (Hcc : c = 0 ∨ c = 1 ∨ c = 2 ∨ c = 3 ∨ c = 5 ∨ c = 6) by lia.
    clearbody r.
    destruct Hrc as [->|[->|[->|[->|[->| ->]]]]];
      destruct Hcc as [->|[->|[->|[->|[->| ->]]]]];
      vm_compute in Hcell; discriminate.
Defined.

(** *** The checks at the head of [minimax] *)

Lemma first_hit_Some (body : Z → option Z) (range : list Z) (cell : Z) :
  first_hit body range = Some cell → ∃ i, i ∈ range ∧ body i = Some cell.
Proof.
  induction range as [|i range IH]; simpl; [done|].
  destruct (body i) as [c|] eqn:Hi.
  - intros [= ->]. exists i. split; [by left|done].
  - intros Hrest. destruct (IH Hrest) as (j & Hj & Hbody).
    exists j. split; [by right|done].
Qed.

Lemma first_hit_None (body : Z → option Z) (range : list Z) :
  first_hit body range = None → ∀ i, i ∈ range → body i = None.
Proof.
  induction range as [|i range IH]; simpl; intros Hnone j Hj.
  - by apply elem_of_nil in Hj.
  - destruct (body i) eqn:Hi; [done|].
    apply elem_of_cons in Hj as [->|Hj]; [done|]. by apply IH.
Qed.

Lemma window_winner_Some (grid : Grid) (row col dRow dCol cell : Z) :
  window_winner grid row col dRow dCol = Some cell ↔
  cell ≠ EMPTY ∧ four_in_line grid row col (dRow, dCol) cell.
Proof.
  unfold window_winner, four_in_line. simpl. split.
  - destruct (_ && _) eqn:Hall; [|done]. intros Hcell.
    rewrite !andb_true_iff, !bool_decide_eq_true in Hall.
    destruct Hall as [[[Hne H1] H2] H3]. rewrite Hcell in *.
    split; [congruence|]. intros k Hk.
    assert (Hcases : k = 0 ∨ k = 1 ∨ k = 2 ∨ k = 3) by lia.
    destruct Hcases as [->|[->|[->| ->]]].
    + by rewrite Z.mul_0_l, !Z.add_0_r.
    + by rewrite !Z.mul_1_l.
    + done.
    + done.
  - intros [Hne Hline].
    pose proof (Hline 0 ltac:(lia)) as H0.
    pose proof (Hline 1 ltac:(lia)) as H1.
    pose proof (Hline 2 ltac:(lia)) as H2.
    pose proof (Hline 3 ltac:(lia)) as H3.
    rewrite Z.mul_0_l, !Z.add_0_r in H0. rewrite !Z.mul_1_l in H1.
    rewrite H0, H1, H2, H3.
    rewrite !bool_decide_eq_true_2; [done..|congruence].
Qed.

Lemma scan_Some (grid : Grid) (outer inner : list Z)
    (win : Z → Z → option Z) (cell : Z) :
  first_hit (λ i, first_hit (λ j, win i j) inner) outer = Some cell →
  ∃ i j, i ∈ outer ∧ j ∈ inner ∧ win i j = Some cell.
Proof.
  intros Hhit. apply first_hit_Some in Hhit as (i & Hi & Hhit).
  apply first_hit_Some in Hhit as (j & Hj & Hhit). by exists i, j.
Qed.

Lemma scan_None (grid : Grid) (outer inner : list Z) (win : Z → Z → option Z) :
  first_hit (λ i, first_hit (λ j, win i j) inner) outer = None →
  ∀ i j, i ∈ outer → j ∈ inner → win i j = None.
Proof.
  intros Hnone i j Hi Hj.
  by apply (first_hit_None _ _ (first_hit_None _ _ Hnone i Hi)).
Qed.

(** [checkWinner] returns a value only if four cells in a row hold it. *)
Lemma checkWinner_Some (grid : Grid) (cell : Z) :
  checkWinner grid = Some cell →
  cell ≠ EMPTY
  ∧ ∃ row col d, d ∈ SCANS ∧ four_in_line grid row col d cell.
Proof.
  unfold checkWinner.
  destruct (first_hit _ (seqZ 0 ROWS)) as [c|] eqn:Hh.
  { intros [= ->]. apply (scan_Some grid) in Hh as (row & col & _ & _ & Hw).
    apply window_winner_Some in Hw as [Hne Hline]. split; [done|].
    exists row, col, (0, 1). split; [|done]. unfold SCANS. set_solver. }
  destruct (first_hit _ (seqZ 0 COLS)) as [c|] eqn:Hv.
  { intros [= ->]. apply (scan_Some grid) in Hv as (col & row & _ & _ & Hw).
    apply window_winner_Some in Hw as [Hne Hline]. split; [done|].
    exists row, col, (1, 0). split; [|done]. unfold SCANS. set_solver. }
  destruct (first_hit _ (seqZ 0 (ROWS - 3))) as [c|] eqn:Hp.
  { intros [= ->]. apply (scan_Some grid) in Hp as (row & col & _ & _ & Hw).
    apply window_winner_Some in Hw as [Hne Hline]. split; [done|].
    exists row, col, (1, 1). split; [|done]. unfold SCANS. set_solver. }
  intros Hn. apply (scan_Some grid) in Hn as (row & col & _ & _ & Hw).
  apply window_winner_Some in Hw as [Hne Hline]. split; [done|].
  exists row, col, (-1, 1). split; [|done]. unfold SCANS. set_solver.
Qed.

(** [checkWinner] scans the whole board: when it returns [null] no four
    cells in a row, anywhere and in any of the four directions, hold the
    same token. *)
Lemma checkWinner_None (grid : Grid) :
  checkWinner grid = None →
  ∀ row col d value,
    d ∈ SCANS → value ≠ EMPTY → ¬ four_in_line grid row col d value.
Proof.
  unfold checkWinner.
  destruct (first_hit _ (seqZ 0 ROWS)) as [c|] eqn:Hh; [done|].
  destruct (first_hit _ (seqZ 0 COLS)) as [c|] eqn:Hv; [done|].
  destruct (first_hit _ (seqZ 0 (ROWS - 3))) as [c|] eqn:Hp; [done|].
  intros Hn row col d value Hd Hne Hline.
  pose proof (getCell_Some_bounds _ _ _ _ (Hline 0 ltac:(lia))) as [Hr0 Hc0].
  pose proof (getCell_Some_bounds _ _ _ _ (Hline 3 ltac:(lia))) as [Hr3 Hc3].
  unfold ROWS, COLS in *.
  assert (Hw : window_winner grid row col d.1 d.2 = Some value).
  { apply window_winner_Some. by destruct d. }
  unfold SCANS in Hd. rewrite !elem_of_cons, elem_of_nil in Hd.
  destruct Hd as [->|[->|[->|[->|[]]]]]; cbn [fst snd] in *.
  - rewrite (scan_None grid _ _ _ Hh row col) in Hw; [done|..];
      apply elem_of_seqZ; unfold ROWS, COLS; lia.
  - rewrite (scan_None grid _ _ _ Hv col row) in Hw; [done|..];
      apply elem_of_seqZ; unfold ROWS, COLS; lia.
  - rewrite (scan_None grid _ _ _ Hp row col) in Hw; [done|..];
      apply elem_of_seqZ; unfold ROWS, COLS; lia.
  - rewrite (scan_None grid _ _ _ Hn row col) in Hw; [done|..];
      apply elem_of_seqZ; unfold ROWS, COLS; lia.
Qed.



(** *** Valid moves and their order *)

Lemma getValidMoves_loop_filter (grid : Grid) (cols moves : list Z) :
  getValidMoves_loop grid cols moves
  = moves ++ filter (λ col, isColumnFull grid col = false) cols.
Proof.
  revert moves. induction cols as [|col cols IH]; intros moves; simpl.
  - by rewrite app_nil_r.
  - rewrite IH. destruct (isColumnFull grid col) eqn:Hfull; simpl.
    + by rewrite filter_cons_False by congruence.
    + by rewrite filter_cons_True, <- (assoc_L (++)) by done.
Qed.

(** [getValidMoves] lists the columns that are not full, left to right. *)
Lemma getValidMoves_filter (grid : Grid) :
  getValidMoves grid
  = filter (λ col, isColumnFull grid col = false) (seqZ 0 COLS).
Proof. unfold getValidMoves. by rewrite getValidMoves_loop_filter. Qed.

Lemma isBoardFull_loop_false (grid : Grid) (cols : list Z) :
  isBoardFull_loop grid cols = false →
  ∃ col, col ∈ cols ∧ isColumnFull grid col = false.
Proof.
  induction cols as [|col cols IH]; simpl; [done|].
  destruct (isColumnFull grid col) eqn:Hfull; simpl.
  - intros Hrest. destruct (IH Hrest) as (c & Hc & Hfree).
    exists c. split; [by right|done].
  - intros _. exists col. split; [by left|done].
Qed.

Lemma getValidMoves_nonempty (grid : Grid) :
  isBoardFull grid = false → getValidMoves grid ≠ [].
Proof.
  intros Hfull. apply isBoardFull_loop_false in Hfull as (col & Hcol & Hfree).
  rewrite getValidMoves_filter. intros Hnil.
  by apply (filter_nil_not_elem_of _ _ col Hnil).
Qed.

Lemma seqZ_sorted : StronglySorted Z.lt (seqZ 0 COLS).
Proof. rewrite seqZ_COLS. repeat constructor; lia. Qed.

Lemma getValidMoves_sorted (grid : Grid) :
  StronglySorted Z.lt (getValidMoves grid).
Proof.
  rewrite getValidMoves_filter. generalize seqZ_sorted.
  generalize (seqZ 0 COLS). induction l as [|x l IH]; intros Hs.
  - constructor.
  - apply StronglySorted_inv in Hs as [Hs Hx].
    destruct (decide (isColumnFull grid x = false)) as [Hfree|Hfull].
    + rewrite filter_cons_True by done. constructor; [by apply IH|].
      rewrite Forall_forall in *. intros y Hy.
      apply list_elem_of_filter in Hy as [_ Hy]. by apply Hx.
    + rewrite filter_cons_False by done. by apply IH.
Qed.

Section sort.
Context (cmp : Z → Z → Z).

Lemma sort_insert_perm (a : Z) (sorted : list Z) :
  sort_insert cmp a sorted ≡ₚ a :: sorted.
Proof.
  induction sorted as [|b sorted IH]; simpl; [done|].
  destruct (cmp a b <=? 0); [done|].
  rewrite IH. apply perm_swap.
Qed.

Lemma sort_perm (arr : list Z) : sort cmp arr ≡ₚ arr.
Proof.
  induction arr as [|a arr IH]; simpl; [done|].
  by rewrite sort_insert_perm, IH.
Qed.

End sort.

(** Putting a column to the left of all the columns of a center-out list
    into that list keeps it center-out. *)
Lemma sort_insert_center_out (a : Z) (sorted : list Z) :
  Forall (λ b, a < b) sorted →
  StronglySorted center_out sorted →
  StronglySorted center_out (sort_insert compareMoves a sorted).
Proof.
  induction sorted as [|b sorted IH]; intros Hlt Hs; simpl.
  - repeat constructor.
  - apply Forall_cons in Hlt as [Hab Hlt].
    apply StronglySorted_inv in Hs as [Hs Hb].
    unfold compareMoves at 1. destruct (Z.leb_spec (Z.abs (center - a)
      - Z.abs (center - b)) 0) as [Hle|Hgt].
    + constructor; [by constructor|]. constructor.
      * unfold center_out. lia.
      * rewrite Forall_forall in *. intros c Hc.
        specialize (Hlt c Hc). specialize (Hb c Hc).
        unfold center_out in *. lia.
    + constructor; [by apply IH|].
      rewrite Forall_forall in *. intros c Hc.
      rewrite sort_insert_perm in Hc. apply elem_of_cons in Hc as [->|Hc].
      * unfold center_out. lia.
      * by apply Hb.
Qed.

(** [orderMoves] on columns listed left to right: the same columns, by
    distance from the center column, the left one first at equal
    distance. *)
Lemma orderMoves_center_out (moves : list Z) :
  StronglySorted Z.lt moves →
  StronglySorted center_out (orderMoves moves).
Proof.
  unfold orderMoves. induction moves as [|a moves IH]; intros Hs; simpl.
  - constructor.
  - apply StronglySorted_inv in Hs as [Hs Ha].
    apply sort_insert_center_out; [|by apply IH].
    rewrite Forall_forall in *. intros b Hb.
    rewrite sort_perm in Hb. by apply Ha.
Qed.

(** *** Scores are numbers *)

Lemma num_max_fin (a b : num) :
  a ≠ PosInf → is_fin b → is_fin (num_max a b).
Proof.
  intros Ha [z ->]. destruct a as [|x|]; [by exists z| |done].
  unfold num_max, num_leb. destruct (x <=? z); by eexists.
Qed.

Lemma num_min_fin (a b : num) :
  a ≠ NegInf → is_fin b → is_fin (num_min a b).
Proof.
  intros Ha [z ->]. destruct a as [|x|]; [done| |by exists z].
  unfold num_min, num_leb. destruct (x <=? z); by eexists.
Qed.

Lemma is_fin_inv (x : num) : is_fin x → x ≠ NegInf ∧ x ≠ PosInf.
Proof. by intros [z ->]. Qed.

Lemma max_cut_fin (cv : Grid → num → num → num) (beta : num)
    (grids : list Grid) (best alpha : num) :
  (∀ g a b, is_fin (cv g a b)) →
  best ≠ PosInf → is_fin best ∨ grids ≠ [] →
  is_fin (max_cut cv beta grids best alpha).
Proof.
  intros Hcv. revert best alpha.
  induction grids as [|g grids IH]; intros best alpha Hbest Hsome; simpl.
  - by destruct Hsome.
  - pose proof (num_max_fin best (cv g alpha beta) Hbest (Hcv _ _ _)) as Hfin.
    destruct (num_leb beta _); [done|].
    apply IH; [by apply is_fin_inv|by left].
Qed.

Lemma min_cut_fin (cv : Grid → num → num → num) (alpha : num)
    (grids : list Grid) (best beta : num) :
  (∀ g a b, is_fin (cv g a b)) →
  best ≠ NegInf → is_fin best ∨ grids ≠ [] →
  is_fin (min_cut cv alpha grids best beta).
Proof.
  intros Hcv. revert best beta.
  induction grids as [|g grids IH]; intros best beta Hbest Hsome; simpl.
  - by destruct Hsome.
  - pose proof (num_min_fin best (cv g alpha beta) Hbest (Hcv _ _ _)) as Hfin.
    destruct (num_leb _ alpha); [done|].
    apply IH; [by apply is_fin_inv|by left].
Qed.

Lemma children_nonempty (grid : Grid) (player : Z) :
  isBoardFull grid = false → children grid player ≠ [].
Proof.
  intros Hfull Hnil. apply fmap_nil_inv in Hnil. unfold orderMoves in Hnil.
  apply (getValidMoves_nonempty grid Hfull).
  apply Permutation_nil_r.
  rewrite <- (sort_perm compareMoves (getValidMoves grid)). by rewrite Hnil.
Qed.

(** [minimax] never returns an infinity. *)
Lemma alphabeta_fin (this : AI) (depth : nat) :
  ∀ grid alpha beta isMaximizing,
    is_fin (alphabeta this depth grid alpha beta isMaximizing).
Proof.
  induction depth as [|depth IH]; intros grid alpha beta isMaximizing;
    cbn [alphabeta]; unfold decided;
    repeat (case_bool_decide; [by eexists|]);
    (destruct (isBoardFull grid) eqn:Hfull; [by eexists|]).
  - by eexists.
  - destruct isMaximizing.
    + apply max_cut_fin; [intros; apply IH|done|].
      right. by apply children_nonempty.
    + apply min_cut_fin; [intros; apply IH|done|].
      right. by apply children_nonempty.
Qed.

(** *** The root loop returns the first best column *)

Lemma best_of_spec (f : Z → num) (moves : list Z) (bestScore : num)
    (bestMove : Z) :
  let r := best_of f moves bestScore bestMove in
  (r = bestMove ∧ ∀ c, c ∈ moves → num_le (f c) bestScore)
  ∨ (∃ i : nat, moves !! i = Some r
       ∧ num_lt bestScore (f r)
       ∧ (∀ j c, moves !! j = Some c → num_le (f c) (f r))
       ∧ (∀ j c, (j < i)%nat → moves !! j = Some c → num_lt (f c) (f r))).
Proof.
  revert bestScore bestMove.
  induction moves as [|col moves IH]; intros bestScore bestMove; simpl.
  - left. split; [done|]. intros c Hc. by apply elem_of_nil in Hc.
  - destruct (num_ltb bestScore (f col)) eqn:Hlt.
    + apply num_ltb_lt in Hlt. right.
      destruct (IH (f col) col) as [[-> Hall]|(i & Hi & Hbest & Hle & Hbefore)].
      * exists 0%nat. split; [done|]. split; [done|]. split.
        -- intros [|j] c Hc; simpl in Hc.
           ++ injection Hc as <-. num_order.
           ++ apply Hall. by eapply list_elem_of_lookup_2.
        -- intros j c Hj. lia.
      * exists (S i). split; [done|]. split; [num_order|]. split.
        -- intros [|j] c Hc; simpl in Hc.
           ++ injection Hc as <-. num_order.
           ++ by eapply Hle.
        -- intros [|j] c Hj Hc; simpl in Hc.
           ++ by injection Hc as <-.
           ++ apply (Hbefore j); [lia|done].
    + assert (Hle0 : num_le (f col) bestScore).
      { destruct (num_le_or_lt (f col) bestScore) as [|Hc]; [done|].
        apply num_ltb_lt in Hc. congruence. }
      destruct (IH bestScore bestMove)
        as [[-> Hall]|(i & Hi & Hbest & Hle & Hbefore)].
      * left. split; [done|]. intros c Hc.
        apply elem_of_cons in Hc as [->|Hc]; [done|by apply Hall].
      * right. exists (S i). split; [done|]. split; [done|]. split.
        -- intros [|j] c Hc; simpl in Hc.
           ++ injection Hc as <-. num_order.
           ++ by eapply Hle.
        -- intros [|j] c Hj Hc; simpl in Hc.
           ++ injection Hc as <-. num_order.
           ++ apply (Hbefore j); [lia|done].
Qed.

Lemma move_score_root (this : AI) (depth : nat) (board : ref) (σ : Store)
    (col : Z) :
  valid_board σ board →
  move_score this depth board σ col
  = root_score this depth (grid_of σ board) col.
Proof.
  intros Hvalid. unfold move_score, root_score.
  destruct (clone_dropToken σ board col (aiPlayer this) Hvalid)
    as (row & -> & -> & Hcopy & Hgrid).
  destruct (minimax_computes this (depth - 1) (length σ) NegInf PosInf false
              _ Hcopy) as [fresh ->].
  simpl. by rewrite Hgrid.
Qed.

(** C6. On a board with at least two columns that are not full, when
    the random branch of the easy difficulty is not taken: the loop of
    [getBestMove] visits the valid columns, which [getValidMoves] lists
    left to right, in the order [orderMoves] gives them, that is by
    distance from the center column and left before right at equal
    distance; the column returned is in that list, no column of the list
    scores higher, and every column before it scores strictly lower. *)
Theorem getBestMove_first_best (this : AI) (random : Random) (board : ref)
    (σ : Store) (grid : Grid) :
  σ !! board = Some grid → wf_grid grid →
  (2 ≤ length (getValidMoves grid))%nat →
  (difficulty this = EASY → below_06 random = false) →
  let validMoves := getValidMoves grid in
  let orderedMoves := orderMoves validMoves in
  let score := move_score this (search_depth this) board σ in
  let best := (getBestMove this random board σ).1 in
  validMoves = filter (λ col, isColumnFull grid col = false) (seqZ 0 COLS)
  ∧ orderedMoves ≡ₚ validMoves
  ∧ StronglySorted center_out orderedMoves
  ∧ ∃ i : nat, orderedMoves !! i = Some best
      ∧ (∀ j c, orderedMoves !! j = Some c → num_le (score c) (score best))
      ∧ (∀ j c, (j < i)%nat → orderedMoves !! j = Some c →
           num_lt (score c) (score best)).
Proof.
  intros Hthis Hwf Hlen Hrandom. cbv zeta.
  assert (Hvalid : valid_board σ board) by by exists grid.
  split; [apply getValidMoves_filter|].
  split; [apply sort_perm|].
  split; [apply orderMoves_center_out, getValidMoves_sorted|].
  assert (Hbest : (getBestMove this random board σ).1
                  = best_of (root_score this (search_depth this) grid)
                      (orderMoves (getValidMoves grid)) NegInf
                      (nth_move (getValidMoves grid) 0)).
  { unfold getBestMove. rewrite (grid_of_lookup _ _ _ Hthis).
    destruct (Nat.eqb_spec (length (getValidMoves grid)) 0); [lia|].
    destruct (Nat.eqb_spec (length (getValidMoves grid)) 1); [lia|].
    assert (Hbranch : bool_decide (difficulty this = EASY) && below_06 random
                      = false).
    { case_bool_decide; [by rewrite Hrandom|done]. }
    rewrite Hbranch.
    destruct (search_computes this (search_depth this) board
                (getValidMoves grid) σ Hvalid) as [fresh ->].
    simpl. by rewrite (grid_of_lookup _ _ _ Hthis). }
  assert (Hscore : ∀ c, move_score this (search_depth this) board σ c
                        = root_score this (search_depth this) grid c).
  { intros c.
    by rewrite (move_score_root _ _ _ _ _ Hvalid), (grid_of_lookup _ _ _ Hthis). }
  rewrite Hbest.
  destruct (best_of_spec (root_score this (search_depth this) grid)
              (orderMoves (getValidMoves grid)) NegInf
              (nth_move (getValidMoves grid) 0))
    as [[_ Hall]|(i & Hi & _ & Hle & Hbefore)].
  - (* some column is visited, and its score is a number *)
    exfalso.
    assert (Hsome : ∃ c, c ∈ orderMoves (getValidMoves grid)).
    { destruct (getValidMoves grid) as [|c rest] eqn:Hmoves;
        [simpl in Hlen; lia|].
      exists c. unfold orderMoves. rewrite sort_perm. by left. }
    destruct Hsome as [c Hc]. specialize (Hall c Hc).
    destruct (alphabeta_fin this (search_depth this - 1)
                (child_grid grid (aiPlayer this) c) NegInf PosInf false)
      as [z Hz].
    unfold root_score in Hall. by rewrite Hz in Hall.
  - exists i. split; [done|]. split.
    + intros j c Hc. rewrite !Hscore. by eapply Hle.
    + intros j c Hj Hc. rewrite !Hscore. by eapply Hbefore.
Qed.

(** C6, on a board with the tops of columns 3 and 5 free, where both
    moves score the same. *)
Lemma getBestMove_first_best_witness :
  let validMoves := getValidMoves two_left in
  let orderedMoves := orderMoves validMoves in
  let score := move_score (new HARD) (search_depth (new HARD)) 0%nat
                 [two_left] in
  let best := (getBestMove (new HARD) (mkRandom true 0) 0%nat [two_left]).1 in
  validMoves
  = filter (λ col, isColumnFull two_left col = false) (seqZ 0 COLS)
  ∧ orderedMoves ≡ₚ validMoves
  ∧ StronglySorted center_out orderedMoves
  ∧ ∃ i : nat, orderedMoves !! i = Some best
      ∧ (∀ j c, orderedMoves !! j = Some c → num_le (score c) (score best))
      ∧ (∀ j c, (j < i)%nat → orderedMoves !! j = Some c →
           num_lt (score c) (score best)).
Proof.
  apply (getBestMove_first_best (new HARD) (mkRandom true 0) 0%nat [two_left]
           two_left).
  - reflexivity.
  - split; [reflexivity|]. repeat constructor.
  - vm_compute. lia.
  - discriminate.
Defined.

End AIFacts.

(** ** Scenarios *)

Module Scenarios.
Import Board GameLogic AI SearchValue.

Example checkWin_empty_board :
  checkWin 8 reset 2 3 PLAYER_1 = Some None
  ∧ checkWin 8 reset 0 0 PLAYER_2 = Some None.
Proof. split; reflexivity. Qed.

Example checkWin_horizontal :
  checkWin 8 (played [(0, 1); (1, 1); (2, 1); (3, 1)]) 0 3 PLAYER_1
  = Some (Some (mkWinInfo PLAYER_1 [(0, 0); (0, 1); (0, 2); (0, 3)])).
Proof. reflexivity. Qed.

Example checkWin_diagonal :
  checkWin 8
    (played [(0, 1); (1, 2); (1, 1); (2, 2); (2, 2); (2, 1);
             (3, 2); (3, 2); (3, 2); (3, 1)]) 3 3 PLAYER_1
  = Some (Some (mkWinInfo PLAYER_1 [(0, 0); (1, 1); (2, 2); (3, 3)])).
Proof. reflexivity. Qed.

Example checkWin_trims_to_four :
  checkWin 8 (played [(0, 1); (1, 1); (3, 1); (4, 1); (2, 1)]) 0 2 PLAYER_1
  = Some (Some (mkWinInfo PLAYER_1 [(0, 0); (0, 1); (0, 2); (0, 3)])).
Proof. reflexivity. Qed.

Example orderMoves_all_columns :
  orderMoves [0; 1; 2; 3; 4; 5; 6] = [3; 2; 4; 1; 5; 0; 6].
Proof. reflexivity. Qed.

Example getBestMove_takes_win :
  (getBestMove (new EASY) (mkRandom false 0) 0%nat
     [played [(0, 2); (0, 1); (1, 2); (1, 1); (2, 2); (6, 1)]]).1 = 3.
Proof. vm_compute. reflexivity. Qed.

Example getBestMove_blocks :
  (getBestMove (new EASY) (mkRandom false 0) 0%nat
     [played [(0, 1); (6, 2); (1, 1); (6, 2); (2, 1)]]).1 = 3.
Proof. vm_compute. reflexivity. Qed.

End Scenarios.

(** ** More on the board *)

Module BoardMore.
Import Board Spec BoardFacts.

(** X1. [setCell] followed by [getCell]: inside the bounds the cell reads
    back the value written and no other cell of any board changes; outside
    the bounds [setCell] does nothing and [getCell] answers [null]. *)
Theorem setCell_getCell (σ : Store) (this : ref) (grid : Grid)
    (row col value : Z) :
  σ !! this = Some grid → wf_grid grid →
  let σ' := setCell this row col value σ in
  (0 ≤ row < ROWS ∧ 0 ≤ col < COLS →
   getCell (grid_of σ' this) row col = Some value)
  ∧ (¬ (0 ≤ row < ROWS ∧ 0 ≤ col < COLS) →
     σ' = σ ∧ getCell grid row col = None)
  ∧ (∀ r c, (r, c) ≠ (row, col) →
       getCell (grid_of σ' this) r c = getCell grid r c)
  ∧ wf_grid (grid_of σ' this)
  ∧ (∀ other, other ≠ this → σ' !! other = σ !! other).
Proof.
  intros Hthis Hwf. cbv zeta.
  assert (Hlt : (this < length σ)%nat) by by eapply lookup_lt_Some.
  unfold setCell. rewrite (grid_of_lookup _ _ _ Hthis).
  destruct (Z.geb_spec row 0), (Z.ltb_spec row ROWS), (Z.geb_spec col 0),
    (Z.ltb_spec col COLS); cbn [andb];
    try (split; [intros ?; lia|]; split;
         [intros _; split; [done|]; unfold getCell;
          repeat match goal with
                 | |- context [?a <? ?b] => destruct (Z.ltb_spec a b)
                 | |- context [?a >=? ?b] => destruct (Z.geb_spec a b)
                 end; cbn [orb]; first [done|lia]|];
         rewrite (grid_of_lookup _ _ _ Hthis); done).
  rewrite grid_of_insert_eq by done.
  split; [intros _; apply getCell_write_eq; [done|lia..]|].
  split; [intros Hout; lia|].
  split; [intros r c Hne; apply getCell_write_ne; [lia..|done]|].
  split; [by apply wf_grid_write|].
  intros other Hne. by apply list_lookup_insert_ne.
Qed.

(** [setCell]/[getCell], on the empty board. *)
Lemma setCell_getCell_witness :
  let σ' := setCell 0%nat 2 3 PLAYER_1 [reset] in
  (0 ≤ 2 < ROWS ∧ 0 ≤ 3 < COLS →
   getCell (grid_of σ' 0%nat) 2 3 = Some PLAYER_1)
  ∧ (¬ (0 ≤ 2 < ROWS ∧ 0 ≤ 3 < COLS) →
     σ' = [reset] ∧ getCell reset 2 3 = None)
  ∧ (∀ r c, (r, c) ≠ (2, 3) →
       getCell (grid_of σ' 0%nat) r c = getCell reset r c)
  ∧ wf_grid (grid_of σ' 0%nat)
  ∧ (∀ other, other ≠ 0%nat → σ' !! other = [reset] !! other).
Proof.
  apply (setCell_getCell [reset] 0%nat reset 2 3 PLAYER_1).
  - reflexivity.
  - apply wf_grid_reset.
Defined.

(** A column is full exactly when it is out of range or none of its
    cells reads [EMPTY]. *)
Lemma isColumnFull_true (grid : Grid) (col : Z) :
  isColumnFull grid col = true ↔
  (0 ≤ col < COLS → ∀ row, 0 ≤ row < ROWS → getCell grid row col ≠ Some EMPTY).
Proof.
  unfold isColumnFull. rewrite Z.eqb_eq. split.
  - intros Hfull Hc row Hr. rewrite getCell_read by done.
    destruct (findLowestRow_spec grid col) as [[_ Hall]|(_ & Hr' & _)];
      [by apply Hall|lia].
  - intros Hall.
    destruct (findLowestRow_spec grid col) as [[Hr _]|(Hc & Hr & Hcell & _)];
      [done|].
    destruct (Hall Hc _ Hr). by rewrite getCell_read.
Qed.

Lemma board_getValidMoves_loop_filter (grid : Grid) (cols moves : list Z) :
  getValidMoves_loop grid cols moves
  = moves ++ filter (λ col, isColumnFull grid col = false) cols.
Proof.
  revert moves. induction cols as [|col cols IH]; intros moves; simpl.
  - by rewrite app_nil_r.
  - rewrite IH. destruct (isColumnFull grid col) eqn:Hfull; simpl.
    + by rewrite filter_cons_False by congruence.
    + by rewrite filter_cons_True, <- (assoc_L (++)) by done.
Qed.

Lemma isFull_loop_Forall (grid : Grid) (cols : list Z) :
  isFull_loop grid cols = true ↔
  Forall (λ col, isColumnFull grid col = true) cols.
Proof.
  induction cols as [|col cols IH]; simpl; [by split; [constructor|]|].
  destruct (isColumnFull grid col) eqn:Hfull; simpl.
  - rewrite IH. split; [by constructor|]. by intros [_ H]%Forall_cons.
  - split; [done|]. intros [H _]%Forall_cons. congruence.
Qed.

Lemma AI_getValidMoves_loop (grid : Grid) (cols moves : list Z) :
  AI.getValidMoves_loop grid cols moves = getValidMoves_loop grid cols moves.
Proof.
  revert moves. induction cols as [|col cols IH]; intros moves; simpl; [done|].
  apply IH.
Qed.

Lemma AI_isBoardFull_loop (grid : Grid) (cols : list Z) :
  AI.isBoardFull_loop grid cols = isFull_loop grid cols.
Proof. induction cols as [|col cols IH]; simpl; [done|]. by rewrite IH. Qed.

(** X2. [getValidMoves] returns exactly the columns that are not full, each
    once, left to right, all of them in 0..6; it is empty exactly when
    [isFull] holds; and the engine's own [getValidMoves] and
    [isBoardFull] return what the board's methods return. *)
Theorem getValidMoves_spec (grid : Grid) :
  (∀ col, col ∈ getValidMoves grid ↔ isColumnFull grid col = false)
  ∧ (∀ col, col ∈ getValidMoves grid → 0 ≤ col < COLS)
  ∧ StronglySorted Z.lt (getValidMoves grid)
  ∧ (isFull grid = true ↔ getValidMoves grid = [])
  ∧ AI.getValidMoves grid = getValidMoves grid
  ∧ AI.isBoardFull grid = isFull grid.
Proof.
  assert (Hfilter : getValidMoves grid
            = filter (λ col, isColumnFull grid col = false) (seqZ 0 COLS)).
  { unfold getValidMoves. by rewrite board_getValidMoves_loop_filter. }
  assert (Hmem : ∀ col, col ∈ getValidMoves grid ↔
                        isColumnFull grid col = false).
  { intros col. rewrite Hfilter, list_elem_of_filter, elem_of_seqZ.
    split; [by intros [H _]|]. intros Hfree. split; [done|].
    destruct (isColumnFull_false _ _ Hfree) as [Hc _]. lia. }
  split; [done|]. split; [|split; [|split; [|split]]].
  - intros col Hcol. apply Hmem in Hcol.
    by destruct (isColumnFull_false _ _ Hcol) as [Hc _].
  - rewrite Hfilter.
    assert (Hs : StronglySorted Z.lt (seqZ 0 COLS))
      by (repeat constructor; lia).
    revert Hs. generalize (seqZ 0 COLS). induction l as [|x l IH]; intros Hs.
    + constructor.
    + apply StronglySorted_inv in Hs as [Hs Hx].
      destruct (decide (isColumnFull grid x = false)) as [Hfree|Hfull].
      * rewrite filter_cons_True by done. constructor; [by apply IH|].
        rewrite Forall_forall in *. intros y Hy.
        apply list_elem_of_filter in Hy as [_ Hy]. by apply Hx.
      * rewrite filter_cons_False by done. by apply IH.
  - unfold isFull. rewrite isFull_loop_Forall, Hfilter. split.
    + intros Hall. apply elem_of_nil_inv. intros col Hcol.
      apply list_elem_of_filter in Hcol as [Hfree Hcol].
      rewrite Forall_forall in Hall. specialize (Hall col Hcol). congruence.
    + intros Hnil. apply Forall_forall. intros col Hcol.
      destruct (isColumnFull grid col) eqn:Hfull; [done|].
      by destruct (filter_nil_not_elem_of _ _ col Hnil).
  - unfold AI.getValidMoves, getValidMoves. apply AI_getValidMoves_loop.
  - unfold AI.isBoardFull, isFull. apply AI_isBoardFull_loop.
Qed.

(** X3. [isFull] holds exactly when no cell of the board is empty. *)
Theorem isFull_no_empty_cell (grid : Grid) :
  isFull grid = true ↔
  ∀ row col, 0 ≤ row < ROWS → 0 ≤ col < COLS →
    getCell grid row col ≠ Some EMPTY.
Proof.
  unfold isFull. rewrite isFull_loop_Forall, Forall_forall. split.
  - intros Hall row col Hr Hc.
    apply (proj1 (isColumnFull_true grid col)); [|done..].
    apply Hall, elem_of_seqZ. lia.
  - intros Hcells col Hcol. apply isColumnFull_true. intros Hc row Hr.
    by apply Hcells.
Qed.

End BoardMore.

(** ** More on the win detector *)

Module GameLogicMore.
Import Board GameLogic Spec SearchValue LineSpec BoardFacts GameLogicFacts.

Local Arguments Nat.leb : simpl never.

(** A run cannot be shorter than a stretch of matching cells. *)
Lemma run_maximal (grid : Grid) (row col dRow dCol player : Z) (n : nat)
    (m : Z) :
  run grid row col dRow dCol player n →
  (∀ k, 1 ≤ k ≤ m →
     getCell grid (row + k * dRow) (col + k * dCol) = Some player) →
  m ≤ Z.of_nat n.
Proof.
  intros [_ Hstop] Hcells.
  destruct (Z.le_gt_cases m (Z.of_nat n)) as [|Hgt]; [done|].
  destruct Hstop. apply Hcells. lia.
Qed.

(** The cells an axis collects all hold [player] once the origin does. *)
Lemma axis_cells (grid : Grid) (row col player : Z) (d : Z * Z)
    (before after : nat) (k : Z) :
  getCell grid row col = Some player →
  axis grid row col player d before after →
  - Z.of_nat before ≤ k ≤ Z.of_nat after →
  getCell grid (row + k * d.1) (col + k * d.2) = Some player.
Proof.
  intros Horigin [[Hbefore _] [Hafter _]] Hk.
  destruct (Z.lt_trichotomy k 0) as [Hneg|[->|Hpos]].
  - specialize (Hbefore (- k)).
    replace (row + - k * - d.1) with (row + k * d.1) in Hbefore by lia.
    replace (col + - k * - d.2) with (col + k * d.2) in Hbefore by lia.
    apply Hbefore. lia.
  - by rewrite !Z.mul_0_l, !Z.add_0_r.
  - apply Hafter. lia.
Qed.

Lemma axis_line_through (grid : Grid) (row col player : Z) (d : Z * Z)
    (before after : nat) :
  getCell grid row col = Some player →
  axis grid row col player d before after →
  (4 ≤ before + 1 + after)%nat →
  four_in_line grid (row - Z.of_nat before * d.1) (col - Z.of_nat before * d.2)
    d player
  ∧ line_through grid row col d player.
Proof.
  intros Horigin Haxis Hlen. split.
  - intros k Hk.
    replace (row - Z.of_nat before * d.1 + k * d.1)
      with (row + (k - Z.of_nat before) * d.1) by lia.
    replace (col - Z.of_nat before * d.2 + k * d.2)
      with (col + (k - Z.of_nat before) * d.2) by lia.
    apply (axis_cells _ _ _ _ _ _ _ _ Horigin Haxis). lia.
  - exists (Z.min (Z.of_nat before) 3). split; [lia|]. intros k Hk.
    replace (row - Z.min (Z.of_nat before) 3 * d.1 + k * d.1)
      with (row + (k - Z.min (Z.of_nat before) 3) * d.1) by lia.
    replace (col - Z.min (Z.of_nat before) 3 * d.2 + k * d.2)
      with (col + (k - Z.min (Z.of_nat before) 3) * d.2) by lia.
    apply (axis_cells _ _ _ _ _ _ _ _ Horigin Haxis). lia.
Qed.

Lemma short_axis_no_line (grid : Grid) (row col player : Z) (d : Z * Z) :
  short_axis grid row col player d → ¬ line_through grid row col d player.
Proof.
  intros (before & after & [Hb Ha] & Hlen) (s & Hs & Hline).
  assert (Hs' : s ≤ Z.of_nat before).
  { apply (run_maximal _ _ _ _ _ _ _ _ Hb). intros k Hk.
    specialize (Hline (s - k) ltac:(lia)).
    replace (row - s * d.1 + (s - k) * d.1) with (row + k * - d.1) in Hline
      by lia.
    by replace (col - s * d.2 + (s - k) * d.2) with (col + k * - d.2)
      in Hline by lia. }
  assert (Ha' : 3 - s ≤ Z.of_nat after).
  { apply (run_maximal _ _ _ _ _ _ _ _ Ha). intros k Hk.
    specialize (Hline (s + k) ltac:(lia)).
    replace (row - s * d.1 + (s + k) * d.1) with (row + k * d.1) in Hline
      by lia.
    by replace (col - s * d.2 + (s + k) * d.2) with (col + k * d.2)
      in Hline by lia. }
  lia.
Qed.

Lemma line_four_from (row col : Z) (d : Z * Z) (before : nat) :
  line row col d.1 d.2 before 4
  = four_from (row - Z.of_nat before * d.1) (col - Z.of_nat before * d.2) d.
Proof.
  unfold line, four_from.
  replace (- Z.of_nat before) with (- Z.of_nat before + 0) at 1 by lia.
  rewrite <- (fmap_add_seqZ (- Z.of_nat before) 0), <- list_fmap_compose.
  apply list_fmap_ext. intros _ k _. simpl. f_equal; lia.
Qed.

Lemma checkWin_cases (fuel : nat) (grid : Grid) (row col player : Z) :
  (8 ≤ fuel)%nat → getCell grid row col = Some player →
  (∃ win d r0 c0,
     checkWin fuel grid row col player = Some (Some win)
     ∧ GameLogic.player win = player
     ∧ d ∈ DIRECTIONS
     ∧ positions win = four_from r0 c0 d
     ∧ four_in_line grid r0 c0 d player
     ∧ wins_at grid row col player)
  ∨ (checkWin fuel grid row col player = Some None
     ∧ ¬ wins_at grid row col player).
Proof.
  intros Hfuel Horigin.
  destruct (checkWin_loop_returns fuel grid row col player DIRECTIONS Hfuel)
    as [result Hres]; [done|].
  pose proof (checkWin_loop_sound _ _ _ _ _ _ _ Hres) as Hsound.
  unfold checkWin. rewrite Hres. destruct result as [win|].
  - left. destruct Hsound as
      (Hp & skipped & d & rest & before & after & Hdirs & _ & Hax & Hlen & Hpos).
    destruct (axis_line_through _ _ _ _ _ _ _ Horigin Hax Hlen) as [H4 Hthrough].
    assert (Hd : d ∈ DIRECTIONS) by (rewrite Hdirs; set_solver).
    exists win, d, (row - Z.of_nat before * d.1), (col - Z.of_nat before * d.2).
    split; [done|]. split; [done|]. split; [done|].
    split; [by rewrite Hpos, line_four_from|]. split; [done|]. by exists d.
  - right. split; [done|]. intros (d & Hd & Hthrough). simpl in Hsound.
    rewrite Forall_forall in Hsound.
    by apply (short_axis_no_line _ _ _ _ _ (Hsound d Hd)).
Qed.

(** X4. When the cell at [(row, col)] holds [player], as it does after that
    player's token landed there, [checkWin] reports a win exactly when a
    line of four of [player] passes through the cell, and the four
    coordinates it returns are four cells in a row that all hold
    [player]. *)
Theorem checkWin_iff_line (fuel : nat) (grid : Grid) (row col player : Z) :
  (8 ≤ fuel)%nat → getCell grid row col = Some player →
  ((∃ win, checkWin fuel grid row col player = Some (Some win))
   ↔ wins_at grid row col player)
  ∧ (checkWin fuel grid row col player = Some None
     ↔ ¬ wins_at grid row col player)
  ∧ ∀ win, checkWin fuel grid row col player = Some (Some win) →
      GameLogic.player win = player
      ∧ ∃ d r0 c0, d ∈ DIRECTIONS
          ∧ positions win = four_from r0 c0 d
          ∧ four_in_line grid r0 c0 d player.
Proof.
  intros Hfuel Horigin.
  destruct (checkWin_cases fuel grid row col player Hfuel Horigin)
    as [(win & d & r0 & c0 & Hcw & Hp & Hd & Hpos & H4 & Hw)|[Hcw Hno]];
    rewrite Hcw.
  - split; [split; [done|by exists win]|].
    split; [split; [done|intros Hno; by destruct Hno]|].
    intros win' [= <-]. split; [done|]. by exists d, r0, c0.
  - split; [split; [by intros [win [=]]|intros Hw; by destruct Hno]|].
    split; [done|]. by intros win [=].
Qed.

(** *** The local check and the scan of the whole board agree *)

Lemma four_in_line_flip (grid : Grid) (r c dRow dCol value : Z) :
  four_in_line grid r c (dRow, dCol) value →
  four_in_line grid (r + 3 * dRow) (c + 3 * dCol) (- dRow, - dCol) value.
Proof.
  intros Hline k Hk. specialize (Hline (3 - k) ltac:(lia)). simpl in *.
  replace (r + 3 * dRow + k * - dRow) with (r + (3 - k) * dRow) by lia.
  by replace (c + 3 * dCol + k * - dCol) with (c + (3 - k) * dCol) by lia.
Qed.

Lemma line_through_flip (grid : Grid) (row col dRow dCol value : Z) :
  line_through grid row col (dRow, dCol) value →
  line_through grid row col (- dRow, - dCol) value.
Proof.
  intros (s & Hs & Hline). exists (3 - s). split; [lia|].
  apply four_in_line_flip in Hline. simpl in *.
  replace (row - (3 - s) * - dRow) with (row - s * dRow + 3 * dRow) by lia.
  by replace (col - (3 - s) * - dCol) with (col - s * dCol + 3 * dCol) by lia.
Qed.

(** A line of four on the board after one cell was written either
    passes through that cell, and then holds the value written, or was
    on the board before. *)
Lemma four_in_line_write (grid : Grid) (row col p r c : Z) (d : Z * Z)
    (value : Z) :
  wf_grid grid → 0 ≤ row < ROWS → 0 ≤ col < COLS →
  four_in_line (write grid row col p) r c d value →
  (value = p ∧ line_through (write grid row col p) row col d value)
  ∨ four_in_line grid r c d value.
Proof.
  intros Hwf Hr Hc Hline.
  destruct (decide (Exists (λ k, (r + k * d.1, c + k * d.2) = (row, col))
                      (seqZ 0 4))) as [Hex|Hnot].
  - apply Exists_exists in Hex as (k & Hk & Heq).
    left. apply elem_of_seqZ in Hk. injection Heq as Hrow Hcol.
    pose proof (Hline k ltac:(lia)) as Hcell.
    rewrite Hrow, Hcol, getCell_write_eq in Hcell by done.
    injection Hcell as <-. split; [done|]. exists k. split; [lia|].
    by replace (row - k * d.1) with r by lia;
      replace (col - k * d.2) with c by lia.
  - right. intros k Hk. rewrite <- (Hline k Hk). symmetry.
    apply getCell_write_ne; [lia..|]. intros Heq. apply Hnot.
    apply Exists_exists. exists k. split; [apply elem_of_seqZ; lia|done].
Qed.

Lemma SCANS_DIRECTIONS (grid : Grid) (row col value : Z) (d : Z * Z) :
  d ∈ SCANS → line_through grid row col d value → wins_at grid row col value.
Proof.
  unfold SCANS. rewrite !elem_of_cons, elem_of_nil.
  intros [->|[->|[->|[->|[]]]]] Hthrough.
  - exists (0, 1). split; [unfold DIRECTIONS; rewrite !elem_of_cons; tauto|done].
  - exists (1, 0). split; [unfold DIRECTIONS; rewrite !elem_of_cons; tauto|done].
  - exists (1, 1). split; [unfold DIRECTIONS; rewrite !elem_of_cons; tauto|done].
  - exists (1, -1). split; [unfold DIRECTIONS; rewrite !elem_of_cons; tauto|].
    by apply (line_through_flip _ _ _ (-1) 1) in Hthrough.
Qed.

Lemma wins_at_scan (grid : Grid) (row col value : Z) :
  wins_at grid row col value →
  ∃ r c d, d ∈ SCANS ∧ four_in_line grid r c d value.
Proof.
  intros (d & Hd & s & Hs & Hline).
  apply elem_of_DIRECTIONS in Hd as [->|[->|[->| ->]]].
  - eexists _, _, (0, 1). split; [unfold SCANS; rewrite !elem_of_cons; tauto|done].
  - eexists _, _, (1, 0). split; [unfold SCANS; rewrite !elem_of_cons; tauto|done].
  - eexists _, _, (1, 1). split; [unfold SCANS; rewrite !elem_of_cons; tauto|done].
  - apply four_in_line_flip in Hline.
    eexists _, _, (-1, 1). split; [unfold SCANS; rewrite !elem_of_cons; tauto|done].
Qed.

Lemma checkWinner_write_cases (grid : Grid) (row col p : Z) :
  wf_grid grid → 0 ≤ row < ROWS → 0 ≤ col < COLS → p ≠ EMPTY →
  no_winner grid →
  let grid' := write grid row col p in
  (AI.checkWinner grid' = Some p ∧ wins_at grid' row col p)
  ∨ (AI.checkWinner grid' = None ∧ ¬ wins_at grid' row col p
     ∧ no_winner grid').
Proof.
  intros Hwf Hr Hc Hp Hno grid'.
  destruct (AI.checkWinner grid') as [v|] eqn:Hv.
  - left. apply AIFacts.checkWinner_Some in Hv
      as (Hne & r & c & d & Hd & Hline).
    destruct (four_in_line_write _ _ _ _ _ _ _ _ Hwf Hr Hc Hline)
      as [[-> Hthrough]|Hold].
    + split; [done|]. by eapply SCANS_DIRECTIONS.
    + by destruct (Hno r c d v).
  - right. split; [done|]. split; [|exact (AIFacts.checkWinner_None _ Hv)].
    intros Hw. apply wins_at_scan in Hw as (r & c & d & Hd & Hline).
    by apply (AIFacts.checkWinner_None _ Hv r c d p).
Qed.

Lemma checkWinner_child (grid : Grid) (col p : Z) :
  wf_grid grid → p ≠ EMPTY → no_winner grid →
  isColumnFull grid col = false →
  (AI.checkWinner (child_grid grid p col) = Some p
   ↔ wins_at (child_grid grid p col) (findLowestRow grid col) col p)
  ∧ (AI.checkWinner (child_grid grid p col) ≠ Some p →
     AI.checkWinner (child_grid grid p col) = None).
Proof.
  intros Hwf Hp Hno Hfree. unfold child_grid. rewrite Hfree.
  destruct (isColumnFull_false _ _ Hfree) as (Hc & Hr & _).
  destruct (checkWinner_write_cases grid (findLowestRow grid col) col p Hwf Hr
              Hc Hp Hno) as [[Hv Hw]|(Hv & Hw & _)]; rewrite Hv.
  - by split.
  - split; [by split|done].
Qed.

(** X5. On a board without four in a row, after a token [p] is written into
    a cell: [checkWinner], which scans the whole board, finds a winner
    exactly when a line of four of [p] passes through that cell, and the
    winner is then [p]; so it agrees with [checkWin] asked at that
    cell. *)
Theorem checkWinner_after_write (fuel : nat) (grid : Grid) (row col p : Z) :
  wf_grid grid → 0 ≤ row < ROWS → 0 ≤ col < COLS → p ≠ EMPTY →
  no_winner grid → (8 ≤ fuel)%nat →
  let grid' := write grid row col p in
  (AI.checkWinner grid' = Some p ↔ wins_at grid' row col p)
  ∧ (AI.checkWinner grid' = None ↔ ¬ wins_at grid' row col p)
  ∧ (AI.checkWinner grid' = None ↔ no_winner grid')
  ∧ AI.checkWinner grid'
    = match checkWin fuel grid' row col p with
      | Some (Some _) => Some p
      | _ => None
      end.
Proof.
  intros Hwf Hr Hc Hp Hno Hfuel grid'.
  assert (Horigin : getCell grid' row col = Some p)
    by by apply getCell_write_eq.
  destruct (checkWinner_write_cases grid row col p Hwf Hr Hc Hp Hno)
    as [[Hv Hw]|(Hv & Hw & Hno')]; fold grid' in Hv, Hw; rewrite Hv.
  - split; [done|]. split; [split; [done|tauto]|]. split.
    + split; [done|]. intros Hnone. exfalso.
      apply wins_at_scan in Hw as (r & c & d & Hd & Hline).
      by apply (Hnone r c d p).
    + by destruct (checkWin_cases fuel grid' row col p Hfuel Horigin)
        as [(win & _ & _ & _ & -> & _)|[_ Hnot]].
  - split; [split; [done|tauto]|]. split; [done|]. split; [done|].
    by destruct (checkWin_cases fuel grid' row col p Hfuel Horigin)
      as [(win & _ & _ & _ & _ & _ & _ & _ & _ & Hw')|[-> _]].
Qed.

(** The agreement of the two checks, after the first token of a game. *)
Lemma checkWinner_after_write_witness :
  let grid' := write reset 0 3 PLAYER_1 in
  (AI.checkWinner grid' = Some PLAYER_1 ↔ wins_at grid' 0 3 PLAYER_1)
  ∧ (AI.checkWinner grid' = None ↔ ¬ wins_at grid' 0 3 PLAYER_1)
  ∧ (AI.checkWinner grid' = None ↔ no_winner grid')
  ∧ AI.checkWinner grid'
    = match checkWin 8 grid' 0 3 PLAYER_1 with
      | Some (Some _) => Some PLAYER_1
      | _ => None
      end.
Proof.
  apply (checkWinner_after_write 8 reset 0 3 PLAYER_1).
  - apply wf_grid_reset.
  - unfold ROWS. lia.
  - unfold COLS. lia.
  - discriminate.
  - exact (AIFacts.checkWinner_None reset eq_refl).
  - lia.
Defined.

(** The win test at the cell a token has landed on, on the row of the
    horizontal scenario. *)
Lemma checkWin_iff_line_witness :
  ((∃ win, checkWin 8 (four_in_row PLAYER_1) 0 3 PLAYER_1 = Some (Some win))
   ↔ wins_at (four_in_row PLAYER_1) 0 3 PLAYER_1)
  ∧ (checkWin 8 (four_in_row PLAYER_1) 0 3 PLAYER_1 = Some None
     ↔ ¬ wins_at (four_in_row PLAYER_1) 0 3 PLAYER_1)
  ∧ ∀ win, checkWin 8 (four_in_row PLAYER_1) 0 3 PLAYER_1 = Some (Some win) →
      GameLogic.player win = PLAYER_1
      ∧ ∃ d r0 c0, d ∈ DIRECTIONS
          ∧ positions win = four_from r0 c0 d
          ∧ four_in_line (four_in_row PLAYER_1) r0 c0 d PLAYER_1.
Proof.
  apply (checkWin_iff_line 8 (four_in_row PLAYER_1) 0 3 PLAYER_1).
  - lia.
  - reflexivity.
Defined.

(** *** [isWinningMove] and [getWinningMoves] *)

Lemma write_restore (grid : Grid) (row col value old : Z) :
  0 ≤ row → 0 ≤ col → read grid row col = Some old →
  write (write grid row col value) row col old = grid.
Proof.
  intros Hr Hc Hread. unfold write. rewrite list_alter_alter_eq.
  rewrite <- (list_alter_id id grid (Z.to_nat row)) at 2 by done.
  apply list_alter_ext; [|done]. intros row_arr Hrow. simpl.
  rewrite list_insert_insert_eq. apply list_insert_id.
  unfold read, index in Hread.
  destruct (Z.leb_spec 0 row); [|lia]. rewrite Hrow in Hread. simpl in Hread.
  by destruct (Z.leb_spec 0 col); [|lia].
Qed.

Lemma setCell_in_bounds (σ : Store) (this : ref) (row col value : Z) :
  0 ≤ row < ROWS → 0 ≤ col < COLS →
  setCell this row col value σ
  = <[this := write (grid_of σ this) row col value]> σ.
Proof.
  intros Hr Hc. unfold setCell.
  destruct (Z.geb_spec row 0); [|lia]. destruct (Z.ltb_spec row ROWS); [|lia].
  destruct (Z.geb_spec col 0); [|lia]. by destruct (Z.ltb_spec col COLS); [|lia].
Qed.

Lemma isWinningMove_free (fuel : nat) (σ : Store) (board : ref)
    (grid : Grid) (col player : Z) :
  σ !! board = Some grid → wf_grid grid → (8 ≤ fuel)%nat →
  isColumnFull grid col = false →
  ∃ wins : bool,
    isWinningMove fuel board col player σ = Some (wins, σ)
    ∧ (wins = true ↔
       wins_at (write grid (findLowestRow grid col) col player)
         (findLowestRow grid col) col player).
Proof.
  intros Hboard Hwf Hfuel Hfull. unfold isWinningMove.
  rewrite (grid_of_lookup _ _ _ Hboard).
  assert (Hlt : (board < length σ)%nat) by by eapply lookup_lt_Some.
  destruct (isColumnFull_false _ _ Hfull) as (Hc & Hr & Hcell & _).
  unfold isColumnFull in Hfull. rewrite Hfull.
  set (row := findLowestRow grid col) in *.
  rewrite (setCell_in_bounds σ) by done.
  rewrite (grid_of_lookup _ _ _ Hboard).
  set (σ1 := <[board := write grid row col player]> σ).
  assert (Hg1 : grid_of σ1 board = write grid row col player)
    by by apply grid_of_insert_eq.
  rewrite (setCell_in_bounds σ1), Hg1 by done.
  assert (Hback : <[board := write (write grid row col player) row col EMPTY]>
                    σ1 = σ).
  { subst σ1. rewrite list_insert_insert_eq, write_restore by (done || lia).
    by apply list_insert_id. }
  rewrite Hback.
  assert (Horigin : getCell (write grid row col player) row col
                    = Some player) by by apply getCell_write_eq.
  destruct (checkWin_cases fuel _ row col player Hfuel Horigin)
    as [(win & _ & _ & _ & -> & _ & _ & _ & _ & Hw)|[-> Hno]]; simpl.
  - exists true. by split.
  - exists false. by split.
Qed.

(** X6. [isWinningMove] leaves the store exactly as it found it, and answers
    [true] exactly when the column is not full and the token, dropped
    there, would have a line of four of [player] through it. *)
Theorem isWinningMove_spec (fuel : nat) (σ : Store) (board : ref)
    (grid : Grid) (col player : Z) :
  σ !! board = Some grid → wf_grid grid → (8 ≤ fuel)%nat →
  ∃ wins : bool,
    isWinningMove fuel board col player σ = Some (wins, σ)
    ∧ (wins = true ↔
       isColumnFull grid col = false
       ∧ wins_at (child_grid grid player col) (findLowestRow grid col) col
           player).
Proof.
  intros Hboard Hwf Hfuel.
  destruct (isColumnFull grid col) eqn:Hfull.
  - unfold isWinningMove. rewrite (grid_of_lookup _ _ _ Hboard).
    unfold isColumnFull in Hfull. rewrite Hfull. exists false.
    split; [done|]. by split; [|intros [? _]].
  - destruct (isWinningMove_free fuel σ board grid col player Hboard Hwf Hfuel
                Hfull) as (wins & Hrun & Hwins).
    exists wins. split; [done|]. unfold child_grid. rewrite Hfull. tauto.
Qed.

(** [isWinningMove], asked for the column that completes the row of the
    horizontal scenario. *)
Lemma isWinningMove_spec_witness :
  ∃ wins : bool,
    isWinningMove 8 0%nat 3 PLAYER_1 [three_in_row]
    = Some (wins, [three_in_row])
    ∧ (wins = true ↔
       isColumnFull three_in_row 3 = false
       ∧ wins_at (child_grid three_in_row PLAYER_1 3)
           (findLowestRow three_in_row 3) 3 PLAYER_1).
Proof.
  apply (isWinningMove_spec 8 [three_in_row] 0%nat three_in_row 3 PLAYER_1).
  - reflexivity.
  - split; [reflexivity|repeat constructor].
  - lia.
Defined.

Lemma getWinningMoves_loop_spec (fuel : nat) (σ : Store) (board : ref)
    (grid : Grid) (player : Z) (cols acc : list Z) :
  σ !! board = Some grid → wf_grid grid → (8 ≤ fuel)%nat →
  ∃ found,
    getWinningMoves_loop fuel board player cols acc σ = Some (acc ++ found, σ)
    ∧ (∀ col, col ∈ found ↔
         col ∈ cols ∧ isColumnFull grid col = false
         ∧ wins_at (child_grid grid player col) (findLowestRow grid col) col
             player)
    ∧ (∀ R : Z → Z → Prop, StronglySorted R cols → StronglySorted R found).
Proof.
  intros Hboard Hwf Hfuel. revert acc.
  induction cols as [|col cols IH]; intros acc; simpl.
  - exists []. rewrite app_nil_r. split; [done|]. split; [|done].
    intros col. rewrite !elem_of_nil. tauto.
  - rewrite (grid_of_lookup _ _ _ Hboard).
    destruct (isColumnFull grid col) eqn:Hfull; simpl.
    + destruct (IH acc) as (found & -> & Hmem & Hsorted).
      exists found. split; [done|]. split.
      * intros c. rewrite Hmem, elem_of_cons. split; [tauto|].
        intros ([->|?] & Hfree & Hw); [congruence|tauto].
      * intros R HR. apply StronglySorted_inv in HR as [HR _]. by apply Hsorted.
    + destruct (isWinningMove_free fuel σ board grid col player Hboard Hwf Hfuel
                  Hfull) as (wins & -> & Hwins). simpl.
      assert (Hchild : child_grid grid player col
                       = write grid (findLowestRow grid col) col player)
        by (unfold child_grid; by rewrite Hfull).
      destruct wins.
      * destruct (IH (acc ++ [col])) as (found & -> & Hmem & Hsorted).
        exists (col :: found). split; [by rewrite <- (assoc_L (++))|]. split.
        -- intros c. rewrite !elem_of_cons, Hmem. split.
           ++ intros [->|?]; [|tauto]. split; [by left|].
              split; [done|]. rewrite Hchild. by apply Hwins.
           ++ tauto.
        -- intros R HR. apply StronglySorted_inv in HR as [HR Hall].
           constructor; [by apply Hsorted|].
           rewrite Forall_forall in *. intros c Hin. apply Hall.
           by apply Hmem in Hin as [? _].
      * destruct (IH acc) as (found & -> & Hmem & Hsorted).
        exists found. split; [done|]. split.
        -- intros c. rewrite Hmem, elem_of_cons. split; [tauto|].
           intros ([->|?] & Hfree & Hw); [|tauto].
           rewrite Hchild in Hw. assert (false = true) by by apply Hwins.
           done.
        -- intros R HR. apply StronglySorted_inv in HR as [HR _].
           by apply Hsorted.
Qed.

(** X7. [getWinningMoves] leaves the store as it found it and returns, left
    to right and each once, exactly the columns that are not full and
    where a dropped token would have a line of four of [player] through
    it. *)
Theorem getWinningMoves_spec (fuel : nat) (σ : Store) (board : ref)
    (grid : Grid) (player : Z) :
  σ !! board = Some grid → wf_grid grid → (8 ≤ fuel)%nat →
  ∃ winningMoves,
    getWinningMoves fuel board player σ = Some (winningMoves, σ)
    ∧ StronglySorted Z.lt winningMoves
    ∧ ∀ col, col ∈ winningMoves ↔
        isColumnFull grid col = false
        ∧ wins_at (child_grid grid player col) (findLowestRow grid col) col
            player.
Proof.
  intros Hboard Hwf Hfuel. unfold getWinningMoves.
  destruct (getWinningMoves_loop_spec fuel σ board grid player (seqZ 0 COLS) []
              Hboard Hwf Hfuel) as (found & -> & Hmem & Hsorted).
  exists found. split; [done|]. split.
  - apply Hsorted. repeat constructor; lia.
  - intros col. rewrite Hmem, elem_of_seqZ. split; [tauto|].
    intros [Hfree Hw]. split; [|done].
    destruct (isColumnFull_false _ _ Hfree) as [Hc _]. lia.
Qed.

(** [getWinningMoves], on the row of the horizontal scenario. *)
Lemma getWinningMoves_spec_witness :
  ∃ winningMoves,
    getWinningMoves 8 0%nat PLAYER_1 [three_in_row]
    = Some (winningMoves, [three_in_row])
    ∧ StronglySorted Z.lt winningMoves
    ∧ ∀ col, col ∈ winningMoves ↔
        isColumnFull three_in_row col = false
        ∧ wins_at (child_grid three_in_row PLAYER_1 col)
            (findLowestRow three_in_row col) col PLAYER_1.
Proof.
  apply (getWinningMoves_spec 8 [three_in_row] 0%nat three_in_row PLAYER_1).
  - reflexivity.
  - split; [reflexivity|repeat constructor].
  - lia.
Defined.

(** *** [countInDirection] *)

Lemma countInDirection_loop_spec (fuel : nat) (grid : Grid)
    (dRow dCol player r c count result : Z) :
  countInDirection_loop fuel grid dRow dCol player r c count = Some result →
  ∃ n : nat, result = count + Z.of_nat n
    ∧ (∀ k, 0 ≤ k < Z.of_nat n →
         getCell grid (r + k * dRow) (c + k * dCol) = Some player)
    ∧ getCell grid (r + Z.of_nat n * dRow) (c + Z.of_nat n * dCol)
      ≠ Some player.
Proof.
  revert r c count.
  induction fuel as [|fuel IH]; intros r c count; simpl; [done|].
  destruct (matches grid r c player) eqn:Hm.
  - intros Hrec. apply IH in Hrec as (n & -> & Hrun & Hstop).
    apply matches_getCell in Hm. exists (S n). split; [lia|]. split.
    + intros k Hk. destruct (decide (k = 0)) as [->|Hk0].
      * by rewrite !Z.mul_0_l, !Z.add_0_r.
      * specialize (Hrun (k - 1)).
        replace (r + dRow + (k - 1) * dRow) with (r + k * dRow) in Hrun by lia.
        replace (c + dCol + (k - 1) * dCol) with (c + k * dCol) in Hrun by lia.
        apply Hrun. lia.
    + replace (r + Z.of_nat (S n) * dRow) with (r + dRow + Z.of_nat n * dRow)
        by lia.
      by replace (c + Z.of_nat (S n) * dCol)
        with (c + dCol + Z.of_nat n * dCol) by lia.
  - intros [= <-]. apply matches_false in Hm. exists 0%nat.
    split; [lia|]. split; [intros k Hk; lia|].
    by rewrite !Z.mul_0_l, !Z.add_0_r.
Qed.

Lemma countInDirection_loop_fuel (φ : Z → Z → Z) (grid : Grid)
    (dRow dCol player : Z) :
  (∀ r c, isValidPosition r c = true →
     0 ≤ φ r c ∧ (isValidPosition (r + dRow) (c + dCol) = true →
                  φ (r + dRow) (c + dCol) < φ r c)) →
  ∀ (fuel : nat) r c count,
    (isValidPosition r c = true → φ r c + 1 < Z.of_nat fuel) →
    (0 < fuel)%nat →
    is_Some (countInDirection_loop fuel grid dRow dCol player r c count).
Proof.
  intros Hφ. induction fuel as [|fuel IH]; intros r c count Hfuel Hpos.
  - lia.
  - simpl. unfold matches.
    destruct (isValidPosition r c) eqn:Hvalid; simpl; [|by eexists].
    destruct (bool_decide _); [|by eexists].
    destruct (Hφ r c Hvalid) as [H0 Hdrop]. specialize (Hfuel eq_refl).
    apply IH; [|lia]. intros Hvalid'. specialize (Hdrop Hvalid'). lia.
Qed.

Lemma countInDirection_returns (fuel : nat) (grid : Grid)
    (row col dRow dCol player : Z) :
  (8 ≤ fuel)%nat → unit_step dRow dCol →
  is_Some (countInDirection fuel grid row col dRow dCol player).
Proof.
  intros Hfuel (Hr & Hc & Hnz). unfold countInDirection.
  apply (countInDirection_loop_fuel
           (λ r c, if decide (dCol = 1) then 6 - c
                   else if decide (dCol = -1) then c
                   else if decide (dRow = 1) then 5 - r else r)).
  - intros r c Hv. apply isValidPosition_bounds in Hv. unfold ROWS, COLS in Hv.
    split; [repeat case_decide; lia|].
    intros Hv'. apply isValidPosition_bounds in Hv'. unfold ROWS, COLS in Hv'.
    repeat case_decide; try lia.
    assert (dCol = 0) as -> by lia.
    destruct (decide (dRow = 0)) as [->|]; [by destruct Hnz|lia].
  - intros Hv. apply isValidPosition_bounds in Hv. unfold ROWS, COLS in Hv.
    repeat case_decide; lia.
  - lia.
Qed.

(** X8. For a step to a neighbouring cell and fuel for eight rounds,
    [countInDirection] returns the number [n] of cells, from
    [(row, col)] itself onwards, that hold [player] before the first that
    does not or lies off the board; [n] is at most 7, and 0 when the
    start is off the board or holds something else. *)
Theorem countInDirection_spec (fuel : nat) (grid : Grid)
    (row col dRow dCol player : Z) :
  (8 ≤ fuel)%nat → unit_step dRow dCol →
  ∃ n : nat,
    countInDirection fuel grid row col dRow dCol player = Some (Z.of_nat n)
    ∧ (n ≤ 7)%nat
    ∧ (∀ k, 0 ≤ k < Z.of_nat n →
         getCell grid (row + k * dRow) (col + k * dCol) = Some player)
    ∧ getCell grid (row + Z.of_nat n * dRow) (col + Z.of_nat n * dCol)
      ≠ Some player.
Proof.
  intros Hfuel Hstep.
  destruct (countInDirection_returns fuel grid row col dRow dCol player Hfuel
              Hstep) as [result Hres].
  destruct Hstep as (Hr & Hc & Hnz). rewrite Hres.
  apply countInDirection_loop_spec in Hres as (n & -> & Hrun & Hstop).
  exists n. split; [done|]. split; [|done].
  destruct (Nat.le_gt_cases n 7) as [|Hgt]; [done|]. exfalso.
  pose proof (getCell_Some_bounds _ _ _ _ (Hrun 0 ltac:(lia))) as [Hr0 Hc0].
  pose proof (getCell_Some_bounds _ _ _ _ (Hrun 7 ltac:(lia))) as [Hr7 Hc7].
  unfold ROWS, COLS in *.
  destruct (decide (dCol = 0)) as [->|]; [|lia].
  assert (dRow ≠ 0) by (intros ->; by destruct Hnz). lia.
Qed.

(** [countInDirection], along the row of the horizontal scenario. *)
Lemma countInDirection_spec_witness :
  ∃ n : nat,
    countInDirection 8 three_in_row 0 0 0 1 PLAYER_1 = Some (Z.of_nat n)
    ∧ (n ≤ 7)%nat
    ∧ (∀ k, 0 ≤ k < Z.of_nat n →
         getCell three_in_row (0 + k * 0) (0 + k * 1) = Some PLAYER_1)
    ∧ getCell three_in_row (0 + Z.of_nat n * 0) (0 + Z.of_nat n * 1)
      ≠ Some PLAYER_1.
Proof.
  apply (countInDirection_spec 8 three_in_row 0 0 0 1 PLAYER_1).
  - lia.
  - unfold unit_step. split; [lia|]. split; [lia|discriminate].
Defined.

(** X9. What the two counts say about [checkWin]: when the cell at
    [(row, col)] holds [player], the list [getConnectedPositions] collects
    along a direction has as many coordinates as [countInDirection] counts
    forwards and backwards from the cell, which is counted twice. *)
Theorem getConnectedPositions_counts (fuel : nat) (grid : Grid)
    (row col player : Z) (d : Z * Z) :
  (8 ≤ fuel)%nat → d ∈ DIRECTIONS → getCell grid row col = Some player →
  ∃ positions forwards backwards,
    getConnectedPositions fuel grid row col d.1 d.2 player = Some positions
    ∧ countInDirection fuel grid row col d.1 d.2 player = Some forwards
    ∧ countInDirection fuel grid row col (- d.1) (- d.2) player
      = Some backwards
    ∧ Z.of_nat (length positions) = forwards + backwards - 1.
Proof.
  intros Hfuel Hd Horigin.
  assert (Hstep : unit_step d.1 d.2 ∧ unit_step (- d.1) (- d.2)).
  { apply elem_of_DIRECTIONS in Hd as [->|[->|[->| ->]]]; simpl;
      unfold unit_step; repeat split; (lia || discriminate). }
  destruct Hstep as [Hf Hb].
  destruct (getConnectedPositions_returns fuel grid row col player d Hfuel Hd)
    as [positions Hps].
  destruct (getConnectedPositions_spec _ _ _ _ _ _ _ Hps)
    as (before & after & [Hrb Hra] & ->).
  destruct (countInDirection_returns fuel grid row col d.1 d.2 player Hfuel Hf)
    as [forwards Hcf].
  destruct (countInDirection_returns fuel grid row col (- d.1) (- d.2) player
              Hfuel Hb) as [backwards Hcb].
  destruct (countInDirection_loop_spec _ _ _ _ _ _ _ _ _ Hcf)
    as (nf & -> & Hrunf & Hstopf).
  destruct (countInDirection_loop_spec _ _ _ _ _ _ _ _ _ Hcb)
    as (nb & -> & Hrunb & Hstopb).
  exists (line row col d.1 d.2 before (before + 1 + after)),
    (0 + Z.of_nat nf), (0 + Z.of_nat nb).
  split; [done|]. split; [done|]. split; [done|]. rewrite length_line.
  assert (Hnf : Z.of_nat nf = Z.of_nat after + 1).
  { destruct Hra as [Hcells Hstop].
    destruct (Z.lt_trichotomy (Z.of_nat nf) (Z.of_nat after + 1))
      as [Hlt|[|Hgt]]; [|done|].
    - destruct Hstopf. destruct (decide (nf = 0%nat)) as [->|].
      + by rewrite !Z.mul_0_l, !Z.add_0_r.
      + apply Hcells. lia.
    - destruct Hstop. apply Hrunf. lia. }
  assert (Hnb : Z.of_nat nb = Z.of_nat before + 1).
  { destruct Hrb as [Hcells Hstop].
    destruct (Z.lt_trichotomy (Z.of_nat nb) (Z.of_nat before + 1))
      as [Hlt|[|Hgt]]; [|done|].
    - destruct Hstopb. destruct (decide (nb = 0%nat)) as [->|].
      + by rewrite !Z.mul_0_l, !Z.add_0_r.
      + apply Hcells. lia.
    - destruct Hstop. apply Hrunb. lia. }
  lia.
Qed.

(** The two counts, on the row of the horizontal scenario. *)
Lemma getConnectedPositions_counts_witness :
  ∃ positions forwards backwards,
    getConnectedPositions 8 three_in_row 0 1 0 1 PLAYER_1 = Some positions
    ∧ countInDirection 8 three_in_row 0 1 0 1 PLAYER_1 = Some forwards
    ∧ countInDirection 8 three_in_row 0 1 (- 0) (- 1) PLAYER_1
      = Some backwards
    ∧ Z.of_nat (length positions) = forwards + backwards - 1.
Proof.
  apply (getConnectedPositions_counts 8 three_in_row 0 1 PLAYER_1 (0, 1)).
  - lia.
  - unfold DIRECTIONS. rewrite !elem_of_cons. tauto.
  - reflexivity.
Defined.

End GameLogicMore.

(** ** More on the engine *)

Module AIMore.
Import Board AI Spec SearchValue LineSpec SearchSpec BoardFacts NumOrder AIFacts.

(** *** Static evaluation *)

Lemma SCANS_elems :
  (0, 1) ∈ SCANS ∧ (1, 0) ∈ SCANS ∧ (1, 1) ∈ SCANS ∧ (-1, 1) ∈ SCANS.
Proof. unfold SCANS. rewrite !elem_of_cons. tauto. Qed.

Lemma count_four (value : option Z) (a b c d : option Z) :
  count value [a; b; c; d] = 4 ↔ a = value ∧ b = value ∧ c = value ∧ d = value.
Proof.
  unfold count.
  destruct (decide (a = value)), (decide (b = value)), (decide (c = value)),
    (decide (d = value));
    repeat (first [rewrite filter_cons_True by done
                  |rewrite filter_cons_False by done]);
    rewrite filter_nil; simpl; split; (lia || tauto).
Qed.

Lemma count_range (value : option Z) (window : list (option Z)) :
  0 ≤ count value window ≤ Z.of_nat (length window).
Proof.
  unfold count. pose proof (length_filter (λ cell, cell = value) window). lia.
Qed.

(** A window scores between [-WIN] and [WIN], and between
    [-BLOCK_THREE] and [THREE_IN_ROW] unless four of its cells hold the
    same side. *)
Lemma evaluateWindow_range (this : AI) (window : list (option Z)) :
  - SCORE.WIN ≤ evaluateWindow this window ≤ SCORE.WIN
  ∧ (count (Some (aiPlayer this)) window ≠ 4 →
     count (Some (humanPlayer this)) window ≠ 4 →
     - SCORE.BLOCK_THREE ≤ evaluateWindow this window ≤ SCORE.THREE_IN_ROW).
Proof.
  unfold evaluateWindow, SCORE.WIN, SCORE.BLOCK_THREE, SCORE.THREE_IN_ROW,
    SCORE.TWO_IN_ROW, SCORE.BLOCK_TWO.
  repeat match goal with
         | |- context [?a =? ?b] => destruct (Z.eqb_spec a b)
         end; cbn [andb]; lia.
Qed.

Lemma window_count_four (grid : Grid) (row col dRow dCol value : Z) :
  count (Some value) (window grid row col dRow dCol) = 4 ↔
  four_in_line grid row col (dRow, dCol) value.
Proof.
  unfold window. rewrite count_four. unfold four_in_line. simpl. split.
  - intros (H0 & H1 & H2 & H3) k Hk.
    assert (Hcases : k = 0 ∨ k = 1 ∨ k = 2 ∨ k = 3) by lia.
    destruct Hcases as [->|[->|[->| ->]]]; [|by rewrite !Z.mul_1_l|done..].
    by rewrite !Z.mul_0_l, !Z.add_0_r.
  - intros Hline.
    pose proof (Hline 0 ltac:(lia)) as H0.
    pose proof (Hline 1 ltac:(lia)) as H1.
    rewrite !Z.mul_0_l, !Z.add_0_r in H0. rewrite !Z.mul_1_l in H1.
    split; [done|]. split; [done|]. split; apply Hline; lia.
Qed.

Lemma add_windows_range (this : AI) (lo hi : Z) (outer inner : list Z)
    (win : Z → Z → list (option Z)) (score : Z) :
  (∀ i j, i ∈ outer → j ∈ inner → lo ≤ evaluateWindow this (win i j) ≤ hi) →
  score + Z.of_nat (length outer * length inner) * lo
  ≤ add_windows this outer inner win score
  ≤ score + Z.of_nat (length outer * length inner) * hi.
Proof.
  unfold add_windows. revert score.
  induction outer as [|i outer IH]; intros score Hwin; simpl; [lia|].
  assert (Hinner : ∀ (l : list Z) s, (∀ j, j ∈ l → j ∈ inner) →
            s + Z.of_nat (length l) * lo
            ≤ foldl (λ score j, score + evaluateWindow this (win i j)) s l
            ≤ s + Z.of_nat (length l) * hi).
  { induction l as [|j l IHl]; intros s Hsub; simpl; [lia|].
    specialize (IHl (s + evaluateWindow this (win i j))
                  (λ j' Hj', Hsub j' (list_elem_of_further _ _ _ Hj'))).
    specialize (Hwin i j ltac:(by left) (Hsub j ltac:(by left))). lia. }
  specialize (Hinner inner score (λ j Hj, Hj)).
  specialize (IH (foldl (λ score j, score + evaluateWindow this (win i j))
                    score inner)
                (λ i' j Hi' Hj, Hwin i' j (list_elem_of_further _ _ _ Hi') Hj)).
  lia.
Qed.

Lemma evaluateBoard_bound (this : AI) (grid : Grid) :
  sides_ok this → no_winner grid →
  - EVAL_BOUND ≤ evaluateBoard this grid ≤ EVAL_BOUND.
Proof.
  intros (Hai & Hhuman & _) Hno.
  assert (Hwin : ∀ row col d, d ∈ SCANS →
            - SCORE.THREE_IN_ROW
            ≤ evaluateWindow this (window grid row col d.1 d.2)
            ≤ SCORE.THREE_IN_ROW).
  { intros row col [dRow dCol] Hd.
    destruct (evaluateWindow_range this (window grid row col dRow dCol))
      as [_ Hrange].
    unfold SCORE.BLOCK_THREE, SCORE.THREE_IN_ROW in *. simpl.
    enough (- 80 ≤ evaluateWindow this (window grid row col dRow dCol) ≤ 100)
      by lia.
    apply Hrange; rewrite window_count_four; by apply Hno. }
  assert (Hcenter : ∀ (rows : list Z) s,
            s - Z.of_nat (length rows) * SCORE.CENTER_BONUS
            ≤ foldl (λ score row,
                 if bool_decide (getCell grid row (COLS `div` 2)
                                 = Some (aiPlayer this))
                 then score + SCORE.CENTER_BONUS
                 else if bool_decide (getCell grid row (COLS `div` 2)
                                      = Some (humanPlayer this))
                 then score - SCORE.CENTER_BONUS
                 else score) s rows
            ≤ s + Z.of_nat (length rows) * SCORE.CENTER_BONUS).
  { unfold SCORE.CENTER_BONUS.
    induction rows as [|row rows IH]; intros s; cbn [foldl length]; [lia|].
    rewrite Nat2Z.inj_succ.
    repeat case_bool_decide;
      match goal with
      | |- _ ≤ foldl ?f ?a rows ≤ _ =>
          specialize (IH a); revert IH; generalize (foldl f a rows)
      end; intros; lia. }
  unfold evaluateBoard, evaluateAllWindows. cbv zeta.
  specialize (Hcenter (seqZ 0 ROWS) 0).
  change (Z.of_nat (length (seqZ 0 ROWS))) with 6 in Hcenter.
  revert Hcenter. generalize (foldl (λ score row,
                 if bool_decide (getCell grid row (COLS `div` 2)
                                 = Some (aiPlayer this))
                 then score + SCORE.CENTER_BONUS
                 else if bool_decide (getCell grid row (COLS `div` 2)
                                      = Some (humanPlayer this))
                 then score - SCORE.CENTER_BONUS
                 else score) 0 (seqZ 0 ROWS)).
  intros center Hcenter.
  pose proof (add_windows_range this (- SCORE.THREE_IN_ROW) SCORE.THREE_IN_ROW
                (seqZ 0 ROWS) (seqZ 0 (COLS - 3))
                (λ row col, window grid row col 0 1) 0
                (λ i j _ _, Hwin i j (0, 1) (proj1 SCANS_elems)))
    as H1.
  change (Z.of_nat (length (seqZ 0 ROWS) * length (seqZ 0 (COLS - 3))))
    with 24 in H1.
  revert H1. generalize (add_windows this (seqZ 0 ROWS) (seqZ 0 (COLS - 3))
                           (λ row col, window grid row col 0 1) 0).
  intros s1 H1.
  pose proof (add_windows_range this (- SCORE.THREE_IN_ROW) SCORE.THREE_IN_ROW
                (seqZ 0 COLS) (seqZ 0 (ROWS - 3))
                (λ col row, window grid row col 1 0) s1
                (λ i j _ _, Hwin j i (1, 0) (proj1 (proj2 SCANS_elems))))
    as H2.
  change (Z.of_nat (length (seqZ 0 COLS) * length (seqZ 0 (ROWS - 3))))
    with 21 in H2.
  revert H2. generalize (add_windows this (seqZ 0 COLS) (seqZ 0 (ROWS - 3))
                           (λ col row, window grid row col 1 0) s1).
  intros s2 H2.
  pose proof (add_windows_range this (- SCORE.THREE_IN_ROW) SCORE.THREE_IN_ROW
                (seqZ 0 (ROWS - 3)) (seqZ 0 (COLS - 3))
                (λ row col, window grid row col 1 1) s2
                (λ i j _ _, Hwin i j (1, 1) (proj1 (proj2 (proj2 SCANS_elems)))))
    as H3.
  change (Z.of_nat (length (seqZ 0 (ROWS - 3)) * length (seqZ 0 (COLS - 3))))
    with 12 in H3.
  revert H3. generalize (add_windows this (seqZ 0 (ROWS - 3))
                           (seqZ 0 (COLS - 3))
                           (λ row col, window grid row col 1 1) s2).
  intros s3 H3.
  pose proof (add_windows_range this (- SCORE.THREE_IN_ROW) SCORE.THREE_IN_ROW
                (seqZ 3 (ROWS - 3)) (seqZ 0 (COLS - 3))
                (λ row col, window grid row col (-1) 1) s3
                (λ i j _ _, Hwin i j (-1, 1) (proj2 (proj2 (proj2 SCANS_elems)))))
    as H4.
  change (Z.of_nat (length (seqZ 3 (ROWS - 3)) * length (seqZ 0 (COLS - 3))))
    with 12 in H4.
  revert H4. generalize (add_windows this (seqZ 3 (ROWS - 3))
                           (seqZ 0 (COLS - 3))
                           (λ row col, window grid row col (-1) 1) s3).
  intros s4 H4.
  unfold EVAL_BOUND, SCORE.WIN, SCORE.THREE_IN_ROW, SCORE.CENTER_BONUS in *.
  lia.
Qed.

(** X10. On a board without four in a row the static evaluation stays below
    the score of a win: it lies within [EVAL_BOUND] = 6918 of zero. *)
Theorem evaluateBoard_range (this : AI) (grid : Grid) :
  sides_ok this → no_winner grid →
  - EVAL_BOUND ≤ evaluateBoard this grid ≤ EVAL_BOUND
  ∧ EVAL_BOUND < SCORE.WIN.
Proof.
  intros Hsides Hno. split; [by apply evaluateBoard_bound|].
  unfold EVAL_BOUND, SCORE.CENTER_BONUS, SCORE.THREE_IN_ROW, SCORE.WIN. lia.
Qed.

(** [evaluateBoard], on the empty board. *)
Lemma evaluateBoard_range_witness :
  - EVAL_BOUND ≤ evaluateBoard (new MEDIUM) reset ≤ EVAL_BOUND
  ∧ EVAL_BOUND < SCORE.WIN.
Proof.
  apply (evaluateBoard_range (new MEDIUM) reset).
  - repeat split; discriminate.
  - exact (checkWinner_None reset eq_refl).
Defined.

(** *** The values of the search *)

Lemma tokens_ok_child (this : AI) (grid : Grid) (p col : Z) :
  wf_grid grid → tokens_ok this grid →
  p = aiPlayer this ∨ p = humanPlayer this →
  tokens_ok this (child_grid grid p col).
Proof.
  intros Hwf Hok Hp. unfold child_grid.
  destruct (isColumnFull grid col) eqn:Hfull; [done|].
  destruct (isColumnFull_false _ _ Hfull) as (Hc & Hr & _).
  intros r c value Hcell.
  destruct (decide ((r, c) = (findLowestRow grid col, col))) as [[= -> ->]|Hne].
  - rewrite getCell_write_eq in Hcell by done. injection Hcell as <-. tauto.
  - rewrite getCell_write_ne in Hcell by (lia || done). by eapply Hok.
Qed.

(** With tokens of the two sides only, a board that [minimax] does not
    decide by a winner has no four in a row. *)
Lemma undecided_no_winner (this : AI) (depth : nat) (grid : Grid) :
  tokens_ok this grid → decided this depth grid = None → no_winner grid.
Proof.
  intros Hok Hdec. unfold decided in Hdec.
  repeat case_bool_decide; try done.
  destruct (checkWinner grid) as [v|] eqn:Hv;
    [|intros ? ? ? ?; by apply checkWinner_None].
  destruct (checkWinner_Some _ _ Hv) as (Hne & r & c & d & _ & Hline).
  destruct (Hok _ _ _ (Hline 0 ltac:(lia))) as [->|[->| ->]]; done.
Qed.

Lemma in_range_weaken (lo hi lo' hi' : Z) (x : num) :
  in_range lo hi x → lo' ≤ lo → hi ≤ hi' → in_range lo' hi' x.
Proof. intros (z & -> & Hz) Hlo Hhi. exists z. split; [done|lia]. Qed.

Lemma num_max_range (lo hi : Z) (a b : num) :
  a = NegInf ∨ in_range lo hi a → in_range lo hi b →
  in_range lo hi (num_max a b).
Proof.
  intros [->|(x & -> & Hx)] (y & -> & Hy); [by exists y|].
  unfold num_max, num_leb. destruct (x <=? y); by eexists.
Qed.

Lemma num_min_range (lo hi : Z) (a b : num) :
  a = PosInf ∨ in_range lo hi a → in_range lo hi b →
  in_range lo hi (num_min a b).
Proof.
  intros [->|(x & -> & Hx)] (y & -> & Hy); [by exists y|].
  unfold num_min, num_leb. destruct (x <=? y); by eexists.
Qed.

Lemma max_cut_range (lo hi : Z) (cv : Grid → num → num → num) (beta : num)
    (grids : list Grid) (best alpha : num) :
  (∀ g a b, g ∈ grids → in_range lo hi (cv g a b)) →
  (best = NegInf ∧ grids ≠ []) ∨ in_range lo hi best →
  in_range lo hi (max_cut cv beta grids best alpha).
Proof.
  revert best alpha.
  induction grids as [|g grids IH]; intros best alpha Hcv Hbest; simpl.
  - by destruct Hbest as [[_ ?]|?].
  - assert (Hnew : in_range lo hi (num_max best (cv g alpha beta))).
    { apply num_max_range; [tauto|]. apply Hcv. by left. }
    destruct (num_leb beta _); [done|].
    apply IH; [|by right]. intros g' a b Hin. apply Hcv. by right.
Qed.

Lemma min_cut_range (lo hi : Z) (cv : Grid → num → num → num) (alpha : num)
    (grids : list Grid) (best beta : num) :
  (∀ g a b, g ∈ grids → in_range lo hi (cv g a b)) →
  (best = PosInf ∧ grids ≠ []) ∨ in_range lo hi best →
  in_range lo hi (min_cut cv alpha grids best beta).
Proof.
  revert best beta.
  induction grids as [|g grids IH]; intros best beta Hcv Hbest; simpl.
  - by destruct Hbest as [[_ ?]|?].
  - assert (Hnew : in_range lo hi (num_min best (cv g alpha beta))).
    { apply num_min_range; [tauto|]. apply Hcv. by left. }
    destruct (num_leb _ alpha); [done|].
    apply IH; [|by right]. intros g' a b Hin. apply Hcv. by right.
Qed.

Lemma children_ok (this : AI) (grid : Grid) (p : Z) (g : Grid) :
  wf_grid grid → tokens_ok this grid →
  p = aiPlayer this ∨ p = humanPlayer this →
  g ∈ children grid p → wf_grid g ∧ tokens_ok this g.
Proof.
  intros Hwf Hok Hp Hg. unfold children in Hg.
  apply list_elem_of_fmap in Hg as (col & -> & _).
  split; [by apply wf_grid_child|by apply tokens_ok_child].
Qed.

(** What [minimax] returns, whatever the window: a number within
    [WIN + depth] of zero; the upper end only on a board the engine has
    already won, the lower end only on a board the opponent has already
    won. *)
Lemma alphabeta_range (this : AI) (depth : nat) :
  sides_ok this →
  ∀ grid alpha beta isMaximizing,
    wf_grid grid → tokens_ok this grid →
    ∃ z, alphabeta this depth grid alpha beta isMaximizing = Fin z
      ∧ - (SCORE.WIN + Z.of_nat depth) ≤ z ≤ SCORE.WIN + Z.of_nat depth
      ∧ (z = SCORE.WIN + Z.of_nat depth →
         checkWinner grid = Some (aiPlayer this))
      ∧ (z = - (SCORE.WIN + Z.of_nat depth) →
         checkWinner grid = Some (humanPlayer this)).
Proof.
  intros Hsides.
  induction depth as [|depth IH]; intros grid alpha beta isMaximizing Hwf Hok;
    cbn [alphabeta]; destruct (decided this _ grid) as [score|] eqn:Hdec.
  1,3: unfold decided in Hdec; unfold SCORE.WIN in *;
    repeat case_bool_decide; try destruct (isBoardFull grid); try done;
    injection Hdec as <-; eexists; (split; [done|]);
    (split; [lia|]); split; intros; first [done|lia].
  - pose proof (evaluateBoard_bound this grid Hsides
                  (undecided_no_winner _ _ _ Hok Hdec)) as Hrange.
    unfold EVAL_BOUND, SCORE.CENTER_BONUS, SCORE.THREE_IN_ROW in Hrange.
    exists (evaluateBoard this grid). split; [done|].
    unfold SCORE.WIN in *. split; [lia|]. split; intros; lia.
  - assert (Hfull : isBoardFull grid = false).
    { unfold decided in Hdec. repeat case_bool_decide; try done.
      by destruct (isBoardFull grid). }
    assert (Hin : in_range (- (SCORE.WIN + Z.of_nat depth))
                    (SCORE.WIN + Z.of_nat depth)
                    (if isMaximizing
                     then max_cut (λ g a b, alphabeta this depth g a b false)
                            beta (children grid (aiPlayer this)) NegInf alpha
                     else min_cut (λ g a b, alphabeta this depth g a b true)
                            alpha (children grid (humanPlayer this)) PosInf
                            beta)).
    { destruct isMaximizing.
      - apply max_cut_range; [|left; split; [done|by apply children_nonempty]].
        intros g a b Hg.
        destruct (children_ok this grid _ g Hwf Hok ltac:(by left) Hg)
          as [Hwf' Hok'].
        destruct (IH g a b false Hwf' Hok') as (z & -> & Hz & _).
        by exists z.
      - apply min_cut_range; [|left; split; [done|by apply children_nonempty]].
        intros g a b Hg.
        destruct (children_ok this grid _ g Hwf Hok ltac:(by right) Hg)
          as [Hwf' Hok'].
        destruct (IH g a b true Hwf' Hok') as (z & -> & Hz & _).
        by exists z. }
    destruct Hin as (z & -> & Hz). exists z. split; [done|].
    split; [lia|]. split; intros; lia.
Qed.

Lemma dropToken_child (σ : Store) (board : ref) (grid : Grid) (col p : Z) :
  σ !! board = Some grid →
  grid_of (dropToken board col p σ).2 board = child_grid grid p col.
Proof.
  intros Hboard. rewrite dropToken_unfold, (grid_of_lookup _ _ _ Hboard).
  unfold child_grid. destruct (isColumnFull grid col); simpl.
  - by apply grid_of_lookup.
  - apply grid_of_insert_eq. by eapply lookup_lt_Some.
Qed.

(** X11. The value of [minimax] on a board of the store is a number within
    [WIN + depth] of zero, whatever the window; it is [WIN + depth] only
    when [checkWinner] finds the engine's side on the board, and
    [-(WIN + depth)] only when it finds the opponent's. *)
Theorem minimax_value_range (this : AI) (depth : nat) (board : ref)
    (alpha beta : num) (isMaximizing : bool) (σ : Store) (grid : Grid) :
  σ !! board = Some grid → wf_grid grid →
  sides_ok this → tokens_ok this grid →
  ∃ z, (minimax this depth board alpha beta isMaximizing σ).1 = Fin z
    ∧ - (SCORE.WIN + Z.of_nat depth) ≤ z ≤ SCORE.WIN + Z.of_nat depth
    ∧ (z = SCORE.WIN + Z.of_nat depth →
       checkWinner grid = Some (aiPlayer this))
    ∧ (z = - (SCORE.WIN + Z.of_nat depth) →
       checkWinner grid = Some (humanPlayer this)).
Proof.
  intros Hboard Hwf Hsides Hok.
  destruct (minimax_computes this depth board alpha beta isMaximizing σ)
    as [fresh ->]; [by exists grid|].
  simpl. rewrite (grid_of_lookup _ _ _ Hboard). by apply alphabeta_range.
Qed.

Lemma tokens_ok_reset (this : AI) : tokens_ok this reset.
Proof.
  intros row col value Hcell. left.
  destruct (getCell_Some_bounds _ _ _ _ Hcell) as [Hr Hc].
  unfold ROWS, COLS in *.
  assert (Hrc : row = 0 ∨ row = 1 ∨ row = 2 ∨ row = 3 ∨ row = 4 ∨ row = 5)
    by lia.
  assert (Hcc : col = 0 ∨ col = 1 ∨ col = 2 ∨ col = 3 ∨ col = 4 ∨ col = 5
                ∨ col = 6) by lia.
  destruct Hrc as [->|[->|[->|[->|[->| ->]]]]];
    destruct Hcc as [->|[->|[->|[->|[->|[->| ->]]]]]];
    vm_compute in Hcell; by injection Hcell as <-.
Qed.

Lemma sides_ok_new (difficulty : DIFFICULTY) : sides_ok (new difficulty).
Proof. repeat split; discriminate. Qed.

(** The range of [minimax], on the empty board. *)
Lemma minimax_value_range_witness :
  ∃ z, (minimax (new HARD) 2 0%nat NegInf PosInf true [reset]).1 = Fin z
    ∧ - (SCORE.WIN + Z.of_nat 2) ≤ z ≤ SCORE.WIN + Z.of_nat 2
    ∧ (z = SCORE.WIN + Z.of_nat 2 →
       checkWinner reset = Some (aiPlayer (new HARD)))
    ∧ (z = - (SCORE.WIN + Z.of_nat 2) →
       checkWinner reset = Some (humanPlayer (new HARD))).
Proof.
  apply (minimax_value_range (new HARD) 2 0%nat NegInf PosInf true [reset]
           reset).
  - reflexivity.
  - apply wf_grid_reset.
  - apply sides_ok_new.
  - apply tokens_ok_reset.
Defined.

(** *** The column [getBestMove] returns *)

Lemma best_of_elem (f : Z → num) (moves : list Z) (bestScore : num)
    (bestMove : Z) :
  best_of f moves bestScore bestMove = bestMove
  ∨ best_of f moves bestScore bestMove ∈ moves.
Proof.
  revert bestScore bestMove.
  induction moves as [|col moves IH]; intros bestScore bestMove; simpl;
    [by left|].
  destruct (num_ltb bestScore (f col)).
  - destruct (IH (f col) col) as [->|Hin]; right; [by left|by right].
  - destruct (IH bestScore bestMove) as [->|Hin]; [by left|right; by right].
Qed.

Lemma orderMoves_elem (moves : list Z) (col : Z) :
  col ∈ orderMoves moves ↔ col ∈ moves.
Proof. unfold orderMoves. by rewrite sort_perm. Qed.

Lemma nth_move_elem (validMoves : list Z) (i : nat) :
  (i < length validMoves)%nat → nth_move validMoves i ∈ validMoves.
Proof.
  intros Hi. unfold nth_move. apply list_elem_of_lookup_total_2. done.
Qed.

Lemma getValidMoves_elem (grid : Grid) (col : Z) :
  col ∈ getValidMoves grid ↔ isColumnFull grid col = false.
Proof.
  rewrite getValidMoves_filter, list_elem_of_filter, elem_of_seqZ.
  split; [by intros [H _]|]. intros Hfree. split; [done|].
  destruct (isColumnFull_false _ _ Hfree) as [Hc _]. lia.
Qed.

(** What [getBestMove] returns when it searches: a valid column whose
    score no valid column exceeds. *)
Lemma search_best (this : AI) (depth : nat) (board : ref) (σ : Store)
    (grid : Grid) :
  σ !! board = Some grid → wf_grid grid → getValidMoves grid ≠ [] →
  let best := (search this depth board (getValidMoves grid) σ).1 in
  best ∈ getValidMoves grid
  ∧ ∀ col, col ∈ getValidMoves grid →
      num_le (root_score this depth grid col) (root_score this depth grid best).
Proof.
  intros Hboard Hwf Hsome. cbv zeta.
  destruct (search_computes this depth board (getValidMoves grid) σ)
    as [fresh ->]; [by exists grid|].
  simpl. rewrite (grid_of_lookup _ _ _ Hboard).
  destruct (best_of_spec (root_score this depth grid)
              (orderMoves (getValidMoves grid)) NegInf
              (nth_move (getValidMoves grid) 0))
    as [[_ Hall]|(i & Hi & _ & Hle & _)].
  - exfalso. destruct (getValidMoves grid) as [|c rest] eqn:Hmoves; [done|].
    specialize (Hall c (proj2 (orderMoves_elem _ _) ltac:(by left))).
    destruct (alphabeta_fin this (depth - 1)
                (child_grid grid (aiPlayer this) c) NegInf PosInf false)
      as [z Hz].
    unfold root_score in Hall. by rewrite Hz in Hall.
  - split.
    + apply orderMoves_elem. by eapply list_elem_of_lookup_2.
    + intros col Hcol. apply orderMoves_elem in Hcol.
      apply list_elem_of_lookup_1 in Hcol as [j Hj]. by eapply Hle.
Qed.

Lemma getBestMove_elem (this : AI) (random : Random) (board : ref)
    (σ : Store) (grid : Grid) :
  σ !! board = Some grid → wf_grid grid → getValidMoves grid ≠ [] →
  (getBestMove this random board σ).1 ∈ getValidMoves grid.
Proof.
  intros Hboard Hwf Hsome. unfold getBestMove.
  rewrite (grid_of_lookup _ _ _ Hboard).
  assert (Hlen : (0 < length (getValidMoves grid))%nat).
  { destruct (getValidMoves grid); [done|simpl; lia]. }
  destruct (Nat.eqb_spec (length (getValidMoves grid)) 0); [lia|].
  destruct (Nat.eqb_spec (length (getValidMoves grid)) 1).
  { simpl. by apply nth_move_elem. }
  destruct (_ && _).
  { simpl. apply nth_move_elem. apply Nat.mod_upper_bound. lia. }
  by apply search_best.
Qed.

(** X12. [getBestMove] answers [-1] exactly when no column is free, and
    otherwise a column that is not full, between 0 and 6: on every path,
    the shortcut for a single move, the random draw of the easy
    difficulty and the search. *)
Theorem getBestMove_valid (this : AI) (random : Random) (board : ref)
    (σ : Store) (grid : Grid) :
  σ !! board = Some grid → wf_grid grid →
  let best := (getBestMove this random board σ).1 in
  (getValidMoves grid = [] → best = -1)
  ∧ (getValidMoves grid ≠ [] →
     best ∈ getValidMoves grid
     ∧ isColumnFull grid best = false ∧ 0 ≤ best < COLS).
Proof.
  intros Hboard Hwf. cbv zeta. split.
  - intros Hnil. unfold getBestMove.
    by rewrite (grid_of_lookup _ _ _ Hboard), Hnil.
  - intros Hsome.
    pose proof (getBestMove_elem this random board σ grid Hboard Hwf Hsome)
      as Hin.
    split; [done|]. apply getValidMoves_elem in Hin. split; [done|].
    by destruct (isColumnFull_false _ _ Hin) as [Hc _].
Qed.

(** [getBestMove] returns a free column, on the empty board with the
    random branch taken. *)
Lemma getBestMove_valid_witness :
  let best := (getBestMove (new EASY) (mkRandom true 11) 0%nat [reset]).1 in
  (getValidMoves reset = [] → best = -1)
  ∧ (getValidMoves reset ≠ [] →
     best ∈ getValidMoves reset
     ∧ isColumnFull reset best = false ∧ 0 ≤ best < COLS).
Proof.
  apply (getBestMove_valid (new EASY) (mkRandom true 11) 0%nat [reset] reset).
  - reflexivity.
  - apply wf_grid_reset.
Defined.

Lemma alphabeta_won (this : AI) (depth : nat) (grid : Grid) (alpha beta : num)
    (isMaximizing : bool) :
  checkWinner grid = Some (aiPlayer this) →
  alphabeta this depth grid alpha beta isMaximizing
  = Fin (SCORE.WIN + Z.of_nat depth).
Proof.
  intros Hw. destruct depth; cbn [alphabeta]; unfold decided;
    by rewrite bool_decide_eq_true_2.
Qed.

Lemma alphabeta_lost (this : AI) (depth : nat) (grid : Grid) (alpha beta : num)
    (isMaximizing : bool) :
  aiPlayer this ≠ humanPlayer this →
  checkWinner grid = Some (humanPlayer this) →
  alphabeta this depth grid alpha beta isMaximizing
  = Fin (- SCORE.WIN - Z.of_nat depth).
Proof.
  intros Hne Hw. destruct depth; cbn [alphabeta]; unfold decided;
    (rewrite bool_decide_eq_false_2 by congruence);
    by rewrite bool_decide_eq_true_2.
Qed.

Lemma getBestMove_searches (this : AI) (random : Random) (board : ref)
    (σ : Store) (grid : Grid) :
  σ !! board = Some grid →
  (difficulty this = EASY → below_06 random = false) →
  (getValidMoves grid = [] ∧ (getBestMove this random board σ).1 = -1)
  ∨ (∃ col, getValidMoves grid = [col]
       ∧ (getBestMove this random board σ).1 = col)
  ∨ (getValidMoves grid ≠ []
     ∧ (getBestMove this random board σ).1
       = (search this (search_depth this) board (getValidMoves grid) σ).1).
Proof.
  intros Hboard Hrandom. unfold getBestMove.
  rewrite (grid_of_lookup _ _ _ Hboard).
  destruct (getValidMoves grid) as [|c [|c' rest]] eqn:Hmoves.
  - by left.
  - right. left. by exists c.
  - right. right. split; [done|]. cbn [length Nat.eqb].
    assert (Hbranch : bool_decide (difficulty this = EASY) && below_06 random
                      = false).
    { case_bool_decide; [by rewrite Hrandom|done]. }
    by rewrite Hbranch.
Qed.

Lemma search_takes_win (this : AI) (random : Random) (board : ref)
    (σ : Store) (grid : Grid) (col : Z) :
  σ !! board = Some grid → wf_grid grid →
  sides_ok this → tokens_ok this grid →
  (difficulty this = EASY → below_06 random = false) →
  isColumnFull grid col = false →
  checkWinner (child_grid grid (aiPlayer this) col) = Some (aiPlayer this) →
  let best := (getBestMove this random board σ).1 in
  isColumnFull grid best = false
  ∧ checkWinner (child_grid grid (aiPlayer this) best) = Some (aiPlayer this).
Proof.
  intros Hboard Hwf Hsides Hok Hrandom Hfree Hwin. cbv zeta.
  apply getValidMoves_elem in Hfree.
  destruct (getBestMove_searches this random board σ grid Hboard Hrandom)
    as [[Hnil _]|[(c & Hone & ->)|[Hsome ->]]].
  - rewrite Hnil in Hfree. by apply elem_of_nil in Hfree.
  - rewrite Hone in Hfree. apply list_elem_of_singleton in Hfree as ->.
    split; [|done]. apply getValidMoves_elem. rewrite Hone. by left.
  - destruct (search_best this (search_depth this) board σ grid Hboard Hwf
                Hsome) as [Hin Hmax].
    split; [by apply getValidMoves_elem|].
    specialize (Hmax col Hfree). unfold root_score in Hmax.
    rewrite (alphabeta_won _ _ _ _ _ _ Hwin) in Hmax.
    destruct (alphabeta_range this (search_depth this - 1) Hsides
                (child_grid grid (aiPlayer this)
                   (search this (search_depth this) board (getValidMoves grid)
                      σ).1) NegInf PosInf false)
      as (z & Hz & Hrange & Hup & _).
    { by apply wf_grid_child. }
    { apply tokens_ok_child; [done..|by left]. }
    rewrite Hz in Hmax. apply Hup.
    unfold num_le, num_leb in Hmax. apply Z.leb_le in Hmax. lia.
Qed.

(** X13. When some free column wins at once for the engine, [getBestMove],
    on a path that is not the random draw, returns a column that wins at
    once: after the token is dropped there on the board, [checkWinner]
    finds the engine's side. *)
Theorem getBestMove_wins_at_once (this : AI) (random : Random) (board : ref)
    (σ : Store) (grid : Grid) (col : Z) :
  σ !! board = Some grid → wf_grid grid →
  sides_ok this → tokens_ok this grid →
  (difficulty this = EASY → below_06 random = false) →
  isColumnFull grid col = false →
  checkWinner (grid_of (dropToken board col (aiPlayer this) σ).2 board)
  = Some (aiPlayer this) →
  let best := (getBestMove this random board σ).1 in
  isColumnFull grid best = false
  ∧ checkWinner (grid_of (dropToken board best (aiPlayer this) σ).2 board)
    = Some (aiPlayer this).
Proof.
  intros Hboard Hwf Hsides Hok Hrandom Hfree Hwin. cbv zeta.
  rewrite !(dropToken_child _ _ _ _ _ Hboard) in *.
  by apply (search_takes_win this random board σ grid col).
Qed.

Lemma tokens_ok_cells (this : AI) (grid : Grid) :
  forallb (forallb (λ value, (value =? EMPTY) || (value =? aiPlayer this)
                             || (value =? humanPlayer this))) grid = true →
  tokens_ok this grid.
Proof.
  intros Hall row col value Hcell.
  unfold getCell in Hcell. destruct (_ || _); [done|].
  unfold read in Hcell.
  destruct (index grid row) as [cells|] eqn:Hrow; [|done].
  simpl in Hcell. apply index_Some in Hrow as [_ Hrow].
  apply index_Some in Hcell as [_ Hcell].
  rewrite forallb_forall in Hall.
  specialize (Hall cells). rewrite <- list_elem_of_In in Hall.
  specialize (Hall (list_elem_of_lookup_2 _ _ _ Hrow)).
  rewrite forallb_forall in Hall.
  specialize (Hall value). rewrite <- list_elem_of_In in Hall.
  specialize (Hall (list_elem_of_lookup_2 _ _ _ Hcell)).
  apply orb_prop in Hall as [Hall|Hall]; [apply orb_prop in Hall as [Hall|Hall]|];
    apply Z.eqb_eq in Hall; tauto.
Qed.

(** The engine takes the win on the board where its side has three in
    the bottom row. *)
Lemma getBestMove_wins_at_once_witness :
  let grid := played [(0, 2); (0, 1); (1, 2); (1, 1); (2, 2); (6, 1)] in
  let best := (getBestMove (new HARD) (mkRandom true 0) 0%nat [grid]).1 in
  isColumnFull grid best = false
  ∧ checkWinner
      (grid_of (dropToken 0%nat best (aiPlayer (new HARD)) [grid]).2 0%nat)
    = Some (aiPlayer (new HARD)).
Proof.
  apply (getBestMove_wins_at_once (new HARD) (mkRandom true 0) 0%nat
           [played [(0, 2); (0, 1); (1, 2); (1, 1); (2, 2); (6, 1)]]
           (played [(0, 2); (0, 1); (1, 2); (1, 1); (2, 2); (6, 1)]) 3).
  - reflexivity.
  - split; [reflexivity|repeat constructor].
  - apply sides_ok_new.
  - apply tokens_ok_cells. reflexivity.
  - discriminate.
  - reflexivity.
  - reflexivity.
Defined.

(** *** Blocking *)

Lemma free_not_full (grid : Grid) (col : Z) :
  isColumnFull grid col = false → isBoardFull grid = false.
Proof.
  intros Hfree. destruct (isBoardFull grid) eqn:Hfull; [|done].
  unfold isBoardFull in Hfull.
  rewrite BoardMore.AI_isBoardFull_loop, BoardMore.isFull_loop_Forall,
    Forall_forall in Hfull.
  destruct (isColumnFull_false _ _ Hfree) as [Hc _].
  rewrite (Hfull col) in Hfree; [done|]. apply elem_of_seqZ. lia.
Qed.

Lemma foldl_min_elem (f : Grid → num) (grids : list Grid) (acc : num)
    (g : Grid) :
  g ∈ grids → num_le (foldl (λ best g, num_min best (f g)) acc grids) (f g).
Proof.
  revert acc. induction grids as [|g' grids IH]; intros acc Hin; simpl.
  - by apply elem_of_nil in Hin.
  - apply elem_of_cons in Hin as [->|Hin]; [|by apply IH].
    pose proof (foldl_min_le f grids (num_min acc (f g'))) as Hle.
    revert Hle.
    generalize (foldl (λ best g0, num_min best (f g0)) (num_min acc (f g'))
                  grids).
    generalize (f g'). intros. num_solve.
Qed.

Lemma foldl_min_range (lo hi : Z) (f : Grid → num) (grids : list Grid)
    (acc : num) :
  (∀ g, g ∈ grids → in_range lo hi (f g)) →
  (acc = PosInf ∧ grids ≠ []) ∨ in_range lo hi acc →
  in_range lo hi (foldl (λ best g, num_min best (f g)) acc grids).
Proof.
  revert acc. induction grids as [|g grids IH]; intros acc Hf Hacc; simpl.
  - by destruct Hacc as [[_ ?]|?].
  - apply IH; [intros g' Hg'; apply Hf; by right|]. right.
    apply num_min_range; [tauto|]. apply Hf. by left.
Qed.

(** After a move of the engine that neither wins nor fills the board,
    the score of the move is the lowest possible exactly when the
    opponent has a reply that wins at once. *)
Lemma reply_score (this : AI) (depth : nat) (grid : Grid) :
  sides_ok this → wf_grid grid → tokens_ok this grid →
  checkWinner grid = None →
  let lo := - (SCORE.WIN + Z.of_nat depth) in
  let score := alphabeta this (S depth) grid NegInf PosInf false in
  ((∃ col, isColumnFull grid col = false
      ∧ checkWinner (child_grid grid (humanPlayer this) col)
        = Some (humanPlayer this)) →
   score = Fin lo)
  ∧ ((∀ col, isColumnFull grid col = false →
        checkWinner (child_grid grid (humanPlayer this) col)
        ≠ Some (humanPlayer this)) →
     ∃ z, score = Fin z ∧ lo < z).
Proof.
  intros Hsides Hwf Hok Hnone lo score. subst score.
  rewrite alphabeta_full_window. cbn [plain]. unfold decided.
  rewrite Hnone.
  rewrite !bool_decide_eq_false_2 by done.
  assert (Hchild : ∀ g, g ∈ children grid (humanPlayer this) →
            ∃ col, g = child_grid grid (humanPlayer this) col
              ∧ isColumnFull grid col = false
              ∧ ∃ z, plain this depth g true = Fin z
                  ∧ lo ≤ z ≤ SCORE.WIN + Z.of_nat depth
                  ∧ (z = lo → checkWinner g = Some (humanPlayer this))).
  { intros g Hg.
    destruct (children_ok this grid _ g Hwf Hok ltac:(by right) Hg)
      as [Hwf' Hok'].
    unfold children in Hg. apply list_elem_of_fmap in Hg as (col & -> & Hcol).
    apply orderMoves_elem, getValidMoves_elem in Hcol.
    exists col. split; [done|]. split; [done|].
    rewrite <- alphabeta_full_window.
    destruct (alphabeta_range this depth Hsides _ NegInf PosInf true Hwf' Hok')
      as (z & Hz & Hrange & _ & Hlow).
    exists z. by repeat split; try lia. }
  split.
  - intros (col & Hfree & Hwin).
    rewrite (free_not_full _ _ Hfree).
    assert (Hin : child_grid grid (humanPlayer this) col
                  ∈ children grid (humanPlayer this)).
    { unfold children. apply list_elem_of_fmap. exists col. split; [done|].
      by apply orderMoves_elem, getValidMoves_elem. }
    pose proof (foldl_min_elem (λ g, plain this depth g true) _ PosInf _ Hin)
      as Hle.
    cbv beta in Hle. rewrite <- (alphabeta_full_window _ _ (child_grid _ _ _))
      in Hle.
    rewrite (alphabeta_lost this depth _ NegInf PosInf true) in Hle;
      [|by destruct Hsides as (_ & _ & ?)|done].
    destruct (foldl_min_range lo (SCORE.WIN + Z.of_nat depth)
                (λ g, plain this depth g true)
                (children grid (humanPlayer this)) PosInf) as (z & Hz & Hrange).
    { intros g Hg. destruct (Hchild g Hg) as (_ & _ & _ & z & Hz & Hrange & _).
      by exists z. }
    { left. split; [done|]. intros Hnil. rewrite Hnil in Hin.
      by apply elem_of_nil in Hin. }
    rewrite Hz in Hle |- *. unfold num_le, num_leb in Hle.
    apply Z.leb_le in Hle. f_equal. unfold lo in *. lia.
  - intros Hsafe. destruct (isBoardFull grid) eqn:Hfull.
    { exists 0. split; [done|]. unfold lo, SCORE.WIN. lia. }
    destruct (foldl_min_range (lo + 1) (SCORE.WIN + Z.of_nat depth)
                (λ g, plain this depth g true)
                (children grid (humanPlayer this)) PosInf) as (z & Hz & Hrange).
    { intros g Hg.
      destruct (Hchild g Hg) as (col & -> & Hfree & z & Hz & Hrange & Hlow).
      exists z. split; [done|].
      destruct (decide (z = lo)) as [Heq|]; [|lia].
      by destruct (Hsafe col Hfree (Hlow Heq)). }
    { left. split; [done|]. by apply children_nonempty. }
    exists z. split; [done|]. lia.
Qed.

Lemma search_depth_two (this : AI) : ∃ depth, search_depth this = S (S depth).
Proof.
  unfold search_depth, DEPTH_CONFIG. destruct (difficulty this); by eexists.
Qed.

Lemma child_not_won (this : AI) (grid : Grid) (col : Z) :
  wf_grid grid → sides_ok this → checkWinner grid = None →
  isColumnFull grid col = false →
  checkWinner (child_grid grid (aiPlayer this) col) ≠ Some (aiPlayer this) →
  checkWinner (child_grid grid (aiPlayer this) col) = None.
Proof.
  intros Hwf (Hai & _) Hnone Hfree Hnot.
  by apply (GameLogicMore.checkWinner_child grid col (aiPlayer this) Hwf Hai
              (checkWinner_None _ Hnone) Hfree).
Qed.

(** X14. When the engine cannot win at once, the opponent can win at once
    after every move of the engine but [c], and cannot after [c], then
    [getBestMove], on a path that is not the random draw, returns [c]:
    at every difficulty the engine blocks a single threat. *)
Theorem getBestMove_blocks_threat (this : AI) (random : Random) (board : ref)
    (σ : Store) (grid : Grid) (c : Z) :
  σ !! board = Some grid → wf_grid grid →
  sides_ok this → tokens_ok this grid →
  (difficulty this = EASY → below_06 random = false) →
  checkWinner grid = None →
  (∀ col, isColumnFull grid col = false →
     checkWinner (child_grid grid (aiPlayer this) col)
     ≠ Some (aiPlayer this)) →
  isColumnFull grid c = false →
  (∀ reply, isColumnFull (child_grid grid (aiPlayer this) c) reply = false →
     checkWinner (child_grid (child_grid grid (aiPlayer this) c)
                    (humanPlayer this) reply)
     ≠ Some (humanPlayer this)) →
  (∀ col, col ≠ c → isColumnFull grid col = false →
     ∃ reply, isColumnFull (child_grid grid (aiPlayer this) col) reply = false
       ∧ checkWinner (child_grid (child_grid grid (aiPlayer this) col)
                        (humanPlayer this) reply)
         = Some (humanPlayer this)) →
  (getBestMove this random board σ).1 = c.
Proof.
  intros Hboard Hwf Hsides Hok Hrandom Hnone Hnowin Hc Hsafe Hthreat.
  pose proof Hc as Hcin. apply getValidMoves_elem in Hcin.
  destruct (getBestMove_searches this random board σ grid Hboard Hrandom)
    as [[Hnil _]|[(c' & Hone & ->)|[Hsome ->]]].
  - rewrite Hnil in Hcin. by apply elem_of_nil in Hcin.
  - rewrite Hone in Hcin. by apply list_elem_of_singleton in Hcin.
  - destruct (search_best this (search_depth this) board σ grid Hboard Hwf
                Hsome) as [Hin Hmax].
    revert Hin Hmax.
    generalize (search this (search_depth this) board (getValidMoves grid) σ).1.
    intros best Hin Hmax.
    destruct (decide (best = c)) as [|Hne]; [done|exfalso].
    apply getValidMoves_elem in Hin.
    specialize (Hmax c Hcin). unfold root_score in Hmax.
    destruct (search_depth_two this) as [depth Hdepth].
    rewrite Hdepth in Hmax.
    replace (S (S depth) - 1)%nat with (S depth) in Hmax by lia.
    assert (Hnode : ∀ col, isColumnFull grid col = false →
              wf_grid (child_grid grid (aiPlayer this) col)
              ∧ tokens_ok this (child_grid grid (aiPlayer this) col)
              ∧ checkWinner (child_grid grid (aiPlayer this) col) = None).
    { intros col Hfree. split; [by apply wf_grid_child|].
      split; [apply tokens_ok_child; [done..|by left]|].
      apply child_not_won; try done. by apply Hnowin. }
    destruct (Hnode c Hc) as (Hwfc & Hokc & Hnonec).
    destruct (Hnode best Hin) as (Hwfb & Hokb & Hnoneb).
    destruct (reply_score this depth _ Hsides Hwfc Hokc Hnonec)
      as [_ Hgood].
    destruct (reply_score this depth _ Hsides Hwfb Hokb Hnoneb)
      as [Hbad _].
    destruct (Hgood Hsafe) as (z & Hz & Hlt).
    rewrite Hz, (Hbad (Hthreat best Hne Hin)) in Hmax.
    unfold num_le, num_leb in Hmax. apply Z.leb_le in Hmax. lia.
Qed.

Lemma free_columns (grid : Grid) (P : Z → Prop) :
  Forall P (getValidMoves grid) →
  ∀ col, isColumnFull grid col = false → P col.
Proof.
  rewrite Forall_forall. intros HP col Hfree.
  by apply HP, getValidMoves_elem.
Qed.

(** The engine blocks the row of three of the other side. *)
Lemma getBestMove_blocks_threat_witness :
  (getBestMove (new MEDIUM) (mkRandom true 0) 0%nat
     [played [(0, 1); (6, 2); (1, 1); (6, 2); (2, 1)]]).1 = 3.
Proof.
  apply (getBestMove_blocks_threat (new MEDIUM) (mkRandom true 0) 0%nat
           [played [(0, 1); (6, 2); (1, 1); (6, 2); (2, 1)]]
           (played [(0, 1); (6, 2); (1, 1); (6, 2); (2, 1)]) 3).
  - reflexivity.
  - split; [reflexivity|repeat constructor].
  - apply sides_ok_new.
  - apply tokens_ok_cells. reflexivity.
  - discriminate.
  - reflexivity.
  - apply free_columns.
    change (getValidMoves (played [(0, 1); (6, 2); (1, 1); (6, 2); (2, 1)]))
      with [0; 1; 2; 3; 4; 5; 6].
    repeat (apply Forall_cons; split;
            [intros Hwin; vm_compute in Hwin; discriminate Hwin|]).
    constructor.
  - reflexivity.
  - apply free_columns.
    change (getValidMoves
              (child_grid (played [(0, 1); (6, 2); (1, 1); (6, 2); (2, 1)])
                 (aiPlayer (new MEDIUM)) 3))
      with [0; 1; 2; 3; 4; 5; 6].
    repeat (apply Forall_cons; split;
            [intros Hwin; vm_compute in Hwin; discriminate Hwin|]).
    constructor.
  - assert (Hall : Forall (λ col, col ≠ 3 →
              ∃ reply,
                isColumnFull
                  (child_grid (played [(0, 1); (6, 2); (1, 1); (6, 2); (2, 1)])
                     (aiPlayer (new MEDIUM)) col) reply = false
                ∧ checkWinner
                    (child_grid
                       (child_grid
                          (played [(0, 1); (6, 2); (1, 1); (6, 2); (2, 1)])
                          (aiPlayer (new MEDIUM)) col)
                       (humanPlayer (new MEDIUM)) reply)
                  = Some (humanPlayer (new MEDIUM)))
              (getValidMoves (played [(0, 1); (6, 2); (1, 1); (6, 2); (2, 1)]))).
    { change (getValidMoves (played [(0, 1); (6, 2); (1, 1); (6, 2); (2, 1)]))
        with [0; 1; 2; 3; 4; 5; 6].
      repeat (apply Forall_cons; split;
              [intros Hne; first [by destruct Hne
                                 |exists 3; split; reflexivity]|]).
      constructor. }
    intros col Hne Hfree. by apply (free_columns _ _ Hall col Hfree).
Defined.

(** *** The engine and [getWinningMoves] *)

(** X15. On a board without four in a row where [getWinningMoves] finds
    winning columns for the engine's side, [getBestMove], on a path that
    is not the random draw, returns one of them. *)
Theorem getBestMove_plays_winning_move (this : AI) (random : Random)
    (fuel : nat) (board : ref) (σ σ' : Store) (grid : Grid)
    (winningMoves : list Z) :
  σ !! board = Some grid → wf_grid grid →
  sides_ok this → tokens_ok this grid →
  (difficulty this = EASY → below_06 random = false) →
  checkWinner grid = None → (8 ≤ fuel)%nat →
  GameLogic.getWinningMoves fuel board (aiPlayer this) σ
  = Some (winningMoves, σ') →
  winningMoves ≠ [] →
  (getBestMove this random board σ).1 ∈ winningMoves.
Proof.
  intros Hboard Hwf Hsides Hok Hrandom Hnone Hfuel Hrun Hsome.
  unfold GameLogic.getWinningMoves in Hrun.
  destruct (GameLogicMore.getWinningMoves_loop_spec fuel σ board grid
              (aiPlayer this) (seqZ 0 COLS) [] Hboard Hwf Hfuel)
    as (found & Hfound & Hmem & _).
  rewrite Hfound in Hrun. injection Hrun as <- <-.
  assert (Hline : ∀ col, isColumnFull grid col = false →
            (checkWinner (child_grid grid (aiPlayer this) col)
             = Some (aiPlayer this)
             ↔ wins_at (child_grid grid (aiPlayer this) col)
                 (findLowestRow grid col) col (aiPlayer this))).
  { intros col Hfree. destruct Hsides as (Hai & _).
    by destruct (GameLogicMore.checkWinner_child grid col (aiPlayer this) Hwf
                   Hai (checkWinner_None _ Hnone) Hfree). }
  destruct found as [|col rest]; [done|].
  destruct (proj1 (Hmem col) ltac:(by left)) as (_ & Hfree & Hwin).
  apply Hline in Hwin; [|done].
  destruct (search_takes_win this random board σ grid col Hboard Hwf Hsides
              Hok Hrandom Hfree Hwin) as [Hfree' Hwin'].
  apply Hmem. split.
  { apply elem_of_seqZ. destruct (isColumnFull_false _ _ Hfree') as [Hc _].
    lia. }
  split; [done|]. by apply Hline.
Qed.

(** The engine plays the winning column that [getWinningMoves] finds. *)
Lemma getBestMove_plays_winning_move_witness :
  (getBestMove (new HARD) (mkRandom true 0) 0%nat
     [played [(0, 2); (0, 1); (1, 2); (1, 1); (2, 2); (6, 1)]]).1 ∈ [3].
Proof.
  apply (getBestMove_plays_winning_move (new HARD) (mkRandom true 0) 8 0%nat
           [played [(0, 2); (0, 1); (1, 2); (1, 1); (2, 2); (6, 1)]]
           [played [(0, 2); (0, 1); (1, 2); (1, 1); (2, 2); (6, 1)]]
           (played [(0, 2); (0, 1); (1, 2); (1, 1); (2, 2); (6, 1)])).
  - reflexivity.
  - split; [reflexivity|repeat constructor].
  - apply sides_ok_new.
  - apply tokens_ok_cells. reflexivity.
  - discriminate.
  - reflexivity.
  - lia.
  - reflexivity.
  - discriminate.
Defined.

End AIMore.

(** ** The game controller *)

Module GameFacts.
Import Board GameLogic Game Spec SearchValue LineSpec GameSpec.
Import BoardFacts GameLogicFacts.

Local Arguments Nat.leb : simpl never.

(** *** The board under a move *)

Lemma getCell_reset (row col value : Z) :
  getCell Board.reset row col = Some value → value = EMPTY.
Proof.
  intros Hcell. unfold getCell in Hcell. destruct (_ || _); [done|].
  unfold read in Hcell.
  destruct (index Board.reset row) as [cells|] eqn:Hrow; [|done].
  simpl in Hcell. apply index_Some in Hrow as [_ Hrow].
  apply index_Some in Hcell as [_ Hcell].
  unfold Board.reset in Hrow. apply lookup_replicate in Hrow as [-> _].
  by apply lookup_replicate in Hcell as [-> _].
Qed.

Lemma gravity_reset : gravity Board.reset.
Proof.
  intros row col (value & Hcell & Hne). by apply getCell_reset in Hcell.
Qed.

Lemma gravity_write (grid : Grid) (col p : Z) :
  wf_grid grid → gravity grid → isColumnFull grid col = false →
  gravity (write grid (findLowestRow grid col) col p).
Proof.
  intros Hwf Hgrav Hfree.
  destruct (isColumnFull_false _ _ Hfree) as (Hc & Hr & Hcell & Hbelow).
  set (row := findLowestRow grid col) in *.
  assert (Hocc : ∀ r c, occupied grid r c →
            occupied (write grid row col p) r c).
  { intros r c (value & Hval & Hne). exists value. split; [|done].
    rewrite getCell_write_ne; [done|lia|lia|].
    intros [= -> ->]. rewrite getCell_read in Hval by done. congruence. }
  intros r c (value & Hval & Hne) r' Hr'.
  destruct (decide ((r, c) = (row, col))) as [[= -> ->]|Hother].
  - apply Hocc. specialize (Hbelow r' Hr').
    destruct (getCell_Some_bounds _ _ _ _ Hval) as [Hrb Hcb].
    destruct (read_wf grid r' col Hwf ltac:(lia) ltac:(lia)) as [v Hv]. exists v. rewrite getCell_read by lia.
    split; [done|]. congruence.
  - rewrite getCell_write_ne in Hval by (lia || done).
    apply Hocc. by apply (Hgrav r c); [exists value|].
Qed.

Lemma tokens_cons (cells : list Z) (grid : Grid) :
  tokens (cells :: grid)
  = (length (filter (λ value, value ≠ EMPTY) cells) + tokens grid)%nat.
Proof. unfold tokens. simpl. by rewrite filter_app, length_app. Qed.

Lemma count_insert (cells : list Z) (j : nat) (p : Z) :
  cells !! j = Some EMPTY → p ≠ EMPTY →
  length (filter (λ value, value ≠ EMPTY) (<[j := p]> cells))
  = S (length (filter (λ value, value ≠ EMPTY) cells)).
Proof.
  intros Hcell Hp. revert j Hcell.
  induction cells as [|x cells IH]; intros [|j] Hcell; simplify_eq/=.
  - rewrite filter_cons_True by done. by rewrite filter_cons_False by tauto.
  - destruct (decide (x ≠ EMPTY)).
    + rewrite !filter_cons_True by done. simpl. by rewrite IH.
    + rewrite !filter_cons_False by done. by rewrite IH.
Qed.

Lemma tokens_alter (grid : Grid) (i j : nat) (cells : list Z) (p : Z) :
  grid !! i = Some cells → cells !! j = Some EMPTY → p ≠ EMPTY →
  tokens (alter (λ row_arr, <[j := p]> row_arr) i grid) = S (tokens grid).
Proof.
  intros Hrow Hcell Hp. revert i Hrow.
  induction grid as [|x grid IH]; intros [|i] Hrow; simplify_eq/=.
  - rewrite !tokens_cons. by rewrite count_insert.
  - rewrite !tokens_cons, (IH i) by done. lia.
Qed.

Lemma tokens_write (grid : Grid) (row col p : Z) :
  read grid row col = Some EMPTY → p ≠ EMPTY →
  tokens (write grid row col p) = S (tokens grid).
Proof.
  intros Hcell Hp. unfold read in Hcell.
  destruct (index grid row) as [cells|] eqn:Hrow; [|done].
  simpl in Hcell. apply index_Some in Hrow as [_ Hrow].
  apply index_Some in Hcell as [_ Hcell].
  unfold write. by eapply tokens_alter.
Qed.

Lemma tokens_bound (grid : Grid) : wf_grid grid → (tokens grid ≤ 42)%nat.
Proof.
  intros Hwf. unfold tokens.
  etrans; [apply length_filter|].
  destruct (wf_grid_cells grid Hwf) as (r0 & r1 & r2 & r3 & r4 & r5 & -> & Hrows).
  repeat (apply Forall_cons in Hrows as [(? & ? & ? & ? & ? & ? & ? & ->) Hrows]).
  simpl. lia.
Qed.

(** *** Replaying moves *)

Lemma played_store (drops : list (Z * Z)) :
  foldl (λ σ d, (dropToken 0%nat d.1 d.2 σ).2) [Board.reset] drops
  = [played drops].
Proof.
  unfold played. induction drops as [|d drops IH] using rev_ind; [done|].
  rewrite foldl_app. simpl. rewrite IH, dropToken_unfold.
  by destruct (isColumnFull _ _).
Qed.

Lemma played_snoc (drops : list (Z * Z)) (c p : Z) :
  played (drops ++ [(c, p)]) = child_grid (played drops) p c.
Proof.
  unfold played at 1. rewrite foldl_app, played_store. simpl.
  rewrite dropToken_unfold. unfold child_grid.
  by destruct (isColumnFull _ _).
Qed.

Lemma mover_side (n : nat) : mover n = PLAYER_1 ∨ mover n = PLAYER_2.
Proof. unfold mover. destruct (Nat.even n); tauto. Qed.

Lemma mover_not_empty (n : nat) : mover n ≠ EMPTY.
Proof. unfold mover. by destruct (Nat.even n). Qed.

Lemma mover_next (n : nat) :
  (if mover n =? PLAYER_1 then PLAYER_2 else PLAYER_1) = mover (S n).
Proof.
  unfold mover. rewrite Nat.even_succ, <- Nat.negb_even.
  by destruct (Nat.even n).
Qed.

(** *** [makeMove] *)

Lemma makeMove_refuses (fuel : nat) (this : Game) (c : Z) (σ : Store) :
  gameState this ≠ PLAYING ∨ isColumnFull (grid_of σ (board this)) c = true →
  makeMove fuel this c σ = Some (None, this, σ, []).
Proof.
  intros Hno. unfold makeMove. case_bool_decide; [done|].
  destruct Hno as [Hno|Hfull]; [done|]. by rewrite Hfull.
Qed.

Lemma makeMove_cases (fuel : nat) (this : Game) (c : Z) (σ : Store)
    (grid : Grid) :
  σ !! board this = Some grid → wf_grid grid → (8 ≤ fuel)%nat →
  gameState this = PLAYING → isColumnFull grid c = false →
  let p := currentPlayer this in
  let r := findLowestRow grid c in
  let grid' := write grid r c p in
  let move := mkMove r c p in
  ∃ this',
    makeMove fuel this c σ
    = Some (Some move, this', <[board this := grid']> σ,
            (if onTokenPlaced this then [TokenPlaced move] else [])
            ++ notifyStateChange this')
    ∧ board this' = board this ∧ gameMode this' = gameMode this
    ∧ onStateChange this' = onStateChange this
    ∧ onTokenPlaced this' = onTokenPlaced this
    ∧ moveHistory this' = moveHistory this ++ [move]
    ∧ ((gameState this' = WIN ∧ wins_at grid' r c p
        ∧ currentPlayer this' = p ∧ winner this' = Some p
        ∧ ∃ d r0 c0, d ∈ DIRECTIONS
            ∧ winningPositions this' = Some (four_from r0 c0 d)
            ∧ four_in_line grid' r0 c0 d p)
       ∨ (gameState this' = DRAW ∧ ¬ wins_at grid' r c p
          ∧ isFull grid' = true
          ∧ currentPlayer this' = p ∧ winner this' = winner this
          ∧ winningPositions this' = winningPositions this)
       ∨ (gameState this' = PLAYING ∧ ¬ wins_at grid' r c p
          ∧ isFull grid' = false
          ∧ currentPlayer this' = (if p =? PLAYER_1 then PLAYER_2
                                   else PLAYER_1)
          ∧ winner this' = winner this
          ∧ winningPositions this' = winningPositions this)).
Proof.
  intros Hboard Hwf Hfuel Hstate Hfree p r grid' move.
  destruct (isColumnFull_false _ _ Hfree) as (Hc & Hr & Hcell & _).
  unfold makeMove. rewrite bool_decide_eq_false_2 by (intros H; by apply H).
  rewrite (grid_of_lookup _ _ _ Hboard), Hfree, dropToken_unfold.
  rewrite (grid_of_lookup _ _ _ Hboard), Hfree.
  fold r. destruct (Z.eqb_spec r (-1)) as [Hneg|_]; [lia|].
  rewrite grid_of_insert_eq by by eapply lookup_lt_Some.
  fold p grid' move.
  assert (Horigin : getCell grid' r c = Some p)
    by by apply getCell_write_eq.
  destruct (GameLogicMore.checkWin_cases fuel grid' r c p Hfuel Horigin)
    as [(win & d & r0 & c0 & -> & _ & Hd & Hpos & Hline & Hwin)|[-> Hnone]];
    simpl.
  - eexists. split; [done|]. simpl. repeat (split; [done|]). left.
    split; [done|]. split; [done|]. split; [done|]. split; [done|].
    rewrite Hpos. by exists d, r0, c0.
  - destruct (isFull grid') eqn:Hfull.
    + eexists. split; [done|]. simpl. repeat (split; [done|]).
      right. left. by repeat (split; [done|]).
    + eexists. split; [done|]. simpl. repeat (split; [done|]).
      right. right. by repeat (split; [done|]).
Qed.

(** *** The invariant of a game *)

Lemma board_ok_reset : board_ok Board.reset.
Proof.
  split; [apply wf_grid_reset|]. split; [apply gravity_reset|].
  intros row col value Hcell. left. by eapply getCell_reset.
Qed.

Lemma fresh_inv (b : ref) (st : GAME_STATE) (mode : GAME_MODE)
    (l1 l2 : bool) (σ : Store) :
  σ !! b = Some Board.reset → st = WAITING ∨ st = PLAYING →
  game_inv (mkGame b PLAYER_1 st mode None None [] l1 l2) σ.
Proof.
  intros Hboard Hst. exists Board.reset. split; [done|].
  split; [apply board_ok_reset|]. split.
  - split; [done|]. split; [done|]. intros i move Hi. done.
  - destruct Hst as [-> | ->]; simpl; [done|].
    split; [exact (AIFacts.checkWinner_None Board.reset eq_refl)|done].
Qed.

Lemma new_inv (σ : Store) : game_inv (Game.new σ).1 (Game.new σ).2.
Proof.
  unfold Game.new, Board.new. simpl. apply fresh_inv; [|by left].
  by apply list_lookup_middle.
Qed.

Lemma setAnimating_inv (this : Game) (animating : bool) (σ : Store) :
  game_inv this σ → game_inv (setAnimating this animating) σ.
Proof.
  intros (grid & Hboard & Hok & Hhist & Hstate). unfold setAnimating.
  destruct (animating && _) eqn:Hon.
  - apply andb_prop in Hon as [_ Hplaying%bool_decide_eq_true].
    exists grid. repeat (split; [done|]).
    unfold state_ok in *. by rewrite Hplaying in Hstate.
  - destruct (negb animating && _) eqn:Hoff; [|by exists grid].
    apply andb_prop in Hoff as [_ Hanim%bool_decide_eq_true].
    exists grid. repeat (split; [done|]).
    unfold state_ok in *. by rewrite Hanim in Hstate.
Qed.

Lemma makeMove_inv (fuel : nat) (this : Game) (c : Z) (σ : Store) :
  (8 ≤ fuel)%nat → game_inv this σ →
  ∃ result this' σ' calls,
    makeMove fuel this c σ = Some (result, this', σ', calls)
    ∧ game_inv this' σ'.
Proof.
  intros Hfuel Hinv.
  pose proof Hinv as (grid & Hboard & (Hwf & Hgrav & Htok) & Hhist & Hstate).
  destruct (decide (gameState this = PLAYING)) as [Hplaying|Hother];
    [|eexists _, _, _, _; split; [apply makeMove_refuses; by left|done]].
  destruct (isColumnFull grid c) eqn:Hfree;
    [eexists _, _, _, _; split; [apply makeMove_refuses; right;
       by rewrite (grid_of_lookup _ _ _ Hboard)|done]|].
  destruct (makeMove_cases fuel this c σ grid Hboard Hwf Hfuel Hplaying Hfree)
    as (this' & Hrun & Hb & _ & _ & _ & Hmoves & Hcases).
  eexists _, _, _, _. split; [exact Hrun|]. clear Hrun.
  destruct (isColumnFull_false _ _ Hfree) as (Hc & Hr & Hcell & _).
  unfold state_ok in Hstate. rewrite Hplaying in Hstate.
  destruct Hstate as (Hno & _ & Hcur & Hw & Hwp).
  destruct Hhist as (Hplayed & Hcount & Hrec).
  set (p := currentPlayer this) in *.
  set (r := findLowestRow grid c) in *.
  set (grid' := write grid r c p) in *.
  assert (Hp : p ≠ EMPTY) by (rewrite Hcur; apply mover_not_empty).
  exists grid'. split.
  { rewrite Hb. apply list_lookup_insert_eq. by eapply lookup_lt_Some. }
  split.
  { split; [by apply wf_grid_write|]. split; [by apply gravity_write|].
    intros row col value Hval.
    destruct (decide ((row, col) = (r, c))) as [[= -> ->]|Hne].
    - unfold grid' in Hval. rewrite getCell_write_eq in Hval by done.
      injection Hval as <-. right. rewrite Hcur. apply mover_side.
    - unfold grid' in Hval. rewrite getCell_write_ne in Hval by (lia || done).
      by eapply Htok. }
  split.
  { split; [|split].
    - unfold drops. rewrite Hmoves, fmap_app. simpl.
      rewrite played_snoc. fold (drops this). rewrite <- Hplayed.
      unfold child_grid. by rewrite Hfree.
    - rewrite Hmoves, length_app. simpl. unfold grid'.
      rewrite tokens_write by done. lia.
    - intros i move Hi. rewrite Hmoves in Hi.
      apply lookup_app_Some in Hi as [Hi|[Hlen Hi]].
      + destruct (Hrec i move Hi) as [Hside Hat]. split; [done|].
        unfold grid'. rewrite getCell_write_ne; [done|lia|lia|].
        intros [= Hrow Hcol]. rewrite Hrow, Hcol in Hat.
        rewrite getCell_read in Hat by done.
        rewrite Hat in Hcell. injection Hcell as Hcell.
        rewrite Hside in Hcell. by apply (mover_not_empty i).
      + destruct (i - length (moveHistory this))%nat as [|k] eqn:Hk; [|done].
        injection Hi as <-. simpl. split; [|by apply getCell_write_eq].
        fold p. rewrite Hcur. f_equal. lia. }
  assert (Hscan : ¬ wins_at grid' r c p → no_winner grid').
  { intros Hnot.
    by destruct (GameLogicMore.checkWinner_write_cases grid r c p Hwf Hr Hc Hp
                   Hno) as [[_ Hline]|(_ & _ & Hno')]. }
  unfold state_ok.
  destruct Hcases as [(-> & Hwin & Hcur' & Hw' & Hline)
                     |[(-> & Hnot & Hfull & Hcur' & Hw' & Hwp')
                      |(-> & Hnot & Hfull & Hcur' & Hw' & Hwp')]].
  - rewrite Hcur', Hmoves, last_snoc. split; [done|].
    split; [by eexists|done].
  - rewrite Hcur', Hmoves, last_snoc, Hw', Hwp'. split; [by apply Hscan|].
    split; [done|]. split; [by eexists|done].
  - rewrite Hcur', Hmoves, Hw', Hwp', length_app. simpl.
    split; [by apply Hscan|]. split; [done|]. split; [|done].
    rewrite Hcur, mover_next. f_equal. lia.
Qed.

Lemma act_inv (fuel : nat) (action : Action) (this : Game) (σ : Store) :
  (8 ≤ fuel)%nat → game_inv this σ →
  ∃ this' σ', act fuel action this σ = Some (this', σ') ∧ game_inv this' σ'.
Proof.
  intros Hfuel Hinv.
  destruct action as [mode| |c|animating|stateChange tokenPlaced]; simpl.
  - eexists _, _. split; [done|]. destruct Hinv as (grid & Hboard & _).
    apply fresh_inv; [|by right]. unfold resetBoard.
    apply list_lookup_insert_eq. by eapply lookup_lt_Some.
  - eexists _, _. split; [done|]. destruct Hinv as (grid & Hboard & _).
    apply fresh_inv; [|by left]. unfold resetBoard.
    apply list_lookup_insert_eq. by eapply lookup_lt_Some.
  - destruct (makeMove_inv fuel this c σ Hfuel Hinv)
      as (result & this' & σ' & calls & -> & Hinv').
    by eexists _, _.
  - eexists _, _. split; [done|]. by apply setAnimating_inv.
  - eexists _, _. split; [done|]. destruct Hinv as (grid & Hinv).
    by exists grid.
Qed.

Lemma acts_inv (fuel : nat) (actions : list Action) (this : Game)
    (σ : Store) :
  (8 ≤ fuel)%nat → game_inv this σ →
  ∃ this' σ', acts fuel actions this σ = Some (this', σ') ∧ game_inv this' σ'.
Proof.
  intros Hfuel. revert this σ.
  induction actions as [|action actions IH]; intros this σ Hinv; simpl.
  - by eexists _, _.
  - destruct (act_inv fuel action this σ Hfuel Hinv)
      as (this1 & σ1 & -> & Hinv1).
    simpl. by apply IH.
Qed.

Lemma isValidMove_true (this : Game) (c : Z) (σ : Store) :
  isValidMove this c σ = true ↔
  gameState this = PLAYING ∧ isColumnFull (grid_of σ (board this)) c = false.
Proof.
  unfold isValidMove. rewrite andb_true_iff, bool_decide_eq_true.
  by rewrite negb_true_iff.
Qed.

(** X16. [makeMove] returns [null] exactly when [isValidMove] says [false]:
    the game is not being played, or the column is full or not a column;
    the game and the board are then as before, and no listener is
    called. *)
Theorem makeMove_null_iff_invalid (fuel : nat) (this : Game) (c : Z)
    (σ : Store) (grid : Grid) :
  σ !! board this = Some grid → wf_grid grid → (8 ≤ fuel)%nat →
  ∃ result this' σ' calls,
    makeMove fuel this c σ = Some (result, this', σ', calls)
    ∧ (result = None ↔ isValidMove this c σ = false)
    ∧ (result = None → this' = this ∧ σ' = σ ∧ calls = []).
Proof.
  intros Hboard Hwf Hfuel.
  destruct (isValidMove this c σ) eqn:Hvalid.
  - apply isValidMove_true in Hvalid as [Hplaying Hfree].
    rewrite (grid_of_lookup _ _ _ Hboard) in Hfree.
    destruct (makeMove_cases fuel this c σ grid Hboard Hwf Hfuel Hplaying
                Hfree) as (this' & -> & _).
    eexists _, _, _, _. split; [done|]. by split.
  - eexists _, _, _, _. split; [|by split].
    apply makeMove_refuses.
    destruct (decide (gameState this = PLAYING)) as [Hplaying|]; [|by left].
    right. destruct (isColumnFull _ c) eqn:Hfree; [done|].
    by rewrite (proj2 (isValidMove_true this c σ)) in Hvalid.
Qed.

(** [makeMove] on a game that was not started. *)
Lemma makeMove_null_iff_invalid_witness :
  ∃ result this' σ' calls,
    makeMove 8 (Game.new []).1 3 (Game.new []).2
    = Some (result, this', σ', calls)
    ∧ (result = None ↔ isValidMove (Game.new []).1 3 (Game.new []).2 = false)
    ∧ (result = None →
       this' = (Game.new []).1 ∧ σ' = (Game.new []).2 ∧ calls = []).
Proof.
  apply (makeMove_null_iff_invalid 8 (Game.new []).1 3 (Game.new []).2
           Board.reset).
  - reflexivity.
  - apply wf_grid_reset.
  - lia.
Defined.

(** X17. A move that [isValidMove] accepts: [makeMove] returns the move, with
    the lowest empty row of the column and the side to move; it writes
    that one cell of the game's board, appends the move to the history,
    and calls the listeners that are attached, [onTokenPlaced] with the
    move and then [onStateChange] with the state after the move. *)
Theorem makeMove_places_token (fuel : nat) (this : Game) (c : Z)
    (σ : Store) (grid : Grid) :
  σ !! board this = Some grid → wf_grid grid → (8 ≤ fuel)%nat →
  isValidMove this c σ = true →
  ∃ r this',
    let move := mkMove r c (currentPlayer this) in
    let grid' := write grid r c (currentPlayer this) in
    makeMove fuel this c σ
    = Some (Some move, this', <[board this := grid']> σ,
            (if onTokenPlaced this then [TokenPlaced move] else [])
            ++ (if onStateChange this then [StateChange (getStateInfo this')]
                else []))
    ∧ 0 ≤ r < ROWS ∧ 0 ≤ c < COLS
    ∧ getCell grid r c = Some EMPTY
    ∧ (∀ row, 0 ≤ row < r → getCell grid row c ≠ Some EMPTY)
    ∧ getCell grid' r c = Some (currentPlayer this)
    ∧ (∀ row col, (row, col) ≠ (r, c) →
         getCell grid' row col = getCell grid row col)
    ∧ moveHistory this' = moveHistory this ++ [move]
    ∧ moveCount (getStateInfo this') = S (length (moveHistory this))
    ∧ board this' = board this ∧ gameMode this' = gameMode this
    ∧ onStateChange this' = onStateChange this
    ∧ onTokenPlaced this' = onTokenPlaced this.
Proof.
  intros Hboard Hwf Hfuel [Hplaying Hfree]%isValidMove_true.
  rewrite (grid_of_lookup _ _ _ Hboard) in Hfree.
  destruct (makeMove_cases fuel this c σ grid Hboard Hwf Hfuel Hplaying Hfree)
    as (this' & Hrun & Hb & Hmode & Hsc & Htp & Hmoves & _).
  destruct (isColumnFull_false _ _ Hfree) as (Hc & Hr & Hcell & Hbelow).
  exists (findLowestRow grid c), this'. cbv zeta.
  split. { rewrite Hrun. unfold notifyStateChange. by rewrite Hsc. }
  split; [done|]. split; [done|].
  split. { by rewrite getCell_read. }
  split. { intros row Hrow. rewrite getCell_read by lia. by apply Hbelow. }
  split. { by apply getCell_write_eq. }
  split. { intros row col Hne. apply getCell_write_ne; [lia|lia|done]. }
  split; [done|].
  split. { simpl. rewrite Hmoves, length_app. simpl. lia. }
  done.
Qed.

(** The first move of a game, with both listeners attached. *)
Lemma makeMove_places_token_witness :
  let this := mkGame 0%nat PLAYER_1 PLAYING CPU None None [] true true in
  ∃ r this',
    let move := mkMove r 3 (currentPlayer this) in
    let grid' := write Board.reset r 3 (currentPlayer this) in
    makeMove 8 this 3 [Board.reset]
    = Some (Some move, this', <[board this := grid']> [Board.reset],
            (if onTokenPlaced this then [TokenPlaced move] else [])
            ++ (if onStateChange this then [StateChange (getStateInfo this')]
                else []))
    ∧ 0 ≤ r < ROWS ∧ 0 ≤ 3 < COLS
    ∧ getCell Board.reset r 3 = Some EMPTY
    ∧ (∀ row, 0 ≤ row < r → getCell Board.reset row 3 ≠ Some EMPTY)
    ∧ getCell grid' r 3 = Some (currentPlayer this)
    ∧ (∀ row col, (row, col) ≠ (r, 3) →
         getCell grid' row col = getCell Board.reset row col)
    ∧ moveHistory this' = moveHistory this ++ [move]
    ∧ moveCount (getStateInfo this') = S (length (moveHistory this))
    ∧ board this' = board this ∧ gameMode this' = gameMode this
    ∧ onStateChange this' = onStateChange this
    ∧ onTokenPlaced this' = onTokenPlaced this.
Proof.
  apply (makeMove_places_token 8
           (mkGame 0%nat PLAYER_1 PLAYING CPU None None [] true true) 3
           [Board.reset] Board.reset).
  - reflexivity.
  - apply wf_grid_reset.
  - lia.
  - reflexivity.
Defined.

(** X18. The verdict of [makeMove] on a move that [isValidMove] accepts.  The
    game is won exactly when a line of four of the mover passes through
    the cell of the move; the winner is then the mover, who stays the
    current player, and the winning positions are four cells in a row
    that hold the mover's token.  It is a draw exactly when there is no
    such line and the board is full.  Otherwise the game goes on with
    the other side to move. *)
Theorem makeMove_verdict (fuel : nat) (this : Game) (c : Z) (σ : Store)
    (grid : Grid) :
  σ !! board this = Some grid → wf_grid grid → (8 ≤ fuel)%nat →
  isValidMove this c σ = true →
  ∃ move this' σ' calls,
    makeMove fuel this c σ = Some (Some move, this', σ', calls)
    ∧ let p := currentPlayer this in
      let grid' := grid_of σ' (board this) in
      let wins := wins_at grid' (Game.row move) c p in
      (gameState this' = WIN ∨ gameState this' = DRAW
       ∨ gameState this' = PLAYING)
      ∧ (gameState this' = WIN ↔ wins)
      ∧ (gameState this' = DRAW ↔ ¬ wins ∧ isFull grid' = true)
      ∧ (gameState this' = PLAYING ↔ ¬ wins ∧ isFull grid' = false)
      ∧ (gameState this' = WIN →
         currentPlayer this' = p ∧ winner this' = Some p
         ∧ ∃ d r0 c0, d ∈ DIRECTIONS
             ∧ winningPositions this' = Some (four_from r0 c0 d)
             ∧ four_in_line grid' r0 c0 d p)
      ∧ (gameState this' = DRAW →
         currentPlayer this' = p ∧ winner this' = winner this
         ∧ winningPositions this' = winningPositions this)
      ∧ (gameState this' = PLAYING →
         currentPlayer this' = (if p =? PLAYER_1 then PLAYER_2 else PLAYER_1)
         ∧ winner this' = winner this
         ∧ winningPositions this' = winningPositions this).
Proof.
  intros Hboard Hwf Hfuel [Hplaying Hfree]%isValidMove_true.
  rewrite (grid_of_lookup _ _ _ Hboard) in Hfree.
  destruct (makeMove_cases fuel this c σ grid Hboard Hwf Hfuel Hplaying Hfree)
    as (this' & Hrun & _ & _ & _ & _ & _ & Hcases).
  eexists _, _, _, _. split; [exact Hrun|]. cbv zeta.
  rewrite grid_of_insert_eq by by eapply lookup_lt_Some.
  simpl.
  destruct Hcases as [(Hst & Hwin & Hrest)
                     |[(Hst & Hnot & Hfull & Hrest)
                      |(Hst & Hnot & Hfull & Hrest)]];
    rewrite Hst, Hfull || rewrite Hst.
  - split; [tauto|]. split; [tauto|].
    split; [split; [done|tauto]|]. split; [split; [done|tauto]|].
    split; [done|]. by split.
  - split; [tauto|]. split; [split; [done|tauto]|].
    split; [tauto|]. split; [split; [done|]; by intros [_ ?]|].
    split; [done|]. by split.
  - split; [tauto|]. split; [split; [done|tauto]|].
    split; [split; [done|]; by intros [_ ?]|]. split; [tauto|].
    split; [done|]. by split.
Qed.

(** The verdict on the first move of a game. *)
Lemma makeMove_verdict_witness :
  let this := mkGame 0%nat PLAYER_1 PLAYING PVP None None [] false false in
  ∃ move this' σ' calls,
    makeMove 8 this 3 [Board.reset] = Some (Some move, this', σ', calls)
    ∧ let p := currentPlayer this in
      let grid' := grid_of σ' (board this) in
      let wins := wins_at grid' (Game.row move) 3 p in
      (gameState this' = WIN ∨ gameState this' = DRAW
       ∨ gameState this' = PLAYING)
      ∧ (gameState this' = WIN ↔ wins)
      ∧ (gameState this' = DRAW ↔ ¬ wins ∧ isFull grid' = true)
      ∧ (gameState this' = PLAYING ↔ ¬ wins ∧ isFull grid' = false)
      ∧ (gameState this' = WIN →
         currentPlayer this' = p ∧ winner this' = Some p
         ∧ ∃ d r0 c0, d ∈ DIRECTIONS
             ∧ winningPositions this' = Some (four_from r0 c0 d)
             ∧ four_in_line grid' r0 c0 d p)
      ∧ (gameState this' = DRAW →
         currentPlayer this' = p ∧ winner this' = winner this
         ∧ winningPositions this' = winningPositions this)
      ∧ (gameState this' = PLAYING →
         currentPlayer this' = (if p =? PLAYER_1 then PLAYER_2 else PLAYER_1)
         ∧ winner this' = winner this
         ∧ winningPositions this' = winningPositions this).
Proof.
  apply (makeMove_verdict 8
           (mkGame 0%nat PLAYER_1 PLAYING PVP None None [] false false) 3
           [Board.reset] Board.reset).
  - reflexivity.
  - apply wf_grid_reset.
  - lia.
  - reflexivity.
Defined.

(** *** Games from [new Game()] *)

(** X19. Whatever the application does with a game from [new Game()], every
    call returns, and the board is then a 6x7 grid of tokens of the two
    sides without a floating token, which is what the recorded moves
    build from the empty board: one token for each move, in the cell the
    move names, the sides taking turns from [PLAYER_1]; so a game has at
    most 42 moves. *)
Theorem game_board_replays_history (fuel : nat) (actions : list Action)
    (σ0 : Store) :
  (8 ≤ fuel)%nat →
  ∃ this σ grid,
    acts fuel actions (Game.new σ0).1 (Game.new σ0).2 = Some (this, σ)
    ∧ σ !! board this = Some grid
    ∧ board_ok grid ∧ history_ok this grid
    ∧ (length (moveHistory this) ≤ 42)%nat.
Proof.
  intros Hfuel.
  destruct (acts_inv fuel actions _ _ Hfuel (new_inv σ0))
    as (this & σ & Hrun & grid & Hboard & Hok & Hhist & _).
  exists this, σ, grid. repeat (split; [done|]).
  destruct Hhist as (_ & <- & _). apply tokens_bound. by destruct Hok.
Qed.

(** The board after a few moves. *)
Lemma game_board_replays_history_witness :
  ∃ this σ grid,
    acts 8 [StartGame CPU; MakeMove 3; MakeMove 3; SetAnimating true;
            MakeMove 2; SetAnimating false; MakeMove 9; MakeMove 4]
      (Game.new []).1 (Game.new []).2 = Some (this, σ)
    ∧ σ !! board this = Some grid
    ∧ board_ok grid ∧ history_ok this grid
    ∧ (length (moveHistory this) ≤ 42)%nat.
Proof.
  apply (game_board_replays_history 8
           [StartGame CPU; MakeMove 3; MakeMove 3; SetAnimating true;
            MakeMove 2; SetAnimating false; MakeMove 9; MakeMove 4] []).
  lia.
Defined.

Lemma mover_second (n : nat) : mover n = PLAYER_2 ↔ Nat.odd n = true.
Proof.
  unfold mover. rewrite <- Nat.negb_even. by destruct (Nat.even n).
Qed.

(** X20. Whatever the application does with a game from [new Game()], the
    state of the game tells the truth about the board.  While the game
    is played or animated the board has no four in a row and is not
    full, there is no winner, and the side to move is [PLAYER_1] after
    an even number of moves and [PLAYER_2] after an odd number.  In a
    won game the winner made the last move and the winning positions
    are four cells in a row that hold the winner's tokens.  In a drawn
    game the board is full without four in a row.  A waiting game has an
    empty board.  So it is the CPU's turn exactly in a game against the
    CPU that is played after an odd number of moves, and the state
    handed to the listener names a winner exactly in a won game. *)
Theorem game_state_sound (fuel : nat) (actions : list Action) (σ0 : Store) :
  (8 ≤ fuel)%nat →
  ∃ this σ grid,
    acts fuel actions (Game.new σ0).1 (Game.new σ0).2 = Some (this, σ)
    ∧ σ !! board this = Some grid
    ∧ state_ok this grid
    ∧ (isCPUTurn this = true ↔
       gameMode this = CPU ∧ gameState this = PLAYING
       ∧ Nat.odd (length (moveHistory this)) = true)
    ∧ winnerName (getStateInfo this)
      = (if bool_decide (gameState this = WIN)
         then Some (getPlayerName this (currentPlayer this)) else None).
Proof.
  intros Hfuel.
  destruct (acts_inv fuel actions _ _ Hfuel (new_inv σ0))
    as (this & σ & Hrun & grid & Hboard & Hok & Hhist & Hstate).
  exists this, σ, grid. repeat (split; [done|]). split.
  - unfold isCPUTurn. rewrite !andb_true_iff, !bool_decide_eq_true, Z.eqb_eq.
    split.
    + intros [[Hmode Hcur] Hplaying]. repeat (split; [done|]).
      unfold state_ok in Hstate. rewrite Hplaying in Hstate.
      destruct Hstate as (_ & _ & Hmover & _).
      apply mover_second. by rewrite <- Hmover.
    + intros (Hmode & Hplaying & Hodd). repeat split; try done.
      unfold state_ok in Hstate. rewrite Hplaying in Hstate.
      destruct Hstate as (_ & _ & -> & _). by apply mover_second.
  - unfold state_ok in Hstate. simpl.
    destruct (gameState this) eqn:Hst; simpl;
      try (by destruct Hstate as (_ & _ & _ & -> & _)).
    destruct Hstate as (-> & (move & Hlast & Hside) & _).
    destruct Hhist as (_ & _ & Hrec).
    apply last_Some in Hlast as [earlier Hlast].
    destruct (Hrec (length earlier) move) as [Hmover _].
    { rewrite Hlast. by apply list_lookup_middle. }
    rewrite <- Hside, Hmover.
    by destruct (mover_side (length earlier)) as [-> | ->].
Qed.

(** The state of a game after a few moves. *)
Lemma game_state_sound_witness :
  ∃ this σ grid,
    acts 8 [StartGame CPU; Listen true true; MakeMove 3]
      (Game.new []).1 (Game.new []).2 = Some (this, σ)
    ∧ σ !! board this = Some grid
    ∧ state_ok this grid
    ∧ (isCPUTurn this = true ↔
       gameMode this = CPU ∧ gameState this = PLAYING
       ∧ Nat.odd (length (moveHistory this)) = true)
    ∧ winnerName (getStateInfo this)
      = (if bool_decide (gameState this = WIN)
         then Some (getPlayerName this (currentPlayer this)) else None).
Proof.
  apply (game_state_sound 8 [StartGame CPU; Listen true true; MakeMove 3] []).
  lia.
Defined.

(** *** What a game writes *)

Lemma makeMove_frame (fuel : nat) (this this' : Game) (c : Z)
    (σ σ' : Store) (result : option Move) (calls : list Call) :
  makeMove fuel this c σ = Some (result, this', σ', calls) →
  board this' = board this ∧ gameMode this' = gameMode this
  ∧ onStateChange this' = onStateChange this
  ∧ onTokenPlaced this' = onTokenPlaced this
  ∧ length σ' = length σ
  ∧ ∀ other, other ≠ board this → σ' !! other = σ !! other.
Proof.
  unfold makeMove. intros Hrun.
  case_bool_decide; [by simplify_eq|].
  destruct (isColumnFull _ c) eqn:Hfree; [by simplify_eq|].
  rewrite dropToken_unfold, Hfree in Hrun.
  destruct (_ =? -1);
    [simplify_eq; repeat (split; [done|]);
     split; [by rewrite length_insert|];
     intros other Hne; by apply list_lookup_insert_ne|].
  destruct (checkWin _ _ _ _ _) as [[win|]|]; simpl in Hrun; [| |done].
  - simplify_eq. repeat (split; [done|]).
    split; [by rewrite length_insert|].
    intros other Hne. by apply list_lookup_insert_ne.
  - destruct (isFull _); simplify_eq; repeat (split; [done|]);
      (split; [by rewrite length_insert|]);
      intros other Hne; by apply list_lookup_insert_ne.
Qed.

(** X21. A game writes no board but its own: whatever the application does
    with it, the game keeps its board object, no board is added to the
    store or removed from it, and every other board is as before.  Only
    [startGame] changes the mode, and only an assignment changes the
    listeners. *)
Theorem game_owns_board (fuel : nat) (action : Action) (this this' : Game)
    (σ σ' : Store) :
  act fuel action this σ = Some (this', σ') →
  board this' = board this
  ∧ length σ' = length σ
  ∧ (∀ other, other ≠ board this → σ' !! other = σ !! other)
  ∧ ((∀ mode, action ≠ StartGame mode) → gameMode this' = gameMode this)
  ∧ ((∀ l1 l2, action ≠ Listen l1 l2) →
     onStateChange this' = onStateChange this
     ∧ onTokenPlaced this' = onTokenPlaced this).
Proof.
  destruct action as [mode| |c|animating|l1 l2]; simpl; intros Hrun.
  - simplify_eq. simpl. unfold resetBoard. split; [done|].
    split; [by rewrite length_insert|].
    split; [intros other Hne; by apply list_lookup_insert_ne|].
    split; [intros Hmode; by destruct (Hmode mode)|done].
  - simplify_eq. simpl. unfold resetBoard. split; [done|].
    split; [by rewrite length_insert|].
    split; [intros other Hne; by apply list_lookup_insert_ne|done].
  - destruct (makeMove fuel this c σ) as [[[[result this1] σ1] calls]|] eqn:Hmove;
      [|done].
    simpl in Hrun. simplify_eq.
    destruct (makeMove_frame _ _ _ _ _ _ _ _ Hmove)
      as (Hb & Hmode & Hsc & Htp & Hlen & Hother).
    done.
  - simplify_eq. unfold setAnimating.
    destruct (animating && _); [done|]. by destruct (negb animating && _).
  - simplify_eq. simpl. repeat (split; [done|]).
    intros Hl. by destruct (Hl l1 l2).
Qed.

(** A move of a game that shares the store with another board. *)
Lemma game_owns_board_witness :
  let this := mkGame 1%nat PLAYER_1 PLAYING PVP None None [] false false in
  let this' :=
    mkGame 1%nat PLAYER_2 PLAYING PVP None None [mkMove 0 3 PLAYER_1]
      false false in
  let σ := [drawn; Board.reset] in
  let σ' := [drawn; write Board.reset 0 3 PLAYER_1] in
  board this' = board this
  ∧ length σ' = length σ
  ∧ (∀ other, other ≠ board this → σ' !! other = σ !! other)
  ∧ ((∀ mode, MakeMove 3 ≠ StartGame mode) → gameMode this' = gameMode this)
  ∧ ((∀ l1 l2, MakeMove 3 ≠ Listen l1 l2) →
     onStateChange this' = onStateChange this
     ∧ onTokenPlaced this' = onTokenPlaced this).
Proof.
  apply (game_owns_board 8 (MakeMove 3)
           (mkGame 1%nat PLAYER_1 PLAYING PVP None None [] false false)
           (mkGame 1%nat PLAYER_2 PLAYING PVP None None [mkMove 0 3 PLAYER_1]
              false false)
           [drawn; Board.reset] [drawn; write Board.reset 0 3 PLAYER_1]).
  reflexivity.
Defined.

(** *** [setAnimating] *)

(** X22. [setAnimating(true)] on a game that is played stops the moves:
    [isValidMove] says [false] and [makeMove] returns [null] and changes
    nothing; [setAnimating(false)] then gives the game back as it was,
    and on the game that is played it does nothing. *)
Theorem setAnimating_round_trip (this : Game) :
  gameState this = PLAYING →
  setAnimating (setAnimating this true) false = this
  ∧ gameState (setAnimating this true) = ANIMATING
  ∧ setAnimating this false = this
  ∧ ∀ fuel c σ,
      isValidMove (setAnimating this true) c σ = false
      ∧ makeMove fuel (setAnimating this true) c σ
        = Some (None, setAnimating this true, σ, []).
Proof.
  destruct this as [b cur st mode w wp moves l1 l2]. simpl.
  intros ->. unfold setAnimating. simpl. do 3 (split; [done|]).
  intros fuel c σ. split; [done|]. by apply makeMove_refuses; left.
Qed.

(** An animation during the first move. *)
Lemma setAnimating_round_trip_witness :
  let this := mkGame 0%nat PLAYER_1 PLAYING PVP None None [] true true in
  setAnimating (setAnimating this true) false = this
  ∧ gameState (setAnimating this true) = ANIMATING
  ∧ setAnimating this false = this
  ∧ ∀ fuel c σ,
      isValidMove (setAnimating this true) c σ = false
      ∧ makeMove fuel (setAnimating this true) c σ
        = Some (None, setAnimating this true, σ, []).
Proof.
  apply (setAnimating_round_trip
           (mkGame 0%nat PLAYER_1 PLAYING PVP None None [] true true)).
  reflexivity.
Defined.

(** X23. A game that is won, drawn or waiting stays as it is under [makeMove]
    and [setAnimating], with its board, and no listener is called: only
    [startGame] and [reset] bring it back into play. *)
Theorem finished_game_unchanged (fuel : nat) (this : Game) (σ : Store) :
  gameState this ≠ PLAYING → gameState this ≠ ANIMATING →
  (∀ c, makeMove fuel this c σ = Some (None, this, σ, [])
        ∧ isValidMove this c σ = false)
  ∧ (∀ animating, setAnimating this animating = this)
  ∧ isCPUTurn this = false.
Proof.
  intros Hp Ha. split; [|split].
  - intros c. split; [by apply makeMove_refuses; left|].
    unfold isValidMove. by rewrite bool_decide_eq_false_2.
  - intros animating. unfold setAnimating.
    rewrite !bool_decide_eq_false_2 by done. by rewrite !andb_false_r.
  - unfold isCPUTurn. rewrite (bool_decide_eq_false_2 (_ = PLAYING)) by done.
    by rewrite andb_false_r.
Qed.

(** A won game. *)
Lemma finished_game_unchanged_witness :
  let this :=
    mkGame 0%nat PLAYER_1 WIN PVP (Some PLAYER_1)
      (Some [(0, 0); (0, 1); (0, 2); (0, 3)]) [] false false in
  (∀ c, makeMove 8 this c [four_in_row PLAYER_1]
        = Some (None, this, [four_in_row PLAYER_1], [])
        ∧ isValidMove this c [four_in_row PLAYER_1] = false)
  ∧ (∀ animating, setAnimating this animating = this)
  ∧ isCPUTurn this = false.
Proof.
  apply (finished_game_unchanged 8
           (mkGame 0%nat PLAYER_1 WIN PVP (Some PLAYER_1)
              (Some [(0, 0); (0, 1); (0, 2); (0, 3)]) [] false false)
           [four_in_row PLAYER_1]); discriminate.
Defined.

Lemma game_inv_app (this : Game) (σ fresh : Store) :
  game_inv this σ → game_inv this (σ ++ fresh).
Proof.
  intros (grid & Hboard & Hrest). exists grid. split; [|done].
  by apply lookup_app_l_Some.
Qed.

End GameFacts.

(** ** The engine in a game *)

Module PlayFacts.
Import Board Spec SearchValue LineSpec SearchSpec GameSpec.
Import BoardFacts AIFacts AIMore GameFacts.

Lemma cpu_turn (fuel : nat) (actions : list Action) (σ0 σ : Store)
    (this : Game.Game) (difficulty : AI.DIFFICULTY) :
  (8 ≤ fuel)%nat →
  acts fuel actions (Game.new σ0).1 (Game.new σ0).2 = Some (this, σ) →
  Game.isCPUTurn this = true →
  ∃ grid, σ !! Game.board this = Some grid ∧ wf_grid grid
    ∧ game_inv this σ
    ∧ Game.gameState this = Game.PLAYING
    ∧ Game.currentPlayer this = AI.aiPlayer (AI.new difficulty)
    ∧ sides_ok (AI.new difficulty) ∧ tokens_ok (AI.new difficulty) grid
    ∧ AI.checkWinner grid = None
    ∧ AI.getValidMoves grid ≠ [].
Proof.
  intros Hfuel Hrun Hturn.
  destruct (acts_inv fuel actions _ _ Hfuel (new_inv σ0))
    as (this' & σ' & Hrun' & Hinv).
  rewrite Hrun in Hrun'. injection Hrun' as <- <-.
  pose proof Hinv as (grid & Hboard & (Hwf & _ & Htok) & _ & Hstate).
  unfold Game.isCPUTurn in Hturn.
  apply andb_prop in Hturn as [[_ Hcur%Z.eqb_eq]%andb_prop Hplaying].
  apply bool_decide_eq_true in Hplaying.
  unfold state_ok in Hstate. rewrite Hplaying in Hstate.
  destruct Hstate as (Hno & Hfull & _).
  exists grid. do 5 (split; [done|]).
  split; [apply sides_ok_new|]. split.
  { intros row col value Hcell. destruct (Htok _ _ _ Hcell) as [->|[->| ->]];
      simpl; tauto. }
  split.
  { destruct (AI.checkWinner grid) as [v|] eqn:Hv; [|done].
    apply checkWinner_Some in Hv as (Hne & r & c & d & Hd & Hline).
    by destruct (Hno r c d v). }
  apply getValidMoves_nonempty. unfold AI.isBoardFull.
  by rewrite BoardMore.AI_isBoardFull_loop.
Qed.

(** X24. In a game from [new Game()] where it is the CPU's turn, the column
    that [getBestMove] returns for the game's board is a move of the
    game: it is not negative, [isValidMove] accepts it, and [makeMove]
    returns a move of [PLAYER_2] in that column, on the board as it was
    before the engine searched. *)
Theorem cpu_move_accepted (fuel : nat) (actions : list Action) (σ0 σ : Store)
    (this : Game.Game) (difficulty : AI.DIFFICULTY) (random : AI.Random) :
  (8 ≤ fuel)%nat →
  acts fuel actions (Game.new σ0).1 (Game.new σ0).2 = Some (this, σ) →
  Game.isCPUTurn this = true →
  let ai := AI.new difficulty in
  let col := (AI.getBestMove ai random (Game.board this) σ).1 in
  let σ1 := (AI.getBestMove ai random (Game.board this) σ).2 in
  0 ≤ col < COLS
  ∧ grid_of σ1 (Game.board this) = grid_of σ (Game.board this)
  ∧ Game.isValidMove this col σ1 = true
  ∧ ∃ r this' σ' calls,
      Game.makeMove fuel this col σ1
      = Some (Some (Game.mkMove r col PLAYER_2), this', σ', calls)
      ∧ grid_of σ' (Game.board this)
        = write (grid_of σ (Game.board this)) r col PLAYER_2.
Proof.
  intros Hfuel Hrun Hturn ai col σ1.
  destruct (cpu_turn fuel actions σ0 σ this difficulty Hfuel Hrun Hturn)
    as (grid & Hboard & Hwf & Hinv & Hplaying & Hcur & _ & _ & _ & Hsome).
  pose proof (getBestMove_elem ai random (Game.board this) σ grid Hboard Hwf
                Hsome) as Hfree.
  fold col in Hfree. apply getValidMoves_elem in Hfree.
  destruct (isColumnFull_false _ _ Hfree) as [Hcol _].
  destruct (getBestMove_computes ai random (Game.board this) σ)
    as [fresh Hfresh]; [by exists grid|].
  fold σ1 in Hfresh.
  assert (Hboard1 : σ1 !! Game.board this = Some grid).
  { rewrite Hfresh. by apply lookup_app_l_Some. }
  rewrite (grid_of_lookup _ _ _ Hboard1), (grid_of_lookup _ _ _ Hboard).
  split; [done|]. split; [done|].
  assert (Hok : Game.isValidMove this col σ1 = true).
  { apply isValidMove_true. by rewrite (grid_of_lookup _ _ _ Hboard1). }
  split; [done|].
  destruct (makeMove_cases fuel this col σ1 grid Hboard1 Hwf Hfuel Hplaying
              Hfree) as (this' & Hmove & _).
  rewrite Hcur in Hmove. eexists _, _, _, _. split; [exact Hmove|].
  apply grid_of_insert_eq. by eapply lookup_lt_Some.
Qed.

(** The CPU's reply to the first move of a game. *)
Lemma cpu_move_accepted_witness :
  let this :=
    Game.mkGame 0%nat PLAYER_2 Game.PLAYING Game.CPU None None
      [Game.mkMove 0 3 PLAYER_1] false false in
  let σ := [write reset 0 3 PLAYER_1] in
  let ai := AI.new AI.EASY in
  let col := (AI.getBestMove ai (AI.mkRandom true 5) (Game.board this) σ).1 in
  let σ1 := (AI.getBestMove ai (AI.mkRandom true 5) (Game.board this) σ).2 in
  0 ≤ col < COLS
  ∧ grid_of σ1 (Game.board this) = grid_of σ (Game.board this)
  ∧ Game.isValidMove this col σ1 = true
  ∧ ∃ r this' σ' calls,
      Game.makeMove 8 this col σ1
      = Some (Some (Game.mkMove r col PLAYER_2), this', σ', calls)
      ∧ grid_of σ' (Game.board this)
        = write (grid_of σ (Game.board this)) r col PLAYER_2.
Proof.
  apply (cpu_move_accepted 8 [StartGame Game.CPU; MakeMove 3] []
           [write reset 0 3 PLAYER_1]
           (Game.mkGame 0%nat PLAYER_2 Game.PLAYING Game.CPU None None
              [Game.mkMove 0 3 PLAYER_1] false false)
           AI.EASY (AI.mkRandom true 5)).
  - lia.
  - reflexivity.
  - reflexivity.
Defined.

(** X25. In a game from [new Game()] where it is the CPU's turn and some
    column wins at once for it, the move that [getBestMove] returns, on
    a path that is not the random draw, wins the game: [makeMove] with
    it leaves the game won by [PLAYER_2]. *)
Theorem cpu_wins_when_it_can (fuel : nat) (actions : list Action)
    (σ0 σ : Store) (this : Game.Game) (difficulty : AI.DIFFICULTY)
    (random : AI.Random) (c : Z) :
  (8 ≤ fuel)%nat →
  acts fuel actions (Game.new σ0).1 (Game.new σ0).2 = Some (this, σ) →
  Game.isCPUTurn this = true →
  (difficulty = AI.EASY → AI.below_06 random = false) →
  Game.isValidMove this c σ = true →
  (∃ out, Game.makeMove fuel this c σ = Some out
          ∧ Game.gameState out.1.1.2 = Game.WIN) →
  let ai := AI.new difficulty in
  let col := (AI.getBestMove ai random (Game.board this) σ).1 in
  let σ1 := (AI.getBestMove ai random (Game.board this) σ).2 in
  ∃ move this' σ' calls,
    Game.makeMove fuel this col σ1 = Some (Some move, this', σ', calls)
    ∧ Game.gameState this' = Game.WIN
    ∧ Game.winner this' = Some PLAYER_2.
Proof.
  intros Hfuel Hrun Hturn Hrandom Hc Hcwin ai col σ1.
  destruct (cpu_turn fuel actions σ0 σ this difficulty Hfuel Hrun Hturn)
    as (grid & Hboard & Hwf & Hinv & Hplaying & Hcur & Hsides & Htok & Hnone
        & Hsome).
  apply isValidMove_true in Hc as [_ Hc].
  rewrite (grid_of_lookup _ _ _ Hboard) in Hc.
  assert (Hline : ∀ col, isColumnFull grid col = false →
            (AI.checkWinner (child_grid grid PLAYER_2 col) = Some PLAYER_2
             ↔ wins_at (write grid (findLowestRow grid col) col PLAYER_2)
                 (findLowestRow grid col) col PLAYER_2)).
  { intros k Hfree.
    destruct (GameLogicMore.checkWinner_child grid k PLAYER_2 Hwf
                ltac:(discriminate) (checkWinner_None _ Hnone) Hfree)
      as [Hiff _].
    rewrite Hiff. unfold child_grid. by rewrite Hfree. }
  assert (Hwin : AI.checkWinner (child_grid grid PLAYER_2 c) = Some PLAYER_2).
  { apply Hline; [done|].
    destruct (makeMove_cases fuel this c σ grid Hboard Hwf Hfuel Hplaying Hc)
      as (this' & Hmove & _ & _ & _ & _ & _ & Hcases).
    destruct Hcwin as (out & Hout & Hst). rewrite Hmove in Hout.
    injection Hout as <-. simpl in Hst. rewrite Hcur in Hcases.
    destruct Hcases as [(_ & Hw & _)|[(Hd & _)|(Hp & _)]]; [done|congruence..]. }
  destruct (search_takes_win ai random (Game.board this) σ grid c Hboard Hwf
              Hsides Htok Hrandom Hc Hwin) as [Hfree Hbest].
  fold col in Hfree, Hbest.
  destruct (getBestMove_computes ai random (Game.board this) σ)
    as [fresh Hfresh]; [by exists grid|].
  fold σ1 in Hfresh.
  assert (Hboard1 : σ1 !! Game.board this = Some grid).
  { rewrite Hfresh. by apply lookup_app_l_Some. }
  destruct (makeMove_cases fuel this col σ1 grid Hboard1 Hwf Hfuel Hplaying
              Hfree) as (this' & Hmove & _ & _ & _ & _ & _ & Hcases).
  eexists _, _, _, _. split; [exact Hmove|].
  apply Hline in Hbest; [|done]. rewrite Hcur in Hcases.
  destruct Hcases as [(Hst & _ & _ & Hw & _)|[(_ & Hnot & _)|(_ & Hnot & _)]];
    [by rewrite Hw|by destruct Hnot..].
Qed.

(** The CPU completes its row of three. *)
Lemma cpu_wins_when_it_can_witness :
  let this :=
    Game.mkGame 0%nat PLAYER_2 Game.PLAYING Game.CPU None None
      [Game.mkMove 0 0 PLAYER_1; Game.mkMove 0 3 PLAYER_2;
       Game.mkMove 1 0 PLAYER_1; Game.mkMove 0 4 PLAYER_2;
       Game.mkMove 2 0 PLAYER_1; Game.mkMove 0 5 PLAYER_2;
       Game.mkMove 0 1 PLAYER_1] false false in
  let σ := [played [(0, 1); (3, 2); (0, 1); (4, 2); (0, 1); (5, 2); (1, 1)]] in
  let ai := AI.new AI.MEDIUM in
  let col := (AI.getBestMove ai (AI.mkRandom true 5) (Game.board this) σ).1 in
  let σ1 := (AI.getBestMove ai (AI.mkRandom true 5) (Game.board this) σ).2 in
  ∃ move this' σ' calls,
    Game.makeMove 8 this col σ1 = Some (Some move, this', σ', calls)
    ∧ Game.gameState this' = Game.WIN
    ∧ Game.winner this' = Some PLAYER_2.
Proof.
  apply (cpu_wins_when_it_can 8
           [StartGame Game.CPU; MakeMove 0; MakeMove 3; MakeMove 0; MakeMove 4;
            MakeMove 0; MakeMove 5; MakeMove 1] []
           [played [(0, 1); (3, 2); (0, 1); (4, 2); (0, 1); (5, 2); (1, 1)]]
           (Game.mkGame 0%nat PLAYER_2 Game.PLAYING Game.CPU None None
              [Game.mkMove 0 0 PLAYER_1; Game.mkMove 0 3 PLAYER_2;
               Game.mkMove 1 0 PLAYER_1; Game.mkMove 0 4 PLAYER_2;
               Game.mkMove 2 0 PLAYER_1; Game.mkMove 0 5 PLAYER_2;
               Game.mkMove 0 1 PLAYER_1] false false)
           AI.MEDIUM (AI.mkRandom true 5) 6).
  - lia.
  - reflexivity.
  - reflexivity.
  - discriminate.
  - reflexivity.
  - eexists. split; [vm_compute; reflexivity|reflexivity].
Defined.

End PlayFacts.
